(** * miniPaint RexxJS control surface: command parser, dispatch table,
      embedded-script meta-command and RPC control bus.

    The development follows the JavaScript sources
    - [minipaint-rexx-handler.js]  (class [MiniPaintRexxHandler]),
    - [execute-rexx.js]            ([executeRexxScript], [setupRexxScriptExecution]),
    - [minipaint-controlbus.js]    ([MiniPaintWorkerBridge], [MiniPaintDirectorBridge]).

    Layout: the JavaScript primitives the sources rely on (strings, numbers,
    coercions, JSON), then the editor ([app]) as an effectful collaborator,
    then the three source files in order, then the theorems. *)

From Stdlib Require Import ZArith Lia Ascii String SpecFloat.
From stdpp Require Import base option list gmap strings pretty.

Open Scope string_scope.
Open Scope Z_scope.

(** ** JavaScript strings

    A [string] stands for a JavaScript string all of whose code units are
    below 256; every [ascii] is one code unit. *)
Module Str.

(** The characters matched by [\s] and removed by [trim()], restricted to
    code units below 256: TAB, LF, VT, FF, CR, SPACE, NBSP. *)
Definition is_space (c : ascii) : bool :=
  match N_of_ascii c with
  | 9 | 10 | 11 | 12 | 13 | 32 | 160 => true
  | _ => false
  end%N.

Fixpoint trimStart (s : string) : string :=
  match s with
  | String c s' => if is_space c then trimStart s' else s
  | EmptyString => EmptyString
  end.

(** From the right: a white-space character goes when all that follows
    it has gone. *)
Fixpoint trimEnd (s : string) : string :=
  match s with
  | String c s' =>
      let t := trimEnd s' in
      if is_space c && String.eqb t "" then "" else String c t
  | EmptyString => EmptyString
  end.

(** [s.trim()] *)
Definition trim (s : string) : string := trimEnd (trimStart s).

Definition snoc (s : string) (c : ascii) : string := s +:+ String c "".

(** [s.split(/\s+/)]: the pieces between maximal runs of white space.  A run
    at either end leaves an empty piece there, and the empty string gives
    one empty piece.  [cur] is the piece being read, [in_run] tells that
    the previous character was white space. *)
Fixpoint split_ws_go (cur : string) (in_run : bool) (s : string) : list string :=
  match s with
  | EmptyString => [cur]
  | String c s' =>
      if is_space c then
        if in_run then split_ws_go cur true s'
        else cur :: split_ws_go "" true s'
      else split_ws_go (snoc cur c) false s'
  end.

Definition split_ws (s : string) : list string := split_ws_go "" false s.

(** [s.split(sep)] for a one-character separator: every occurrence splits. *)
Fixpoint split_char_go (sep : ascii) (cur : string) (s : string) : list string :=
  match s with
  | EmptyString => [cur]
  | String c s' =>
      if Ascii.eqb c sep then cur :: split_char_go sep "" s'
      else split_char_go sep (snoc cur c) s'
  end.

Definition split_char (sep : ascii) (s : string) : list string :=
  split_char_go sep "" s.

(** [s.startsWith(p)] *)
Definition startsWith (p s : string) : bool := String.prefix p s.

(** [s.includes(p)] *)
Fixpoint includes (p s : string) : bool :=
  String.prefix p s ||
  match s with
  | EmptyString => false
  | String _ s' => includes p s'
  end.

Fixpoint existsb (p : ascii → bool) (s : string) : bool :=
  match s with
  | EmptyString => false
  | String c s' => p c || existsb p s'
  end.

Definition contains_char (c : ascii) (s : string) : bool :=
  existsb (λ x, Ascii.eqb x c) s.

Definition has_space (s : string) : bool := existsb is_space s.

Fixpoint repeat_char (c : ascii) (n : nat) : string :=
  match n with
  | O => ""
  | S n' => String c (repeat_char c n')
  end.

Fixpoint take (n : nat) (s : string) : string :=
  match n, s with
  | S n', String c s' => String c (take n' s')
  | _, _ => ""
  end.

Fixpoint drop (n : nat) (s : string) : string :=
  match n, s with
  | S n', String _ s' => drop n' s'
  | _, _ => s
  end.

(** [arr.join(sep)] on strings. *)
Fixpoint join (sep : string) (l : list string) : string :=
  match l with
  | [] => ""
  | [x] => x
  | x :: l' => x +:+ sep +:+ join sep l'
  end.

End Str.


(** ** JavaScript numbers

    A number is an IEEE 754 binary64 value; [spec_float] with precision 53
    and maximal exponent 1024 is exactly that set (one NaN). *)
Module Num.

Definition number : Type := spec_float.

Definition prec : Z := 53.
Definition emax : Z := 1024.

#[global] Instance number_eq_dec : EqDecision number.
Proof. solve_decision. Defined.

Definition NaN : number := S754_nan.
Definition Infinity (neg : bool) : number := S754_infinity neg.

(** The float64 nearest to the integer [z] (ties to even). *)
Definition of_Z (z : Z) : number := binary_normalize prec emax z 0 false.

(** The float64 nearest to [p / q] (ties to even), with sign [neg]. *)
Definition of_ratio (neg : bool) (p q : positive) : number :=
  let '(m, e, l) := SFdiv_core_binary prec emax (Zpos p) 0 (Zpos q) 0 in
  binary_round_aux prec emax neg m e l.

(** The float64 nearest to [m * 10 ^ e], with sign [neg]. *)
Definition of_decimal (neg : bool) (m : N) (e : Z) : number :=
  match m with
  | N0 => S754_zero neg
  | Npos p =>
      if 0 <=? e then binary_round prec emax neg (p * Z.to_pos (10 ^ e)) 0
      else of_ratio neg p (Z.to_pos (10 ^ (- e)))
  end.

Definition is_nan (x : number) : bool :=
  match x with S754_nan => true | _ => false end.

Definition is_zero (x : number) : bool :=
  match x with S754_zero _ => true | _ => false end.

Definition is_finite (x : number) : bool :=
  match x with S754_zero _ | S754_finite _ _ _ => true | _ => false end.

(** [x < y] on numbers; false as soon as one side is NaN. *)
Definition ltb (x y : number) : bool := SFltb x y.

(** [x === y] on numbers: NaN differs from itself, the two zeros are equal. *)
Definition eqb (x y : number) : bool := SFeqb x y.

(** *** Number::toString (radix 10)

    For a positive finite [x = m * 2 ^ e] the standard asks for integers
    [n], [k], [s] with [k >= 1], [10^(k-1) <= s < 10^k], [s * 10^(n-k)]
    rounding to [x], and [k] as small as possible; among several [s] the one
    closest to [x]. *)

(** [x] as a fraction of positive integers. *)
Definition fraction (m : positive) (e : Z) : Z * Z :=
  if 0 <=? e then (Zpos m * 2 ^ e, 1) else (Zpos m, 2 ^ (- e)).

Definition digits (z : Z) : string := pretty (Z.to_N z).

(** The least [j >= 1] with [q <= p * 10^j], searched from [j]; the number
    of binary digits of [q] bounds the search. *)
Fixpoint scale_up (fuel : nat) (p q : Z) (j : Z) : Z :=
  match fuel with
  | O => j
  | S fuel' => if q <=? p * 10 ^ j then j else scale_up fuel' p q (j + 1)
  end.

(** [n0] with [10^(n0-1) <= p/q < 10^n0]. *)
Definition decimal_exponent (p q : Z) : Z :=
  if q <=? p then Z.of_nat (String.length (digits (p / q)))
  else 1 - scale_up (Z.to_nat (Z.log2 q + 1)) p q 1.

(** [p/q * 10^d] as a fraction. *)
Definition scale10 (p q d : Z) : Z * Z :=
  if 0 <=? d then (p * 10 ^ d, q) else (p, q * 10 ^ (- d)).

(** The candidate with [k] digits, if one rounds to [x]. *)
Definition shortest_at (m : positive) (e : Z) (n0 : Z) (k : Z) : option (Z * Z) :=
  let '(p, q) := fraction m e in
  let '(p', q') := scale10 p q (k - n0) in
  let lo := p' / q' in
  let hi := lo + 1 in
  let ok s := bool_decide (of_decimal false (Z.to_N s) (n0 - k) = S754_finite false m e) in
  let norm s := if s =? 10 ^ k then (10 ^ (k - 1), n0 + 1) else (s, n0) in
  match ok lo, ok hi with
  | true, true =>
      match 2 * p' ?= (2 * lo + 1) * q' with
      | Lt => Some (norm lo)
      | Gt => Some (norm hi)
      | Eq => Some (norm (if Z.even lo then lo else hi))
      end
  | true, false => Some (norm lo)
  | false, true => Some (norm hi)
  | false, false => None
  end.

Fixpoint shortest_from (fuel : nat) (m : positive) (e : Z) (n0 : Z) (k : Z) : Z * Z :=
  match fuel with
  | O => (0, n0)
  | S fuel' =>
      match shortest_at m e n0 k with
      | Some r => r
      | None => shortest_from fuel' m e n0 (k + 1)
      end
  end.

(** [(s, n)] for [x = m * 2 ^ e]; seventeen digits always identify a
    float64. *)
Definition shortest (m : positive) (e : Z) : Z * Z :=
  let '(p, q) := fraction m e in
  shortest_from 17 m e (decimal_exponent p q) 1.

Definition zeros (n : Z) : string := Str.repeat_char "0" (Z.to_nat n).

Definition format (s n : Z) : string :=
  let ds := digits s in
  let k := Z.of_nat (String.length ds) in
  if (k <=? n) && (n <=? 21) then ds +:+ zeros (n - k)
  else if (0 <? n) && (n <=? 21) then
    Str.take (Z.to_nat n) ds +:+ "." +:+ Str.drop (Z.to_nat n) ds
  else if (-6 <? n) && (n <=? 0) then "0." +:+ zeros (- n) +:+ ds
  else
    let ex := n - 1 in
    let sign := if 0 <=? ex then "+" else "-" in
    let mant := if k =? 1 then ds
                else Str.take 1 ds +:+ "." +:+ Str.drop 1 ds in
    mant +:+ "e" +:+ sign +:+ digits (Z.abs ex).

Definition toString (x : number) : string :=
  match x with
  | S754_nan => "NaN"
  | S754_zero _ => "0"
  | S754_infinity neg => if neg then "-Infinity" else "Infinity"
  | S754_finite neg m e =>
      let '(s, n) := shortest m e in
      (if neg then "-" else "") +:+ format s n
  end.

End Num.

(** *** StringToNumber

    [Number(s)] and [isNaN(s)] on a string: white space is trimmed, the empty
    string is [+0], and the rest has to be a StrNumericLiteral as a whole:
    a signed decimal literal ([Infinity], [12], [1.5], [.5], [5.], [1e3]) or
    an unsigned [0x], [0o] or [0b] integer.  Anything else is [NaN]. *)
Module Literal.

Definition digit_value (c : ascii) : option N :=
  let n := N_of_ascii c in
  if (48 <=? n)%N && (n <=? 57)%N then Some (n - 48)%N
  else if (97 <=? n)%N && (n <=? 102)%N then Some (n - 87)%N
  else if (65 <=? n)%N && (n <=? 70)%N then Some (n - 55)%N
  else None.

Definition is_digit (radix : N) (c : ascii) : bool :=
  match digit_value c with
  | Some d => (d <? radix)%N
  | None => false
  end.

(** The longest prefix of digits, and the rest. *)
Fixpoint span_digits (radix : N) (s : string) : string * string :=
  match s with
  | String c s' =>
      if is_digit radix c then
        let '(ds, rest) := span_digits radix s' in (String c ds, rest)
      else ("", s)
  | EmptyString => ("", "")
  end.

Fixpoint digits_value (radix : N) (acc : N) (s : string) : N :=
  match s with
  | String c s' =>
      digits_value radix (acc * radix + default 0%N (digit_value c))%N s'
  | EmptyString => acc
  end.

(** An optional sign in front: [(negative, rest)]. *)
Definition sign (s : string) : bool * string :=
  match s with
  | String "+" s' => (false, s')
  | String "-" s' => (true, s')
  | _ => (false, s)
  end.

(** ExponentPart, or nothing: the exponent when the rest is well formed. *)
Definition exponent_part (s : string) : option Z :=
  match s with
  | EmptyString => Some 0
  | String c s' =>
      if Ascii.eqb c "e" || Ascii.eqb c "E" then
        let '(neg, ds) := sign s' in
        match span_digits 10 ds with
        | (String _ _ as d, EmptyString) =>
            Some (cond_Zopp neg (Z.of_N (digits_value 10 0 d)))
        | _ => None
        end
      else None
  end.

(** StrUnsignedDecimalLiteral other than [Infinity]: mantissa and decimal
    exponent. *)
Definition unsigned_decimal (s : string) : option (N * Z) :=
  let '(ip, rest) := span_digits 10 s in
  let '(fp, rest') :=
    match rest with
    | String "." r => span_digits 10 r
    | _ => ("", rest)
    end in
  match ip +:+ fp with
  | EmptyString => None
  | ds =>
      ex ← exponent_part rest';
      Some (digits_value 10 0 ds, ex - Z.of_nat (String.length fp))
  end.

Definition decimal (s : string) : option Num.number :=
  let '(neg, body) := sign s in
  if String.eqb body "Infinity" then Some (Num.Infinity neg)
  else '(m, ex) ← unsigned_decimal body; Some (Num.of_decimal neg m ex).

Definition radix_of_prefix (c : ascii) : option N :=
  if Ascii.eqb c "x" || Ascii.eqb c "X" then Some 16%N
  else if Ascii.eqb c "o" || Ascii.eqb c "O" then Some 8%N
  else if Ascii.eqb c "b" || Ascii.eqb c "B" then Some 2%N
  else None.

Definition non_decimal (s : string) : option Num.number :=
  match s with
  | String "0" (String c ds) =>
      radix ← radix_of_prefix c;
      match span_digits radix ds with
      | (String _ _ as d, EmptyString) =>
          Some (Num.of_Z (Z.of_N (digits_value radix 0 d)))
      | _ => None
      end
  | _ => None
  end.

(** For the statements: the texts made of decimal digits only. *)
Fixpoint all_digits (s : string) : bool :=
  match s with
  | String c s' => is_digit 10 c && all_digits s'
  | EmptyString => true
  end.

Definition StringToNumber (s : string) : Num.number :=
  let t := Str.trim s in
  if String.eqb t "" then S754_zero false
  else match non_decimal t with
       | Some x => x
       | None => default Num.NaN (decimal t)
       end.

End Literal.

(** ** JavaScript values

    The primitive values that cross the command surface.  Objects are
    modelled where they occur: parameter objects as finite maps ([obj]),
    envelopes and editor data as records. *)
Inductive value : Type :=
  | VUndef
  | VNull
  | VBool (b : bool)
  | VNum (n : Num.number)
  | VStr (s : string).

#[global] Instance value_eq_dec : EqDecision value.
Proof. solve_decision. Defined.

#[global] Instance value_inhabited : Inhabited value := populate VUndef.

(** The number literal [z] of the source text. *)
Definition VInt (z : Z) : value := VNum (Num.of_Z z).

#[global] Arguments VInt : simpl never.
#[global] Arguments Num.of_Z : simpl never.
#[global] Arguments Num.of_decimal : simpl never.
#[global] Arguments Num.toString : simpl never.
#[global] Arguments Literal.StringToNumber : simpl never.

(** ToBoolean: what [if (v)], [!v], [v && ...] and [v || ...] test. *)
Definition truthy (v : value) : bool :=
  match v with
  | VUndef | VNull => false
  | VBool b => b
  | VNum n => negb (Num.is_zero n || Num.is_nan n)
  | VStr s => negb (String.eqb s "")
  end.

(** ToString: what a template literal [`${v}`] and [v + '...'] print. *)
Definition ToString (v : value) : string :=
  match v with
  | VUndef => "undefined"
  | VNull => "null"
  | VBool b => if b then "true" else "false"
  | VNum n => Num.toString n
  | VStr s => s
  end.

(** ToNumber, as applied by [isNaN], [Number] and the relational operators. *)
Definition ToNumber (v : value) : Num.number :=
  match v with
  | VUndef => Num.NaN
  | VNull => S754_zero false
  | VBool b => if b then Num.of_Z 1 else S754_zero false
  | VNum n => n
  | VStr s => Literal.StringToNumber s
  end.

Definition isNaN (v : value) : bool := Num.is_nan (ToNumber v).

(** [a === b] *)
Definition strict_eq (a b : value) : bool :=
  match a, b with
  | VNum x, VNum y => Num.eqb x y
  | _, _ => bool_decide (a = b)
  end.

(** [a || b] *)
Definition or_else (a b : value) : value := if truthy a then a else b.

(** [v < k] and [v > k] against a number literal [k]. *)
Definition lt_num (v : value) (k : Z) : bool := Num.ltb (ToNumber v) (Num.of_Z k).
Definition gt_num (v : value) (k : Z) : bool := Num.ltb (Num.of_Z k) (ToNumber v).

(** [list.includes(v)] on a list of strings. *)
Definition includes_str (l : list string) (v : value) : bool :=
  match v with
  | VStr s => bool_decide (s ∈ l)
  | _ => false
  end.

(** ** Parameter objects

    A parameter object is a plain object ([{}]) holding primitive values.
    Reading a name it does not hold gives [undefined]; none of the names the
    handlers read is defined on [Object.prototype]. *)
Abbreviation obj := (gmap string value).

Definition read (o : obj) (k : string) : value := default VUndef (o !! k).

(** [o[k] = v] on a plain object, for a primitive [v]: the name [__proto__]
    is an accessor inherited from [Object.prototype] whose setter ignores
    primitives, so that assignment leaves [o] as it is. *)
Definition assign (k : string) (v : value) (o : obj) : obj :=
  if String.eqb k "__proto__" then o else <[k := v]> o.

(** ** JSON.stringify on the shapes the handlers serialise *)
Module JSON.

Definition dquote : ascii := ascii_of_N 34.
Definition backslash : ascii := ascii_of_N 92.

Definition hex_digit (n : N) : ascii :=
  ascii_of_N (if (n <? 10)%N then n + 48 else n + 87).

(** One code unit inside a JSON string (QuoteJSONString). *)
Definition escape (c : ascii) : string :=
  let n := N_of_ascii c in
  match n with
  | 8 => "\b" | 9 => "\t" | 10 => "\n" | 12 => "\f" | 13 => "\r"
  | 34 => String backslash (String c "")
  | 92 => String backslash (String backslash "")
  | _ => if (n <? 32)%N
         then "\u00" +:+ String (hex_digit (n / 16)) (String (hex_digit (n mod 16)) "")
         else String c ""
  end%N.

Fixpoint escape_all (s : string) : string :=
  match s with
  | EmptyString => ""
  | String c s' => escape c +:+ escape_all s'
  end.

Definition quote (s : string) : string :=
  String dquote (escape_all s) +:+ String dquote "".

(** The JSON text of a primitive; [undefined] has none. *)
Definition primitive (v : value) : option string :=
  match v with
  | VUndef => None
  | VNull => Some "null"
  | VBool b => Some (if b then "true" else "false")
  | VNum n => Some (if Num.is_finite n then Num.toString n else "null")
  | VStr s => Some (quote s)
  end.

(** An object literal with the given fields: a field holding [undefined]
    is left out. *)
Definition member (kv : string * value) : option string :=
  t ← primitive kv.2; Some (quote kv.1 +:+ ":" +:+ t).

Definition object (fields : list (string * value)) : string :=
  "{" +:+ Str.join "," (omap member fields) +:+ "}".

(** An array whose elements are already serialised. *)
Definition array (elems : list string) : string :=
  "[" +:+ Str.join "," elems +:+ "]".

End JSON.

(** ** minipaint-rexx-handler.js: the command parser *)

(** What [parseCommand] returns: [{ method, params }]. *)
Record Command : Type := { method : string; params : obj }.

(** The chain of tests applied to the raw text of a value:
    [true] and [false] become booleans, a text that [isNaN] accepts and that
    is not empty becomes [Number(value)], anything else stays a string. *)
Definition coerce (raw : string) : value :=
  if String.eqb raw "true" then VBool true
  else if String.eqb raw "false" then VBool false
  else if negb (isNaN (VStr raw)) && negb (String.eqb raw "")
       then VNum (ToNumber (VStr raw))
  else VStr raw.

(** One turn of the loop: [const [key, value] = parts[i].split('=')], then
    the guarded assignment.  [value] is [undefined] when the split has a
    single piece; pieces after the second are not looked at. *)
Definition parse_part (acc : obj) (part : string) : obj :=
  match Str.split_char "=" part with
  | key :: raw :: _ =>
      if truthy (VStr key) then assign key (coerce raw) acc else acc
  | _ => acc
  end.

Definition parseCommand (commandString : string) : Command :=
  let parts := Str.split_ws (Str.trim commandString) in
  {| method := default "" (head parts);
     params := foldl parse_part ∅ (tail parts) |}.

(** ** Exceptions and effects

    What a [throw] carries and a [catch] receives.  The sources only ever
    read [error.message]: [ExnError m] stands for any thrown value other than
    [null] and [undefined] whose [message] reads as [m] (an [Error] object has
    a string there, a thrown primitive has [undefined]); [message] is taken
    to be a data property.  Reading it off [null] or [undefined] throws a
    TypeError. *)
Inductive exn : Type :=
  | ExnNull
  | ExnUndefined
  | ExnError (message : value).

(** [new Error(text)], and the TypeError objects the engine creates. *)
Definition Error (text : string) : exn := ExnError (VStr text).

(** The texts are those of V8; the general statements below do not depend
    on them. *)
Definition TypeError_message_of_null : exn :=
  Error "Cannot read properties of null (reading 'message')".
Definition TypeError_message_of_undefined : exn :=
  Error "Cannot read properties of undefined (reading 'message')".
Definition TypeError_not_a_function : exn :=
  Error "handler is not a function".
Definition TypeError_this_nullish : exn :=
  Error "Cannot convert undefined or null to object".
Definition TypeError_called_on_nullish (method : string) : exn :=
  Error (method +:+ " called on null or undefined").

Inductive outcome (A : Type) : Type :=
  | Ret (a : A)
  | Throw (e : exn).
Arguments Ret {A} a.
Arguments Throw {A} e.

(** A computation that may change the state [W] of the editor and either
    returns or throws.  An [await] is the sequencing of this monad. *)
Definition M (W A : Type) : Type := W → outcome A * W.

Definition ret {W A} (a : A) : M W A := λ w, (Ret a, w).

Definition throw {W A} (e : exn) : M W A := λ w, (Throw e, w).

Definition bind {W A B} (m : M W A) (k : A → M W B) : M W B :=
  λ w, match m w with
       | (Ret a, w') => k a w'
       | (Throw e, w') => (Throw e, w')
       end.

(** [try { body } catch (error) { handler }] *)
Definition try_catch {W A} (body : M W A) (handler : exn → M W A) : M W A :=
  λ w, match body w with
       | (Ret a, w') => (Ret a, w')
       | (Throw e, w') => handler e w'
       end.

Notation "'let!' x ':=' m 'in' k" := (bind m (λ x, k))
  (at level 10, x name, m at level 100, k at level 200).
Notation "'do!' m 'in' k" := (bind m (λ _, k))
  (at level 10, m at level 100, k at level 200).

(** [error.message] *)
Definition read_message (error : exn) : outcome value :=
  match error with
  | ExnError m => Ret m
  | ExnNull => Throw TypeError_message_of_null
  | ExnUndefined => Throw TypeError_message_of_undefined
  end.

Definition message_of {W} (error : exn) : M W value :=
  λ w, (read_message error, w).

(** ** The envelope

    The object literals [{ success, errorCode, output, result }] the handlers
    and the dispatcher build, as the four property reads of the object: a
    name the literal does not have reads [VUndef]. *)
Record Envelope : Type :=
  { success : value; errorCode : value; output : value; result : value }.

#[global] Instance Envelope_eq_dec : EqDecision Envelope.
Proof. solve_decision. Defined.

(** ** The editor ([app])

    The editor is an external collaborator.  Each reference the handlers test
    before use is an [option] (absent, or present and callable); a call takes
    its arguments and runs in [M].  A call whose result does not have the
    shape the handler destructures ends in a TypeError inside the handler's
    [try], which the model counts as the call throwing. *)
Module App.
Section App.
Context {W : Type}.

Record Layer : Type := { id : value; name : value; opacity : value }.

Record LayersApi : Type :=
  { addLayer : option (value → M W (option Layer));
    deleteLayer : option (value → M W unit);
    mergeLayers : option (M W unit);
    setOpacity : option (value → value → M W unit);
    getLayerList : option (M W (list Layer));
    getLayerCount : option (M W value);
    getCurrentLayer : option (M W value) }.

Record FileOpenApi : Type := { readImageFile : bool }.

Record ImageApi : Type :=
  { resize : option (value → value → M W unit);
    rotate : option (value → M W unit);
    flip : option (value → M W unit);
    crop : option (value → value → value → value → M W unit);
    newImage : option (value → value → M W unit) }.

Record ActionsApi : Type :=
  { Image : option ImageApi;
    Filters : option (string → option (obj → M W unit)) }.

Record FileSaveApi : Type := { saveFile : option (value → value → M W unit) }.

Record Canvas : Type := { width : value; height : value }.

Record StateApi : Type :=
  { getCanvasSize : option (M W Canvas);
    getImageData : option (M W value);
    canvas : W → option Canvas;
    undo : option (M W unit);
    redo : option (M W unit) }.

Record t : Type :=
  { Layers : option LayersApi;
    FileOpen : option FileOpenApi;
    Actions : option ActionsApi;
    FileSave : option FileSaveApi;
    State : option StateApi }.

End App.
Arguments Layer : clear implicits.
Arguments LayersApi : clear implicits.
Arguments ImageApi : clear implicits.
Arguments ActionsApi : clear implicits.
Arguments FileSaveApi : clear implicits.
Arguments StateApi : clear implicits.
Arguments t : clear implicits.
End App.

(** ** minipaint-rexx-handler.js: the handlers *)
Module MiniPaintRexxHandler.
Section Handlers.
Context {W : Type}.

(** [import app from '../../app.js'] *)
Variable app : App.t W.

(** [{ success: true, output }] *)
Definition done (out : string) : Envelope :=
  {| success := VBool true; errorCode := VUndef; output := VStr out; result := VUndef |}.

(** [{ success: true, output, result }] *)
Definition done_with (out : string) (res : value) : Envelope :=
  {| success := VBool true; errorCode := VUndef; output := VStr out; result := res |}.

(** [{ success: false, errorCode, output }] *)
Definition failed (code : Z) (out : value) : Envelope :=
  {| success := VBool false; errorCode := VInt code; output := out; result := VUndef |}.

(** [catch (error) { return { success: false, errorCode, output: error.message } }] *)
Definition caught (code : Z) (error : exn) : M W Envelope :=
  let! msg := message_of error in ret (failed code msg).

(** [app.Actions && app.Actions.Image && app.Actions.Image.f] *)
Definition image_action {F} (f : App.ImageApi W → option F) : option F :=
  actions ← App.Actions app; image ← App.Image actions; f image.

(** [['horizontal', 'vertical']] *)
Definition directions : list string := ["horizontal"; "vertical"].

Definition validEffects : list string :=
  ["blur"; "sharpen"; "emboss"; "sepia"; "invert"; "posterize";
   "grayscale"; "brightness"; "contrast"; "saturation"].

Definition openImage (params : obj) : M W Envelope :=
  try_catch
    (let file := read params "file" in
     if negb (truthy file) then ret (failed 10 (VStr "file parameter required"))
     else
       if match App.FileOpen app with
          | Some fo => App.readImageFile fo
          | None => false
          end
       then ret (done ("Loaded image: " +:+ ToString file))
       else ret (failed 11 (VStr "FileOpen not available")))
    (caught 19).

Definition resize (params : obj) : M W Envelope :=
  try_catch
    (let width := read params "width" in
     let height := read params "height" in
     if negb (truthy width) || negb (truthy height)
     then ret (failed 20 (VStr "width and height parameters required"))
     else
       match image_action App.resize with
       | Some f =>
           do! f width height in
           ret (done ("Resized to " +:+ ToString width +:+ "x" +:+ ToString height))
       | None => ret (failed 21 (VStr "Resize action not available"))
       end)
    (caught 29).

Definition rotate (params : obj) : M W Envelope :=
  try_catch
    (let angle := read params "angle" in
     if strict_eq angle VUndef then ret (failed 30 (VStr "angle parameter required"))
     else
       match image_action App.rotate with
       | Some f =>
           do! f angle in
           ret (done ("Rotated by " +:+ ToString angle +:+ " degrees"))
       | None => ret (failed 31 (VStr "Rotate action not available"))
       end)
    (caught 39).

(** The text of the error 40, where both words stand in double quotes. *)
Definition flip_usage : string :=
  let quoted word := String JSON.dquote word +:+ String JSON.dquote "" in
  "direction must be " +:+ quoted "horizontal" +:+ " or " +:+ quoted "vertical".

Definition flip (params : obj) : M W Envelope :=
  try_catch
    (let direction := read params "direction" in
     if negb (truthy direction) || negb (includes_str directions direction)
     then ret (failed 40 (VStr flip_usage))
     else
       match image_action App.flip with
       | Some f =>
           do! f direction in
           ret (done ("Flipped " +:+ ToString direction))
       | None => ret (failed 41 (VStr "Flip action not available"))
       end)
    (caught 49).

Definition crop (params : obj) : M W Envelope :=
  try_catch
    (let x1 := read params "x1" in
     let y1 := read params "y1" in
     let x2 := read params "x2" in
     let y2 := read params "y2" in
     if strict_eq x1 VUndef || strict_eq y1 VUndef
        || strict_eq x2 VUndef || strict_eq y2 VUndef
     then ret (failed 50 (VStr "x1, y1, x2, y2 parameters required"))
     else
       match image_action App.crop with
       | Some f =>
           do! f x1 y1 x2 y2 in
           ret (done ("Cropped to (" +:+ ToString x1 +:+ "," +:+ ToString y1
                      +:+ ")-(" +:+ ToString x2 +:+ "," +:+ ToString y2 +:+ ")"))
       | None => ret (failed 51 (VStr "Crop action not available"))
       end)
    (caught 59).

(** [const { name, ...effectParams } = params] *)
Definition applyEffect (params : obj) : M W Envelope :=
  try_catch
    (let name := read params "name" in
     let effectParams := delete "name" params in
     if negb (truthy name) then ret (failed 60 (VStr "name parameter required"))
     else if negb (includes_str validEffects name)
     then ret (failed 61 (VStr ("Unknown effect: " +:+ ToString name)))
     else
       match actions ← App.Actions app; filters ← App.Filters actions;
             filters (ToString name) with
       | Some f =>
           do! f effectParams in
           ret (done ("Applied effect: " +:+ ToString name))
       | None => ret (failed 62 (VStr ("Effect " +:+ ToString name +:+ " not available")))
       end)
    (caught 69).

(** [const { name = 'Layer' } = params]: the default replaces [undefined]
    only. *)
Definition addLayer (params : obj) : M W Envelope :=
  try_catch
    (let name := if strict_eq (read params "name") VUndef then VStr "Layer"
                 else read params "name" in
     match layers ← App.Layers app; App.addLayer layers with
     | Some f =>
         let! layer := f name in
         ret (done_with ("Added layer: " +:+ ToString name)
                (match layer with Some l => App.id l | None => VStr "" end))
     | None => ret (failed 71 (VStr "addLayer not available"))
     end)
    (caught 79).

Definition deleteLayer (params : obj) : M W Envelope :=
  try_catch
    (let id := read params "id" in
     if strict_eq id VUndef then ret (failed 80 (VStr "id parameter required"))
     else
       match layers ← App.Layers app; App.deleteLayer layers with
       | Some f =>
           do! f id in
           ret (done ("Deleted layer: " +:+ ToString id))
       | None => ret (failed 81 (VStr "deleteLayer not available"))
       end)
    (caught 89).

Definition mergeLayers (params : obj) : M W Envelope :=
  try_catch
    (match layers ← App.Layers app; App.mergeLayers layers with
     | Some f => do! f in ret (done "Merged all layers")
     | None => ret (failed 91 (VStr "mergeLayers not available"))
     end)
    (caught 99).

Definition setOpacity (params : obj) : M W Envelope :=
  try_catch
    (let layer := read params "layer" in
     let opacity := read params "opacity" in
     if strict_eq layer VUndef || strict_eq opacity VUndef
     then ret (failed 100 (VStr "layer and opacity parameters required"))
     else if lt_num opacity 0 || gt_num opacity 1
     then ret (failed 101 (VStr "opacity must be between 0 and 1"))
     else
       match layers ← App.Layers app; App.setOpacity layers with
       | Some f =>
           do! f layer opacity in
           ret (done ("Set layer " +:+ ToString layer +:+ " opacity to "
                      +:+ ToString opacity))
       | None => ret (failed 102 (VStr "setOpacity not available"))
       end)
    (caught 109).

(** [const { output, format = 'png' } = params] *)
Definition saveImage (params : obj) : M W Envelope :=
  try_catch
    (let output := read params "output" in
     let format := if strict_eq (read params "format") VUndef then VStr "png"
                   else read params "format" in
     if negb (truthy output) then ret (failed 110 (VStr "output parameter required"))
     else
       match fs ← App.FileSave app; App.saveFile fs with
       | Some f =>
           do! f output format in
           ret (done ("Saved image: " +:+ ToString output))
       | None => ret (failed 111 (VStr "saveFile not available"))
       end)
    (caught 119).

Definition getCanvasSize (params : obj) : M W Envelope :=
  try_catch
    (match state ← App.State app; App.getCanvasSize state with
     | Some f =>
         let! size := f in
         let width := App.width size in
         let height := App.height size in
         ret (done_with ("Canvas size: " +:+ ToString width +:+ "x" +:+ ToString height)
                (VStr (JSON.object [("width", width); ("height", height)])))
     | None => ret (failed 121 (VStr "getCanvasSize not available"))
     end)
    (caught 129).

Definition getImageData (params : obj) : M W Envelope :=
  try_catch
    (match state ← App.State app; App.getImageData state with
     | Some f =>
         let! dataUrl := f in
         ret (done_with "Retrieved image data" dataUrl)
     | None => ret (failed 131 (VStr "getImageData not available"))
     end)
    (caught 139).

(** [app.Layers?.f?.()] *)
Definition layers_query (f : App.LayersApi W → option (M W value)) : M W value :=
  match layers ← App.Layers app; f layers with
  | Some call => call
  | None => ret VUndef
  end.

Definition getImageInfo (params : obj) : M W Envelope :=
  try_catch
    (match App.State app with
     | Some state =>
         let! canvas := (λ w, (Ret (App.canvas state w), w)) in
         let canvasWidth := or_else (default VUndef (App.width <$> canvas)) (VInt 0) in
         let canvasHeight := or_else (default VUndef (App.height <$> canvas)) (VInt 0) in
         let! count := layers_query App.getLayerCount in
         let layerCount := or_else count (VInt 0) in
         let! current := layers_query App.getCurrentLayer in
         let currentLayer := or_else current (VInt 0) in
         ret (done_with "Retrieved image info"
                (VStr (JSON.object [("canvasWidth", canvasWidth);
                                    ("canvasHeight", canvasHeight);
                                    ("layerCount", layerCount);
                                    ("currentLayer", currentLayer)])))
     | None => ret (failed 141 (VStr "State not available"))
     end)
    (caught 149).

Definition listEffects (params : obj) : M W Envelope :=
  try_catch
    (let effects := validEffects in
     ret (done_with ("Available effects: " +:+ Str.join ", " effects)
            (VStr (JSON.array (JSON.quote <$> effects)))))
    (caught 159).

(** An element of [Array.prototype.join]: [undefined] and [null] print as
    nothing. *)
Definition join_element (v : value) : string :=
  match v with
  | VUndef | VNull => ""
  | _ => ToString v
  end.

Definition layer_json (l : App.Layer) : string :=
  JSON.object [("id", App.id l); ("name", App.name l); ("opacity", App.opacity l)].

Definition listLayers (params : obj) : M W Envelope :=
  try_catch
    (match layers ← App.Layers app; App.getLayerList layers with
     | Some f =>
         let! layers := f in
         ret (done_with
                ("Layers: " +:+ Str.join ", " ((λ l, join_element (App.name l)) <$> layers))
                (VStr (JSON.array (layer_json <$> layers))))
     | None => ret (failed 161 (VStr "getLayerList not available"))
     end)
    (caught 169).

(** [const { width = 800, height = 600 } = params] *)
Definition newImage (params : obj) : M W Envelope :=
  try_catch
    (let width := if strict_eq (read params "width") VUndef then VInt 800
                  else read params "width" in
     let height := if strict_eq (read params "height") VUndef then VInt 600
                   else read params "height" in
     match image_action App.newImage with
     | Some f =>
         do! f width height in
         ret (done ("Created new image: " +:+ ToString width +:+ "x" +:+ ToString height))
     | None => ret (failed 171 (VStr "newImage not available"))
     end)
    (caught 179).

Definition undo (params : obj) : M W Envelope :=
  try_catch
    (match state ← App.State app; App.undo state with
     | Some f => do! f in ret (done "Undo performed")
     | None => ret (failed 181 (VStr "undo not available"))
     end)
    (caught 189).

Definition redo (params : obj) : M W Envelope :=
  try_catch
    (match state ← App.State app; App.redo state with
     | Some f => do! f in ret (done "Redo performed")
     | None => ret (failed 191 (VStr "redo not available"))
     end)
    (caught 199).

(** *** The registry built by the constructor: [this.handlers] *)
Definition handler_table : list (string * (obj → M W Envelope)) :=
  [("open-image", openImage);
   ("resize", resize);
   ("rotate", rotate);
   ("flip", flip);
   ("crop", crop);
   ("apply-effect", applyEffect);
   ("add-layer", addLayer);
   ("delete-layer", deleteLayer);
   ("merge-layers", mergeLayers);
   ("set-opacity", setOpacity);
   ("save-image", saveImage);
   ("get-canvas-size", getCanvasSize);
   ("get-image-data", getImageData);
   ("get-image-info", getImageInfo);
   ("list-effects", listEffects);
   ("list-layers", listLayers);
   ("new-image", newImage);
   ("undo", undo);
   ("redo", redo)].

Definition handlers : gmap string (obj → M W Envelope) := list_to_map handler_table.

(** What [this.handlers[method]] can be: a function, or an object that is
    not callable. *)
Inductive member : Type :=
  | Function (f : obj → M W Envelope)
  | NotCallable.

(** The four reads [run] makes on a parameter object handed back as the
    result. *)
Definition reads_of (o : obj) : Envelope :=
  {| success := read o "success"; errorCode := read o "errorCode";
     output := read o "output"; result := read o "result" |}.

(** [this.handlers] is an object literal, so a name it does not define is
    looked up on [Object.prototype].  Called as [handler(args)], without a
    receiver: [constructor] is [Object] and hands [args] back;
    [toString] returns a string, on which the four reads give [undefined];
    [__proto__] reads as the prototype object, which is not callable;
    [toLocaleString] refuses the missing receiver; the remaining methods
    start by converting the missing receiver to an object and throw a
    TypeError. *)
Definition Object_prototype (name : string) : option member :=
  if String.eqb name "constructor" then Some (Function (λ args, ret (reads_of args)))
  else if String.eqb name "toString" then Some (Function (λ _, ret (reads_of ∅)))
  else if String.eqb name "__proto__" then Some NotCallable
  else if String.eqb name "toLocaleString"
  then Some (Function (λ _, throw (TypeError_called_on_nullish
                                     "Object.prototype.toLocaleString")))
  else if bool_decide (name ∈ ["hasOwnProperty"; "isPrototypeOf"; "propertyIsEnumerable";
                               "valueOf"; "__defineGetter__";
                               "__defineSetter__"; "__lookupGetter__"; "__lookupSetter__"])
  then Some (Function (λ _, throw TypeError_this_nullish))
  else None.

(** [this.handlers[method]] *)
Definition lookup_handler (method : string) : option member :=
  match handlers !! method with
  | Some f => Some (Function f)
  | None => Object_prototype method
  end.

(** [handler(args)] *)
Definition call (handler : member) (args : obj) : M W Envelope :=
  match handler with
  | Function f => f args
  | NotCallable => throw TypeError_not_a_function
  end.

(** *** The dispatch entry point

    [async run(commandString, params = {}, sourceContext)]; the third
    argument is not used.  A string goes through [parseCommand], whatever
    [params] holds; any other value is itself the method, and as a property
    name and in the template it is its [ToString]. *)
Definition method_and_args (commandString : value) (params : obj) : string * obj :=
  match commandString with
  | VStr s => let 'Build_Command method args := parseCommand s in (method, args)
  | other => (ToString other, params)
  end.

(** The object [run] builds from what the handler returned. *)
Definition normalize (returned : Envelope) : Envelope :=
  {| success := VBool (negb (strict_eq (success returned) (VBool false)));
     errorCode := or_else (errorCode returned) (VInt 0);
     output := or_else (output returned) (VStr "");
     result := or_else (result returned) (VStr "") |}.

Definition run (commandString : value) (params : obj) : M W Envelope :=
  try_catch
    (if negb (bool_decide (is_Some (App.Layers app)))
     then ret (failed 1 (VStr "miniPaint not initialized"))
     else
       let '(method, args) := method_and_args commandString params in
       match lookup_handler method with
       | None => ret (failed 2 (VStr ("Unknown command: " +:+ method)))
       | Some handler =>
           let! returned := call handler args in
           ret (normalize returned)
       end)
    (λ error,
       let! msg := message_of error in
       ret (failed 99 (VStr ("Error: " +:+ ToString msg)))).

(** For the statements: the handlers that start by testing parameters,
    with the parameters tested and the error code answered when one is
    missing. *)
Definition required_parameters : list (string * (list string * Z)) :=
  [("open-image", (["file"], 10));
   ("resize", (["width"; "height"], 20));
   ("rotate", (["angle"], 30));
   ("flip", (["direction"], 40));
   ("crop", (["x1"; "y1"; "x2"; "y2"], 50));
   ("apply-effect", (["name"], 60));
   ("delete-layer", (["id"], 80));
   ("set-opacity", (["layer"; "opacity"], 100));
   ("save-image", (["output"], 110))].

(** For the statements: what the handler did, when [run] got as far as
    calling one. *)
Definition handler_outcome (commandString : value) (params : obj) (w : W)
  : option (outcome Envelope * W) :=
  match App.Layers app with
  | None => None
  | Some _ =>
      let '(method, args) := method_and_args commandString params in
      (λ handler, call handler args w) <$> lookup_handler method
  end.

(** For the statements: the first error code of each command.  The codes
    a handler answers with are this one and the nine after it. *)
Definition error_decades : list (string * Z) :=
  [("open-image", 10); ("resize", 20); ("rotate", 30); ("flip", 40);
   ("crop", 50); ("apply-effect", 60); ("add-layer", 70); ("delete-layer", 80);
   ("merge-layers", 90); ("set-opacity", 100); ("save-image", 110);
   ("get-canvas-size", 120); ("get-image-data", 130); ("get-image-info", 140);
   ("list-effects", 150); ("list-layers", 160); ("new-image", 170);
   ("undo", 180); ("redo", 190)].

(** For the statements: the names [Object.prototype] defines. *)
Definition inherited_names : list string :=
  ["constructor"; "toString"; "__proto__"; "hasOwnProperty"; "isPrototypeOf";
   "propertyIsEnumerable"; "toLocaleString"; "valueOf"; "__defineGetter__";
   "__defineSetter__"; "__lookupGetter__"; "__lookupSetter__"].

End Handlers.
End MiniPaintRexxHandler.

(** ** Sample editors, for the concrete statements

    An editor without internal state on which every operation is available
    and returns at once, one that is not initialised, and one whose [resize]
    throws [null]. *)
Module Sample.

Definition layers : App.LayersApi unit :=
  {| App.addLayer := Some (λ name, ret (Some {| App.id := VInt 1; App.name := name;
                                                App.opacity := VInt 1 |}));
     App.deleteLayer := Some (λ _, ret ());
     App.mergeLayers := Some (ret ());
     App.setOpacity := Some (λ _ _, ret ());
     App.getLayerList := Some (ret [{| App.id := VInt 1; App.name := VStr "Background";
                                       App.opacity := VInt 1 |}]);
     App.getLayerCount := Some (ret (VInt 1));
     App.getCurrentLayer := Some (ret (VInt 1)) |}.

Definition image : App.ImageApi unit :=
  {| App.resize := Some (λ _ _, ret ());
     App.rotate := Some (λ _, ret ());
     App.flip := Some (λ _, ret ());
     App.crop := Some (λ _ _ _ _, ret ());
     App.newImage := Some (λ _ _, ret ()) |}.

Definition state : App.StateApi unit :=
  {| App.getCanvasSize := Some (ret {| App.width := VInt 800; App.height := VInt 600 |});
     App.getImageData := Some (ret (VStr "data:image/png;base64,"));
     App.canvas := λ _, Some {| App.width := VInt 800; App.height := VInt 600 |};
     App.undo := Some (ret ());
     App.redo := Some (ret ()) |}.

Definition editor : App.t unit :=
  {| App.Layers := Some layers;
     App.FileOpen := Some {| App.readImageFile := true |};
     App.Actions := Some {| App.Image := Some image;
                            App.Filters := Some (λ _, Some (λ _, ret ())) |};
     App.FileSave := Some {| App.saveFile := Some (λ _ _, ret ()) |};
     App.State := Some state |}.

Definition not_initialized : App.t unit :=
  {| App.Layers := None; App.FileOpen := None; App.Actions := None;
     App.FileSave := None; App.State := None |}.

Definition failing_image : App.ImageApi unit :=
  {| App.resize := Some (λ _ _, throw ExnNull);
     App.rotate := None; App.flip := None; App.crop := None; App.newImage := None |}.

Definition failing_editor : App.t unit :=
  {| App.Layers := Some layers;
     App.FileOpen := None;
     App.Actions := Some {| App.Image := Some failing_image; App.Filters := None |};
     App.FileSave := None;
     App.State := None |}.

(** [{ width: 800, height: 600 }] *)
Definition size_800x600 : obj := {[ "width" := VInt 800; "height" := VInt 600 ]}.

End Sample.

(** ** Promises

    How a promise stands: not settled yet, fulfilled with a value, or
    rejected with a reason. *)
Inductive promise (A : Type) : Type :=
  | Pending
  | Fulfilled (a : A)
  | Rejected (reason : exn).
Arguments Pending {A}.
Arguments Fulfilled {A} a.
Arguments Rejected {A} reason.

(** ** execute-rexx.js *)
Module ExecuteRexx.

(** The parsed commands the executor tells apart by [command.type]. *)
Inductive command : Type :=
  | SAY (value : value)
  | ADDRESS (command : value) (params : option obj)
  | ASSIGNMENT (variable : string) (value : value)
  | OtherCommand.

(** The scripting engine, RexxJS, is an external library the page loads as
    a bundle ([window.parse] and [window.RexxInterpreter]); the model takes
    it as a parameter.  [parse] turns a script into commands or throws; a
    fresh interpreter has its map of address targets and starts with
    [variables] as given. *)
Record RexxJS : Type :=
  { parse : value → outcome (list command);
    initial_variables : option obj }.

(** What [executeRexxScript] resolves with, as the reads of the object;
    [variables] is [None] where the literal has no such field. *)
Record ScriptResult : Type :=
  { script_success : value;
    script_output : value;
    script_result : value;
    returnCode : value;
    variables : option obj }.

(** The locals of the executor: [output], [result], [returnCode] and
    [interpreter.variables]. *)
Record Locals : Type :=
  { l_output : string; l_result : value; l_returnCode : value;
    l_variables : option obj }.

Definition dquote : string := String JSON.dquote "".

(** The longest prefix without a double quote, and the rest. *)
Fixpoint span_unquoted (s : string) : string * string :=
  match s with
  | String c s' =>
      if Ascii.eqb c JSON.dquote then ("", s)
      else let '(body, rest) := span_unquoted s' in (String c body, rest)
  | EmptyString => ("", "")
  end.

(** The pattern [script=<quote>([^<quote>]+)<quote>] at the start of [s]. *)
Definition match_here (s : string) : option string :=
  let opening := "script=" +:+ dquote in
  if Str.startsWith opening s then
    match span_unquoted (Str.drop (String.length opening) s) with
    | (String _ _ as body, String _ _) => Some body
    | _ => None
    end
  else None.

(** [commandString.match(...)]: the leftmost place where the pattern
    matches, and its capture group. *)
Fixpoint match_script (s : string) : option string :=
  match match_here s with
  | Some body => Some body
  | None =>
      match s with
      | String _ s' => match_script s'
      | EmptyString => None
      end
  end.

(** The script of an [execute-rexx] command: [params.script], or else the
    text captured from the command string. *)
Definition extract_script (commandString : string) (params : obj) : value :=
  let scriptContent := or_else (read params "script") (VStr "") in
  if negb (truthy scriptContent) && Str.includes "script=" commandString
  then VStr (default "" (match_script commandString))
  else scriptContent.

Section Script.
Context {W : Type}.
Variable app : App.t W.

(** [window.RexxInterpreter] and [window.parse], when the bundle is
    loaded. *)
Variable rexx : option RexxJS.

(** [interpreter.say]: the capture of SAY output.  The interpreter's own
    [say], called afterwards, is taken not to throw. *)
Definition say (v : value) (l : Locals) : Locals :=
  {| l_output := l_output l +:+ ToString v +:+ String (ascii_of_N 10) "";
     l_result := l_result l; l_returnCode := l_returnCode l;
     l_variables := l_variables l |}.

(** [addressHandler.send]: [handler.run], then RC and RESULT are stored
    when the interpreter has a variable pool. *)
Definition send (command : value) (params : obj) (l : Locals) : M W (Envelope * Locals) :=
  let! response := MiniPaintRexxHandler.run app command params in
  ret (response,
       {| l_output := l_output l; l_result := l_result l;
          l_returnCode := l_returnCode l;
          l_variables :=
            (λ vars,
               assign "RESULT"
                 (or_else (result response) (or_else (output response) (VStr "")))
                 (assign "RC" (or_else (errorCode response) (VInt 0)) vars))
            <$> l_variables l |}).

(** The loop over the parsed commands. *)
Fixpoint execute (options : obj) (commands : list command) (l : Locals) : M W Locals :=
  match commands with
  | [] => ret l
  | SAY v :: rest => execute options rest (say (or_else v (VStr "")) l)
  | ADDRESS c ps :: rest =>
      let! sent := send c (default ∅ ps) l in
      let '(response, l) := sent in
      if truthy (errorCode response) then
        let l := {| l_output := l_output l; l_result := output response;
                    l_returnCode := errorCode response;
                    l_variables := l_variables l |} in
        if truthy (read options "stopOnError") then ret l
        else execute options rest l
      else
        execute options rest
          {| l_output := l_output l;
             l_result := or_else (result response) (or_else (output response) (VStr ""));
             l_returnCode := l_returnCode l;
             l_variables := l_variables l |}
  | ASSIGNMENT variable v :: rest =>
      execute options rest
        {| l_output := l_output l; l_result := l_result l;
           l_returnCode := l_returnCode l;
           l_variables := Some (assign variable v (default ∅ (l_variables l))) |}
  | OtherCommand :: rest => execute options rest l
  end.

(** The final [resolve({ success: returnCode === 0, output: output.trim(),
    result, returnCode, variables })]. *)
Definition finish (l : Locals) : ScriptResult :=
  {| script_success := VBool (strict_eq (l_returnCode l) (VInt 0));
     script_output := VStr (Str.trim (l_output l));
     script_result := l_result l;
     returnCode := l_returnCode l;
     variables := Some (default ∅ (l_variables l)) |}.

(** [resolve({ success: false, output, returnCode })] *)
Definition resolve_failure (text : string) (code : Z) : ScriptResult :=
  {| script_success := VBool false; script_output := VStr text;
     script_result := VUndef; returnCode := VInt code; variables := None |}.

(** [executeRexxScript(script, options)].  [handler.run] is awaited
    through a [then] without a rejection handler, so a rejection there
    would leave the promise pending; nothing else in the loop throws, so
    what the inner [catch] can receive is what [window.parse] threw.
    Reading the [message] of a [null] or [undefined] there throws into the
    outer [catch]; a throw inside the outer [catch] rejects the executor
    only, and the promise stays pending. *)
Definition executeRexxScript (script : value) (options : obj) (w : W)
  : promise ScriptResult * W :=
  match rexx with
  | None => (Fulfilled (resolve_failure "RexxJS interpreter not loaded" 1), w)
  | Some engine =>
      let start := {| l_output := ""; l_result := VStr ""; l_returnCode := VInt 0;
                      l_variables := initial_variables engine |} in
      match parse engine script with
      | Ret commands =>
          match execute options commands start w with
          | (Ret l, w') => (Fulfilled (finish l), w')
          | (Throw _, w') => (Pending, w')
          end
      | Throw parseError =>
          match read_message parseError with
          | Ret msg =>
              (Fulfilled
                 (finish {| l_output := String (ascii_of_N 10) "Parse error: " +:+ ToString msg;
                            l_result := VStr ""; l_returnCode := VInt 2;
                            l_variables := initial_variables engine |}), w)
          | Throw error =>
              match read_message error with
              | Ret msg =>
                  (Fulfilled (resolve_failure ("Error executing script: " +:+ ToString msg) 99), w)
              | Throw _ => (Pending, w)
              end
          end
      end
  end.

(** The function [setupRexxScriptExecution] installs as
    [window.ADDRESS_MINIPAINT_HANDLER], around the original handler
    ([run]). *)
Definition ADDRESS_MINIPAINT_HANDLER (commandString : string) (params : obj) (w : W)
  : promise Envelope * W :=
  if Str.startsWith "execute-rexx" commandString then
    let scriptContent := extract_script commandString params in
    if negb (truthy scriptContent) then
      (Fulfilled (MiniPaintRexxHandler.failed 200
                    (VStr "script parameter required for execute-rexx")), w)
    else
      match executeRexxScript scriptContent params w with
      | (Fulfilled r, w') =>
          (Fulfilled {| success := script_success r; errorCode := returnCode r;
                        output := script_output r; result := script_result r |}, w')
      | (Pending, w') => (Pending, w')
      | (Rejected error, w') =>
          match read_message error with
          | Ret msg =>
              (Fulfilled (MiniPaintRexxHandler.failed 299
                            (VStr ("Script execution error: " +:+ ToString msg))), w')
          | Throw e => (Rejected e, w')
          end
      end
  else
    match MiniPaintRexxHandler.run app (VStr commandString) params w with
    | (Ret envelope, w') => (Fulfilled envelope, w')
    | (Throw error, w') => (Rejected error, w')
    end.

End Script.


Definition saying_engine : RexxJS :=
  {| parse := λ script, Ret [SAY script];
     initial_variables := None |}.


End ExecuteRexx.

(** ** minipaint-controlbus.js *)
Module ControlBus.

(** What a promise returned by [sendRPC] is fulfilled with, the [result]
    field of the response: a primitive value ([undefined] when the response
    has no such field), or an object, which stands here as the four reads
    the address handler makes on it. *)
Inductive payload : Type :=
  | Primitive (v : value)
  | Reply (e : Envelope).

(** [event.data], by its [type].  The [id] of a well-formed message is an
    integer; [None] stands for any other value there, which equals no key
    of the pending table. *)
Inductive message : Type :=
  | RpcRequest (id : option Z) (method : value) (params : obj)
  | RpcResponse (id : option Z) (success : value) (result : payload) (error : value)
  | OtherMessage.

(** *** MiniPaintWorkerBridge *)
Section Worker.
Context {W : Type}.
Variable app : App.t W.

(** [executeCommand(method, params)] *)
Definition executeCommand (method : value) (params : obj) : M W Envelope :=
  MiniPaintRexxHandler.run app method params.

(** [event.source.postMessage(message, event.origin)] for the event at
    hand: the port takes the message or throws (a source that is gone, an
    origin that is no valid target, a message that cannot be cloned). *)
Variable postMessage : message → outcome unit.

(** A call of it: the message that went through. *)
Definition post (msg : message) : M W (option message) :=
  λ w, match postMessage msg with
       | Ret _ => (Ret (Some msg), w)
       | Throw e => (Throw e, w)
       end.

(** The listener of [setupMessageHandling]: the message that went back to
    [event.source], if any.  The [try] holds the run of the command and the
    post of its response; the post inside the [catch] is not guarded, so a
    failure there rejects the listener. *)
Definition worker_on_message (data : message) : M W (option message) :=
  match data with
  | RpcRequest id method params =>
      try_catch
        (let! result := executeCommand method params in
         post (RpcResponse id (success result) (Reply result) VUndef))
        (λ error,
           let! msg := message_of error in
           post (RpcResponse id (VBool false) (Primitive VUndef) msg))
  | _ => ret None
  end.
End Worker.

(** A port that takes every message. *)
Definition open_port : message → outcome unit := λ _, Ret ().

(** *** MiniPaintDirectorBridge *)

(** An entry of [pendingRequests]: its two closures clear the timer
    [timeoutId] and settle the promise of the call. *)
Record PendingRequest : Type := { timeoutId : Z; promiseId : nat }.

(** A timer armed by [setTimeout]: when it is due, and what its callback
    closes over. *)
Record Timer : Type :=
  { deadline : Z; timer_id : Z; timer_method : value; timer_promise : nat }.

(** The bridge object ([requestId], [pendingRequests], [timeout]) together
    with what it touches in its frame: the clock and the timers of the
    event loop, the promises handed out, the messages posted to the worker
    frame.  [resolutions] is a history of the calls to [resolve] and
    [reject], kept for the statements only. *)
Record Director : Type :=
  { requestId : Z;
    pendingRequests : gmap Z PendingRequest;
    timeout : Z;
    now : Z;
    timers : gmap Z Timer;
    nextTimeoutId : Z;
    promises : list (promise payload);
    posted : list message;
    resolutions : list (Z * promise payload) }.

(** The constructor, in a frame whose clock shows [clock]. *)
Definition init (clock : Z) : Director :=
  {| requestId := 0; pendingRequests := ∅; timeout := 30000;
     now := clock; timers := ∅; nextTimeoutId := 1;
     promises := []; posted := []; resolutions := [] |}.

(** [++n] on a float64 holding an integer: exact below [2^53], where the
    sum rounds back to [2^53]. *)
Definition increment (n : Z) : Z := if n <? 2 ^ 53 then n + 1 else n.

(** The [resolve] and [reject] of a promise act on a pending promise only. *)
Definition settle (p : nat) (s : promise payload) (ps : list (promise payload))
  : list (promise payload) :=
  match ps !! p with
  | Some Pending => <[p := s]> ps
  | _ => ps
  end.

(** [RPC request ${id} (${method}) timed out after ${this.timeout}ms] *)
Definition timeout_message (id : Z) (method : value) (ms : Z) : string :=
  "RPC request " +:+ ToString (VInt id) +:+ " (" +:+ ToString method
  +:+ ") timed out after " +:+ ToString (VInt ms) +:+ "ms".

(** The delay [setTimeout] arms a timer with: the host reads its argument
    as a signed 32-bit integer and counts a negative one as zero. *)
Definition delay (ms : Z) : Z := Z.max 0 ((ms + 2 ^ 31) mod 2 ^ 32 - 2 ^ 31).

(** [sendRPC(method, params)]: the new state and the promise returned. *)
Definition sendRPC (method : value) (params : obj) (d : Director) : Director * nat :=
  let id := increment (requestId d) in
  let promise := length (promises d) in
  let tid := nextTimeoutId d in
  ({| requestId := id;
      pendingRequests := <[id := {| timeoutId := tid; promiseId := promise |}]> (pendingRequests d);
      timeout := timeout d;
      now := now d;
      timers := <[tid := {| deadline := now d + delay (timeout d); timer_id := id;
                            timer_method := method; timer_promise := promise |}]> (timers d);
      nextTimeoutId := tid + 1;
      promises := promises d ++ [Pending];
      posted := posted d ++ [RpcRequest (Some id) method params];
      resolutions := resolutions d |}, promise).

(** The callback of the timer [tid] runs, which the event loop allows once
    the timer is due: [this.pendingRequests.delete(id)], then [reject]. *)
Definition fire (tid : Z) (d : Director) : Director :=
  match timers d !! tid with
  | Some t =>
      if deadline t <=? now d then
        let reason := Rejected (Error (timeout_message (timer_id t) (timer_method t) (timeout d))) in
        {| requestId := requestId d;
           pendingRequests := delete (timer_id t) (pendingRequests d);
           timeout := timeout d;
           now := now d;
           timers := delete tid (timers d);
           nextTimeoutId := nextTimeoutId d;
           promises := settle (timer_promise t) reason (promises d);
           posted := posted d;
           resolutions := resolutions d ++ [(timer_id t, reason)] |}
      else d
  | None => d
  end.

(** The listener of [setupMessageHandling]. *)
Definition on_message (data : message) (d : Director) : Director :=
  match data with
  | RpcResponse (Some id) ok result error =>
      match pendingRequests d !! id with
      | Some pending =>
          let outcome :=
            if truthy ok then Fulfilled result
            else Rejected (Error (ToString (or_else error (VStr "Unknown error")))) in
          {| requestId := requestId d;
             pendingRequests := delete id (pendingRequests d);
             timeout := timeout d;
             now := now d;
             timers := delete (timeoutId pending) (timers d);
             nextTimeoutId := nextTimeoutId d;
             promises := settle (promiseId pending) outcome (promises d);
             posted := posted d;
             resolutions := resolutions d ++ [(id, outcome)] |}
      | None => d
      end
  | _ => d
  end.

(** Time passes. *)
Definition elapse (ms : Z) (d : Director) : Director :=
  {| requestId := requestId d; pendingRequests := pendingRequests d;
     timeout := timeout d; now := now d + Z.max 0 ms; timers := timers d;
     nextTimeoutId := nextTimeoutId d; promises := promises d;
     posted := posted d; resolutions := resolutions d |}.

(** [bridge.timeout = ms] *)
Definition configure (ms : Z) (d : Director) : Director :=
  {| requestId := requestId d; pendingRequests := pendingRequests d;
     timeout := ms; now := now d; timers := timers d;
     nextTimeoutId := nextTimeoutId d; promises := promises d;
     posted := posted d; resolutions := resolutions d |}.

(** What can happen in the director frame, one turn of the event loop
    each. *)
Inductive event : Type :=
  | Send (method : value) (params : obj)
  | Message (data : message)
  | Fire (tid : Z)
  | Elapse (ms : Z)
  | Configure (ms : Z).

Definition step (d : Director) (e : event) : Director :=
  match e with
  | Send method params => (sendRPC method params d).1
  | Message data => on_message data d
  | Fire tid => fire tid d
  | Elapse ms => elapse ms d
  | Configure ms => configure ms d
  end.

Definition steps (d : Director) (es : list event) : Director := foldl step d es.

(** For the statements: the events that settle the request [id] whose
    timer is [tid], that is a response bearing [id] and the run of the
    timer's callback. *)
Definition settles (id tid : Z) (e : event) : bool :=
  match e with
  | Message (RpcResponse (Some i) _ _ _) => i =? id
  | Fire t => t =? tid
  | _ => false
  end.

(** For the statements: what holds of the director after any sequence of
    events.  The pending table and the armed timers mirror each other,
    every pending request has a promise of its own that is still pending,
    and [resolve] or [reject] was called for no pending request and at most
    once for any other. *)
Record consistent (d : Director) : Prop :=
  { ids_from_one : 0 ≤ requestId d;
    pending_sound :
      ∀ id e, pendingRequests d !! id = Some e →
        1 ≤ id ≤ requestId d
        ∧ (∃ t, timers d !! timeoutId e = Some t
                ∧ timer_id t = id ∧ timer_promise t = promiseId e)
        ∧ promises d !! promiseId e = Some Pending
        ∧ id ∉ (resolutions d).*1;
    timers_sound :
      ∀ tid t, timers d !! tid = Some t →
        tid < nextTimeoutId d
        ∧ ∃ e, pendingRequests d !! timer_id t = Some e ∧ timeoutId e = tid;
    promises_apart :
      ∀ id id' e e',
        pendingRequests d !! id = Some e → pendingRequests d !! id' = Some e' →
        promiseId e = promiseId e' → id = id';
    resolved_once : NoDup (resolutions d).*1;
    resolved_known : ∀ id, id ∈ (resolutions d).*1 → 1 ≤ id ≤ requestId d }.

(** *** createAddressHandler *)

(** The first half: the method and parameters handed to [sendRPC].  The
    loop over the parts is that of [parseCommand]. *)
Definition address_request (commandString : value) (params : obj) : value * obj :=
  match commandString with
  | VStr s =>
      if Str.contains_char " " s then
        let parts := Str.split_ws (Str.trim s) in
        (VStr (default "" (head parts)), foldl parse_part ∅ (tail parts))
      else (commandString, params)
  | _ => (commandString, params)
  end.

Definition TypeError_success_of_undefined : exn :=
  Error "Cannot read properties of undefined (reading 'success')".
Definition TypeError_success_of_null : exn :=
  Error "Cannot read properties of null (reading 'success')".

(** [{ success: false, errorCode: 99, output: `RPC Error: ${error.message}` }] *)
Definition rpc_error (error : exn) : promise Envelope :=
  match read_message error with
  | Ret msg => Fulfilled (MiniPaintRexxHandler.failed 99 (VStr ("RPC Error: " +:+ ToString msg)))
  | Throw e => Rejected e
  end.

(** The second half: what the handler returns once the promise of
    [sendRPC] stands as [p].  The four reads throw on [undefined] and on
    [null], and give [undefined] on any other primitive. *)
Definition address_reply (p : promise payload) : promise Envelope :=
  match p with
  | Pending => Pending
  | Fulfilled (Reply received) =>
      Fulfilled {| success := success received;
                   errorCode := or_else (errorCode received) (VInt 0);
                   output := or_else (output received) (VStr "");
                   result := or_else (result received) (VStr "") |}
  | Fulfilled (Primitive VUndef) => rpc_error TypeError_success_of_undefined
  | Fulfilled (Primitive VNull) => rpc_error TypeError_success_of_null
  | Fulfilled (Primitive _) =>
      Fulfilled {| success := VUndef;
                   errorCode := or_else VUndef (VInt 0);
                   output := or_else VUndef (VStr "");
                   result := or_else VUndef (VStr "") |}
  | Rejected error => rpc_error error
  end.

(** *** Convenience methods

    Each one is a call of [sendRPC] with the parameter object built from
    its arguments. *)
Definition openImage (file : value) : Director → Director * nat :=
  sendRPC (VStr "open-image") {[ "file" := file ]}.

Definition resize (width height : value) : Director → Director * nat :=
  sendRPC (VStr "resize") {[ "width" := width; "height" := height ]}.

Definition rotate (angle : value) : Director → Director * nat :=
  sendRPC (VStr "rotate") {[ "angle" := angle ]}.

Definition flip (direction : value) : Director → Director * nat :=
  sendRPC (VStr "flip") {[ "direction" := direction ]}.

Definition crop (x1 y1 x2 y2 : value) : Director → Director * nat :=
  sendRPC (VStr "crop") {[ "x1" := x1; "y1" := y1; "x2" := x2; "y2" := y2 ]}.

(** [{ name, ...params }]: a [name] among [params] replaces the argument. *)
Definition applyEffect (name : value) (params : obj) : Director → Director * nat :=
  sendRPC (VStr "apply-effect") (params ∪ {[ "name" := name ]}).

End ControlBus.

(** ** Predicates for the statements about the handlers *)
Section HandlerPredicates.
Context {W : Type}.

(** What a handler hands to [run]: success with no error code, or
    [success: false] with an error code that is not zero. *)
Definition well_formed_return (r : Envelope) : Prop :=
  (success r ≠ VBool false ∧ truthy (errorCode r) = false)
  ∨ (success r = VBool false ∧ truthy (errorCode r) = true).

(** A handler returns such an object, or rejects with an [Error]. *)
Definition behaves (f : obj → M W Envelope) : Prop :=
  ∀ args w,
    match f args w with
    | (Ret r, _) => well_formed_return r
    | (Throw e, _) => ∃ text, e = Error text
    end.

(** The body of a handler's [try]: what it returns is well formed. *)
Definition returns_well (body : M W Envelope) : Prop :=
  ∀ w, match body w with
       | (Ret r, _) => well_formed_return r
       | (Throw _, _) => True
       end.

End HandlerPredicates.

(** ** Predicates for the statements about tokens and error codes *)

(** A token: not empty, and without white space. *)
Definition is_token (t : string) : Prop := t ≠ "" ∧ Str.has_space t = false.

(** What a handler whose codes start at [base] returns: success without a
    code, or a failure with one of its ten codes. *)
Definition within_decade (base : Z) (r : Envelope) : Prop :=
  (success r = VBool true ∧ errorCode r = VUndef)
  ∨ ∃ code, base ≤ code ≤ base + 9
            ∧ success r = VBool false ∧ errorCode r = VInt code
            ∧ truthy (VInt code) = true.

(** The body of such a handler's [try]: what it returns lies within the
    decade. *)
Definition returns_within {W} (base : Z) (body : M W Envelope) : Prop :=
  ∀ w, match body w with
       | (Ret r, _) => within_decade base r
       | (Throw _, _) => True
       end.

(** * Theorems *)

(** ** Strings *)
Section StringFacts.

Lemma append_nil_l (s : string) : "" +:+ s = s.
Proof. reflexivity. Qed.

Lemma append_cons (c : ascii) (s t : string) : String c s +:+ t = String c (s +:+ t).
Proof. reflexivity. Qed.

Lemma append_nil_r (s : string) : s +:+ "" = s.
Proof. induction s as [|c s IH]; [done|]. rewrite append_cons. congruence. Qed.

Lemma append_assoc (a b c : string) : (a +:+ b) +:+ c = a +:+ (b +:+ c).
Proof. induction a as [|x a IH]; [done|]. rewrite !append_cons. congruence. Qed.

Lemma snoc_append (cur : string) (c : ascii) (s : string) :
  Str.snoc cur c +:+ s = cur +:+ String c s.
Proof. unfold Str.snoc. rewrite append_assoc. by rewrite append_cons, append_nil_l. Qed.

Lemma existsb_append (p : ascii → bool) (a b : string) :
  Str.existsb p (a +:+ b) = Str.existsb p a || Str.existsb p b.
Proof.
  induction a as [|c a IH]; [reflexivity|].
  rewrite append_cons. simpl. rewrite IH. by rewrite orb_assoc.
Qed.

(** A text without the separator is a single piece. *)
Lemma split_char_go_plain (sep : ascii) (s cur : string) :
  Str.contains_char sep s = false →
  Str.split_char_go sep cur s = [cur +:+ s].
Proof.
  revert cur. induction s as [|c s IH]; intros cur H; simpl.
  - by rewrite append_nil_r.
  - simpl in H. apply orb_false_iff in H as [Hc Hs].
    rewrite Hc. rewrite (IH _ Hs). by rewrite snoc_append.
Qed.

(** The first separator ends the first piece. *)
Lemma split_char_go_first (sep : ascii) (a b cur : string) :
  Str.contains_char sep a = false →
  Str.split_char_go sep cur (a +:+ String sep b)
  = (cur +:+ a) :: Str.split_char_go sep "" b.
Proof.
  revert cur. induction a as [|c a IH]; intros cur H.
  - rewrite append_nil_l. simpl. rewrite Ascii.eqb_refl. by rewrite append_nil_r.
  - rewrite append_cons. simpl in *. apply orb_false_iff in H as [Hc Ha].
    rewrite Hc. rewrite (IH _ Ha). by rewrite snoc_append.
Qed.

Lemma trimStart_plain (s : string) :
  Str.has_space s = false → Str.trimStart s = s.
Proof. destruct s as [|c s]; simpl; [done|]. intros [-> _]%orb_false_iff. done. Qed.

Lemma trimEnd_plain (s : string) :
  Str.has_space s = false → Str.trimEnd s = s.
Proof.
  induction s as [|c s IH]; simpl; [done|].
  intros [-> Hs]%orb_false_iff. simpl. by rewrite IH.
Qed.

(** White space followed by a piece without any stays in front of it. *)
Lemma trimEnd_keep (a b : string) :
  Str.has_space b = false → b ≠ "" → Str.trimEnd (a +:+ b) = a +:+ b.
Proof.
  intros Hb Hne. induction a as [|c a IH].
  - by apply trimEnd_plain.
  - rewrite append_cons. simpl. rewrite IH. destruct (a +:+ b) as [|x r] eqn:E.
    + destruct a, b; by inversion E.
    + simpl. by rewrite andb_false_r.
Qed.

Lemma split_ws_go_plain (s cur : string) (in_run : bool) :
  Str.has_space s = false → s ≠ "" →
  Str.split_ws_go cur in_run s = [cur +:+ s].
Proof.
  revert cur in_run. induction s as [|c s IH]; intros cur in_run H Hne; [done|].
  simpl in *. apply orb_false_iff in H as [Hc Hs]. rewrite Hc.
  destruct s as [|c' s'].
  - simpl. unfold Str.snoc. done.
  - rewrite (IH _ _ Hs) by done. by rewrite snoc_append.
Qed.

Lemma split_ws_go_word (a rest cur : string) (in_run : bool) :
  Str.has_space a = false → a ≠ "" →
  Str.split_ws_go cur in_run (a +:+ rest) = Str.split_ws_go (cur +:+ a) false rest.
Proof.
  revert cur in_run. induction a as [|c a IH]; intros cur in_run H Hne; [done|].
  rewrite append_cons. simpl in *. apply orb_false_iff in H as [Hc Ha]. rewrite Hc.
  destruct a as [|c' a'].
  - rewrite append_nil_l. done.
  - rewrite (IH _ _ Ha) by done. by rewrite snoc_append.
Qed.

(** A command made of a method and one more token. *)
Lemma split_two_words (m tok : string) :
  Str.has_space m = false → m ≠ "" →
  Str.has_space tok = false → tok ≠ "" →
  Str.split_ws (Str.trim (m +:+ " " +:+ tok)) = [m; tok].
Proof.
  intros Hm Hm' Ht Ht'. unfold Str.trim.
  assert (Str.trimStart (m +:+ " " +:+ tok) = m +:+ " " +:+ tok) as ->.
  { destruct m as [|c m]; [done|]. rewrite append_cons. simpl in *.
    apply orb_false_iff in Hm as [-> _]. done. }
  rewrite <- append_assoc. rewrite trimEnd_keep by done.
  rewrite append_assoc. unfold Str.split_ws.
  rewrite split_ws_go_word by done. rewrite append_cons, !append_nil_l. simpl.
  by rewrite split_ws_go_plain.
Qed.

End StringFacts.

(** ** The command parser *)
Section ParserFacts.

(** A part without [=] changes nothing. *)
Lemma parse_part_bare (acc : obj) (part : string) :
  Str.contains_char "=" part = false → parse_part acc part = acc.
Proof.
  intros H. unfold parse_part, Str.split_char.
  by rewrite split_char_go_plain.
Qed.

(** A part [key=raw], possibly followed by [=] and more text. *)
Lemma parse_part_first_two (acc : obj) (key raw : string) (more : option string) :
  Str.contains_char "=" key = false →
  Str.contains_char "=" raw = false →
  key ≠ "" →
  parse_part acc (key +:+ "=" +:+
                  match more with Some rest => raw +:+ "=" +:+ rest | None => raw end)
  = assign key (coerce raw) acc.
Proof.
  intros Hk Hr Hne. unfold parse_part, Str.split_char.
  assert (truthy (VStr key) = true) as Ht.
  { simpl. apply negb_true_iff. by apply String.eqb_neq. }
  destruct more as [rest|]; rewrite !append_cons, !append_nil_l.
  - rewrite split_char_go_first by done. rewrite append_nil_l.
    rewrite split_char_go_first by done. rewrite append_nil_l.
    by rewrite Ht.
  - rewrite split_char_go_first by done. rewrite append_nil_l.
    rewrite split_char_go_plain by done. rewrite append_nil_l.
    by rewrite Ht.
Qed.

(** The first two pieces of a part with two [=] or more. *)
Lemma split_char_first_two (key raw rest : string) :
  Str.contains_char "=" key = false →
  Str.contains_char "=" raw = false →
  Str.split_char "=" (key +:+ "=" +:+ raw +:+ "=" +:+ rest)
  = key :: raw :: Str.split_char "=" rest.
Proof.
  intros Hk Hr. unfold Str.split_char. rewrite !append_cons, !append_nil_l.
  rewrite split_char_go_first by done. rewrite append_nil_l.
  rewrite split_char_go_first by done. by rewrite append_nil_l.
Qed.

(** A text that [isNaN] accepts is neither [true] nor [false]. *)
Lemma coerce_numeric (raw : string) :
  raw ≠ "" → isNaN (VStr raw) = false →
  coerce raw = VNum (Literal.StringToNumber raw).
Proof.
  intros Hne Hnum. unfold coerce.
  destruct (String.eqb_spec raw "true") as [->|_]; [by vm_compute in Hnum|].
  destruct (String.eqb_spec raw "false") as [->|_]; [by vm_compute in Hnum|].
  rewrite Hnum. apply String.eqb_neq in Hne. by rewrite Hne.
Qed.

(** [parseCommand] on a method followed by one token. *)
Lemma parseCommand_two_words (m tok : string) :
  Str.has_space m = false → m ≠ "" →
  Str.has_space tok = false → tok ≠ "" →
  parseCommand (m +:+ " " +:+ tok)
  = {| method := m; params := parse_part ∅ tok |}.
Proof.
  intros. unfold parseCommand. by rewrite split_two_words.
Qed.

End ParserFacts.

(** ** Blank text and tokens *)
Section TokenFacts.

Lemma trimStart_cases (s : string) :
  Str.trimStart s = ""
  ∨ ∃ c r, Str.trimStart s = String c r ∧ Str.is_space c = false.
Proof.
  induction s as [|c s IH]; simpl; [by left|].
  destruct (Str.is_space c) eqn:E; [done|]. right. eauto.
Qed.

Lemma trimEnd_head (c : ascii) (r : string) :
  Str.is_space c = false → Str.trimEnd (String c r) = String c (Str.trimEnd r).
Proof. intros H. simpl. by rewrite H. Qed.

(** A text that trims to nothing is white space throughout. *)
Lemma trim_nil (s : string) : Str.trim s = "" → Str.trimStart s = "".
Proof.
  unfold Str.trim. destruct (trimStart_cases s) as [->|(c & r & -> & Hc)]; [done|].
  by rewrite trimEnd_head.
Qed.

Lemma trimStart_blank_inv (c : ascii) (p : string) :
  Str.trimStart (String c p) = "" → Str.is_space c = true ∧ Str.trimStart p = "".
Proof. simpl. by destruct (Str.is_space c). Qed.

Lemma trimStart_app_blank (p s : string) :
  Str.trimStart p = "" → Str.trimStart (p +:+ s) = Str.trimStart s.
Proof.
  induction p as [|c p IH]; [done|].
  intros [Hc Hp]%trimStart_blank_inv. rewrite append_cons. simpl. rewrite Hc. by apply IH.
Qed.

Lemma trimStart_app_nonblank (s t : string) :
  Str.trimStart s ≠ "" → Str.trimStart (s +:+ t) = Str.trimStart s +:+ t.
Proof.
  induction s as [|c s IH]; [done|].
  rewrite append_cons. simpl. destruct (Str.is_space c); [exact IH|].
  intros _. by rewrite append_cons.
Qed.

Lemma trimEnd_blank (p : string) : Str.trimStart p = "" → Str.trimEnd p = "".
Proof.
  induction p as [|c p IH]; [done|].
  intros [Hc Hp]%trimStart_blank_inv. simpl. by rewrite Hc, (IH Hp).
Qed.

Lemma trimEnd_nil (r : string) : Str.trimEnd r = "" → Str.trimStart r = "".
Proof.
  induction r as [|c r IH]; [done|]. simpl.
  destruct (Str.is_space c); [|done].
  destruct (Str.trimEnd r) eqn:E; [auto|done].
Qed.

Lemma trimEnd_app_blank (s p : string) :
  Str.trimEnd p = "" → Str.trimEnd (s +:+ p) = Str.trimEnd s.
Proof.
  intros Hp. induction s as [|c s IH]; [done|].
  rewrite append_cons. simpl. by rewrite IH.
Qed.

(** White space around a text does not change what it trims to. *)
Lemma trim_pad (pre s post : string) :
  Str.trim pre = "" → Str.trim post = "" →
  Str.trim (pre +:+ s +:+ post) = Str.trim s.
Proof.
  intros Hpre%trim_nil Hpost%trim_nil. unfold Str.trim.
  rewrite trimStart_app_blank by done.
  destruct (trimStart_cases s) as [Hs|(c & r & Hs & Hc)].
  - rewrite trimStart_app_blank by done. by rewrite Hs, Hpost.
  - rewrite trimStart_app_nonblank by (by rewrite Hs).
    apply trimEnd_app_blank. by apply trimEnd_blank.
Qed.

Lemma trimEnd_fixed_inv (c : ascii) (r : string) :
  Str.trimEnd (String c r) = String c r →
  Str.trimEnd r = r ∧ (r = "" → Str.is_space c = false).
Proof.
  simpl. destruct (Str.is_space c) eqn:Hc; simpl.
  - destruct (String.eqb_spec (Str.trimEnd r) "") as [E|E]; [done|].
    intros [= Hr]. split; [done|]. intros ->. done.
  - intros [= Hr]. done.
Qed.

Lemma trimEnd_idem (s : string) : Str.trimEnd (Str.trimEnd s) = Str.trimEnd s.
Proof.
  induction s as [|c s IH]; [done|]. simpl.
  destruct (Str.is_space c && String.eqb (Str.trimEnd s) "") eqn:E; [done|].
  simpl. by rewrite IH, E.
Qed.

Lemma trim_head (s : string) :
  Str.trim s = "" ∨ ∃ c r, Str.trim s = String c r ∧ Str.is_space c = false.
Proof.
  unfold Str.trim. destruct (trimStart_cases s) as [->|(c & r & -> & Hc)]; [by left|].
  right. rewrite trimEnd_head by done. eauto.
Qed.

Lemma split_ws_go_nonempty (s cur : string) (in_run : bool) :
  Str.split_ws_go cur in_run s ≠ [].
Proof.
  revert cur in_run. induction s as [|c s IH]; intros cur in_run; simpl; [done|].
  destruct (Str.is_space c); [destruct in_run|]; auto.
Qed.

Lemma has_space_snoc (cur : string) (c : ascii) :
  Str.has_space cur = false → Str.is_space c = false →
  Str.has_space (Str.snoc cur c) = false.
Proof.
  intros Hcur Hc. unfold Str.has_space, Str.snoc in *. rewrite existsb_append.
  simpl. by rewrite Hcur, Hc.
Qed.

Lemma snoc_not_nil (cur : string) (c : ascii) : Str.snoc cur c ≠ "".
Proof. unfold Str.snoc. destruct cur; [done|]. by rewrite append_cons. Qed.

(** The pieces of a text that starts and ends without white space. *)
Lemma split_ws_go_tokens (s cur : string) (in_run : bool) :
  Str.has_space cur = false →
  Str.trimEnd s = s →
  (if in_run then cur = "" ∧ s ≠ ""
   else cur ≠ "" ∨ ∃ c r, s = String c r ∧ Str.is_space c = false) →
  Forall is_token (Str.split_ws_go cur in_run s).
Proof.
  revert cur in_run. induction s as [|c s IH]; intros cur in_run Hcur Hfix Hstate.
  - simpl. destruct in_run; [by destruct Hstate|].
    destruct Hstate as [Hne|(? & ? & ? & _)]; [|done].
    by repeat constructor.
  - apply trimEnd_fixed_inv in Hfix as [Hfix Hlast]. simpl.
    destruct (Str.is_space c) eqn:Hc.
    + assert (s ≠ "") as Hs by (intros ->; by specialize (Hlast eq_refl)).
      destruct in_run.
      * destruct Hstate as [-> _]. by apply IH.
      * destruct Hstate as [Hne|(? & ? & [= <- <-] & Hc')]; [|congruence].
        constructor; [done|]. by apply IH.
    + apply IH; [by apply has_space_snoc|done|].
      left. apply snoc_not_nil.
Qed.

(** The tokens of a command: [commandString.trim().split(/\s+/)]. *)
Lemma command_tokens (s : string) :
  (Str.trim s = "" ∧ Str.split_ws (Str.trim s) = [""])
  ∨ (Str.trim s ≠ "" ∧ Forall is_token (Str.split_ws (Str.trim s))).
Proof.
  destruct (trim_head s) as [E|(c & r & E & Hc)].
  - left. by rewrite E.
  - right. split; [by rewrite E|].
    apply split_ws_go_tokens; [done| |].
    + unfold Str.trim. apply trimEnd_idem.
    + right. eauto.
Qed.

Lemma split_ws_go_skip (r tok : string) (sp : ascii) :
  Str.is_space sp = true →
  Str.trimStart r = "" → Str.has_space tok = false → tok ≠ "" →
  Str.split_ws_go "" true (r +:+ String sp tok) = [tok].
Proof.
  intros Hsp Hr Ht Hne. induction r as [|c r IH].
  - rewrite append_nil_l. simpl. rewrite Hsp.
    by rewrite split_ws_go_plain.
  - apply trimStart_blank_inv in Hr as [Hc Hr]. rewrite append_cons. simpl.
    rewrite Hc. by apply IH.
Qed.

(** One more token after a text, whatever white space the text ends in. *)
Lemma split_ws_go_append (a tok cur : string) (in_run : bool) (sp : ascii) :
  Str.is_space sp = true →
  in_run = false ∨ Str.trimEnd a ≠ "" →
  Str.has_space tok = false → tok ≠ "" →
  Str.split_ws_go cur in_run (a +:+ String sp tok)
  = (Str.split_ws_go cur in_run (Str.trimEnd a) ++ [tok])%list.
Proof.
  intros Hsp Hstate Ht Hne. revert cur in_run Hstate.
  induction a as [|c a IH]; intros cur in_run Hstate.
  - destruct Hstate as [->|]; [|done].
    rewrite append_nil_l. simpl. rewrite Hsp.
    by rewrite split_ws_go_plain.
  - rewrite append_cons.
    change (Str.split_ws_go cur in_run (String c (a +:+ String sp tok)))
      with (if Str.is_space c then
              if in_run then Str.split_ws_go cur true (a +:+ String sp tok)
              else cur :: Str.split_ws_go "" true (a +:+ String sp tok)
            else Str.split_ws_go (Str.snoc cur c) false (a +:+ String sp tok)).
    change (Str.trimEnd (String c a))
      with (if Str.is_space c && String.eqb (Str.trimEnd a) "" then ""
            else String c (Str.trimEnd a)) in *.
    destruct (Str.is_space c) eqn:Hc; cbn [andb] in *.
    + destruct (String.eqb_spec (Str.trimEnd a) "") as [E|E].
      * destruct Hstate as [->|]; [|done].
        rewrite split_ws_go_skip by (done || by apply trimEnd_nil). done.
      * simpl. rewrite Hc. destruct in_run; rewrite IH by (by right); done.
    + simpl. rewrite Hc. by rewrite IH by (by left).
Qed.

Lemma trimEnd_keep_sep (a tok : string) (sp : ascii) :
  Str.has_space tok = false → tok ≠ "" →
  Str.trimEnd (a +:+ String sp tok) = a +:+ String sp tok.
Proof.
  intros Ht Hne.
  replace (a +:+ String sp tok) with ((a +:+ String sp "") +:+ tok)
    by (by rewrite append_assoc, append_cons, append_nil_l).
  by apply trimEnd_keep.
Qed.

Lemma split_ws_snoc (s tok : string) (sp : ascii) :
  Str.is_space sp = true →
  Str.trim s ≠ "" → Str.has_space tok = false → tok ≠ "" →
  Str.split_ws (Str.trim (s +:+ String sp tok))
  = (Str.split_ws (Str.trim s) ++ [tok])%list.
Proof.
  intros Hsp Hs Ht Hne. unfold Str.trim in *.
  assert (Str.trimStart s ≠ "") as Hstart by (by intros E; rewrite E in Hs).
  rewrite trimStart_app_nonblank by done.
  rewrite trimEnd_keep_sep by done.
  unfold Str.split_ws. apply split_ws_go_append; auto.
Qed.

(** A token appended to a command extends its parse by one turn of the
    loop. *)
Lemma parseCommand_snoc (s tok : string) (sp : ascii) :
  Str.is_space sp = true →
  Str.trim s ≠ "" → Str.has_space tok = false → tok ≠ "" →
  parseCommand (s +:+ String sp tok)
  = {| method := method (parseCommand s);
       params := parse_part (params (parseCommand s)) tok |}.
Proof.
  intros Hsp Hs Ht Hne. unfold parseCommand. rewrite split_ws_snoc by done. simpl.
  pose proof (split_ws_go_nonempty (Str.trim s) "" false) as Hl.
  unfold Str.split_ws. destruct (Str.split_ws_go "" false (Str.trim s)) as [|m l]; [done|].
  simpl. by rewrite foldl_app.
Qed.

(** The first piece of a split holds no separator and starts the text. *)
Lemma split_char_go_head (sep : ascii) (s cur : string) :
  ∃ a b rest,
    Str.split_char_go sep cur s = (cur +:+ a) :: rest
    ∧ Str.contains_char sep a = false
    ∧ s = a +:+ b.
Proof.
  revert cur. induction s as [|c s IH]; intros cur; simpl.
  - exists "", "", []. by rewrite append_nil_r.
  - destruct (Ascii.eqb c sep) eqn:E.
    + exists "", (String c s). eexists. by rewrite append_nil_r.
    + destruct (IH (Str.snoc cur c)) as (a & b & rest & Hsplit & Ha & ->).
      exists (String c a), b, rest. rewrite Hsplit, snoc_append.
      split; [done|]. split; [|by rewrite append_cons].
      unfold Str.contains_char in *. cbn [Str.existsb]. by rewrite E, Ha.
Qed.

(** What [coerce] gives: a boolean, a number that is not NaN, or a
    string. *)
Lemma coerce_shape (raw : string) :
  match coerce raw with
  | VBool _ | VStr _ => True
  | VNum x => Num.is_nan x = false
  | _ => False
  end.
Proof.
  unfold coerce.
  destruct (String.eqb raw "true"); [done|].
  destruct (String.eqb raw "false"); [done|].
  destruct (isNaN (VStr raw)) eqn:E; [done|].
  destruct (String.eqb raw ""); [done|]. exact E.
Qed.

(** What one turn of the loop can add to the parameters. *)
Lemma parse_part_lookup (acc : obj) (tok key : string) (v : value) :
  Str.has_space tok = false →
  parse_part acc tok !! key = Some v →
  acc !! key = Some v
  ∨ (is_token key ∧ Str.contains_char "=" key = false ∧ key ≠ "__proto__"
     ∧ ∃ raw, v = coerce raw).
Proof.
  intros Htok. unfold parse_part, Str.split_char.
  destruct (split_char_go_head "=" tok "") as (a & b & rest & Hsplit & Ha & Hab).
  rewrite Hsplit, append_nil_l. destruct rest as [|raw rest]; [by left|].
  destruct (truthy (VStr a)) eqn:Hne; [|by left].
  unfold assign. destruct (String.eqb_spec a "__proto__") as [E|E]; [by left|].
  intros [[<- <-]|[_ H]]%lookup_insert_Some; [|by left].
  right. split; [|by eauto].
  split.
  - simpl in Hne. apply negb_true_iff in Hne. by apply String.eqb_neq.
  - subst tok. unfold Str.has_space in *. rewrite existsb_append in Htok.
    by apply orb_false_iff in Htok as [-> _].
Qed.

End TokenFacts.

(** ** Numbers read from digits *)
Section DecimalTokens.

(** Rounding a non-negative integer never gives NaN. *)
Lemma shr_1_nonneg (mrs : shr_record) : 0 ≤ shr_m mrs → 0 ≤ shr_m (shr_1 mrs).
Proof. destruct mrs as [[|[p|p|]|p] r s]; simpl; lia. Qed.

Lemma iter_pos_nonneg (p : positive) (mrs : shr_record) :
  0 ≤ shr_m mrs → 0 ≤ shr_m (SpecFloat.iter_pos shr_1 p mrs).
Proof.
  revert mrs. induction p as [p IH|p IH|]; intros mrs H; simpl.
  - apply IH, IH. by apply shr_1_nonneg.
  - by apply IH, IH.
  - by apply shr_1_nonneg.
Qed.

Lemma shr_nonneg (mrs : shr_record) (e n : Z) :
  0 ≤ shr_m mrs → 0 ≤ shr_m (shr mrs e n).1.
Proof. intros H. destruct n; simpl; try done. by apply iter_pos_nonneg. Qed.

Lemma shr_record_of_loc_m (m : Z) (l : location) : shr_m (shr_record_of_loc m l) = m.
Proof. by destruct l as [|[]]. Qed.

Lemma round_nearest_even_nonneg (m : Z) (l : location) :
  0 ≤ m → 0 ≤ round_nearest_even m l.
Proof. intros H. destruct l as [|[]]; simpl; try done; try lia. destruct (Z.even m); lia. Qed.

Lemma binary_round_aux_not_nan (sx : bool) (mx ex : Z) (lx : location) :
  0 ≤ mx → Num.is_nan (binary_round_aux Num.prec Num.emax sx mx ex lx) = false.
Proof.
  intros H. unfold binary_round_aux, shr_fexp.
  destruct (shr (shr_record_of_loc mx lx) ex _) as [mrs' e'] eqn:E1.
  assert (0 ≤ shr_m mrs') as H1.
  { change mrs' with (mrs', e').1. rewrite <- E1. apply shr_nonneg.
    by rewrite shr_record_of_loc_m. }
  destruct (shr (shr_record_of_loc _ loc_Exact) e' _) as [mrs'' e''] eqn:E2.
  assert (0 ≤ shr_m mrs'') as H2.
  { change mrs'' with (mrs'', e'').1. rewrite <- E2. apply shr_nonneg.
    rewrite shr_record_of_loc_m. by apply round_nearest_even_nonneg. }
  destruct (shr_m mrs'') as [|p|p]; [done| |lia].
  by destruct (e'' <=? _).
Qed.

Lemma of_decimal_integer_not_nan (m : N) : Num.is_nan (Num.of_decimal false m 0) = false.
Proof.
  unfold Num.of_decimal. destruct m as [|p]; [done|]. simpl.
  unfold binary_round. destruct (shl_align _ _ _) as [mz ez].
  by apply binary_round_aux_not_nan.
Qed.

End DecimalTokens.

Section DigitTokens.
Import Literal.

(** What a decimal digit is not. *)
Lemma digit_facts (c : ascii) :
  is_digit 10 c = true →
  Str.is_space c = false
  ∧ radix_of_prefix c = None
  ∧ c ≠ "+"%char ∧ c ≠ "-"%char ∧ c ≠ "I"%char ∧ c ≠ "t"%char ∧ c ≠ "f"%char.
Proof.
  destruct c as [[] [] [] [] [] [] [] []]; intros H; try discriminate H;
    repeat split; done.
Qed.

Lemma all_digits_no_space (s : string) : all_digits s = true → Str.has_space s = false.
Proof.
  induction s as [|c s IH]; [done|].
  change (all_digits (String c s)) with (is_digit 10 c && all_digits s).
  change (Str.has_space (String c s)) with (Str.is_space c || Str.has_space s).
  intros [Hc Hs]%andb_true_iff. apply digit_facts in Hc as [-> _]. by apply IH.
Qed.

Lemma span_all_digits (s : string) : all_digits s = true → span_digits 10 s = (s, "").
Proof.
  induction s as [|c s IH]; [done|].
  change (all_digits (String c s)) with (is_digit 10 c && all_digits s).
  intros [Hc Hs]%andb_true_iff. simpl. by rewrite Hc, IH.
Qed.

Lemma non_decimal_digits (s : string) : all_digits s = true → non_decimal s = None.
Proof.
  destruct s as [|c [|c' s]]; simpl; try done.
  - by repeat case_match.
  - intros [_ [Hc' _]%andb_true_iff]%andb_true_iff.
    apply digit_facts in Hc' as (_ & -> & _). by repeat case_match.
Qed.

(** A text of decimal digits denotes the integer its digits spell. *)
Lemma StringToNumber_digits (s : string) :
  s ≠ "" → all_digits s = true →
  StringToNumber s = Num.of_decimal false (digits_value 10 0 s) 0.
Proof.
  intros Hne Hd. unfold StringToNumber.
  assert (Str.trim s = s) as ->.
  { unfold Str.trim. pose proof (all_digits_no_space s Hd) as Hs.
    rewrite trimStart_plain by done. by apply trimEnd_plain. }
  apply String.eqb_neq in Hne as Hne'. rewrite Hne'.
  rewrite non_decimal_digits by done.
  unfold decimal, sign.
  destruct s as [|c s]; [done|].
  pose proof Hd as Hd'. simpl in Hd'. apply andb_true_iff in Hd' as [Hc _].
  destruct (digit_facts c Hc) as (_ & _ & Hplus & Hminus & HI & _).
  assert ((match String c s with
           | String "+" s' => (false, s')
           | String "-" s' => (true, s')
           | _ => (false, String c s)
           end) = (false, String c s)) as ->.
  { destruct c as [[] [] [] [] [] [] [] []]; done. }
  assert (String.eqb (String c s) "Infinity" = false) as ->.
  { apply String.eqb_neq. congruence. }
  unfold unsigned_decimal. rewrite span_all_digits by done.
  rewrite append_nil_r. simpl. by rewrite Z.sub_0_r.
Qed.

(** Such a token is coerced to that number. *)
Lemma coerce_digits (raw : string) :
  raw ≠ "" → all_digits raw = true →
  coerce raw = VNum (Num.of_decimal false (digits_value 10 0 raw) 0).
Proof.
  intros Hne Hd.
  assert (isNaN (VStr raw) = false) as Hnum.
  { unfold isNaN. simpl. rewrite StringToNumber_digits by done.
    apply of_decimal_integer_not_nan. }
  rewrite coerce_numeric by done. by rewrite StringToNumber_digits.
Qed.

End DigitTokens.

(** C7.  [parseCommand] on [apply-effect blur radius=5] gives the method
    [apply-effect] and the parameters [{radius: 5}].  In general a token
    without [=] is passed over without any error, both in the loop and in
    a whole command; a value text that is not empty and that [isNaN]
    accepts as a numeric literal becomes [Number] of it; and a value text
    made of decimal digits becomes the number the digits spell. *)
Theorem parseCommand_apply_effect_blur_radius :
  parseCommand "apply-effect blur radius=5"
  = {| method := "apply-effect"; params := {[ "radius" := VInt 5 ]} |}
  ∧ (∀ (acc : obj) (part : string),
       Str.contains_char "=" part = false → parse_part acc part = acc)
  ∧ (∀ m tok : string,
       Str.has_space m = false → m ≠ "" →
       Str.has_space tok = false → tok ≠ "" →
       Str.contains_char "=" tok = false →
       parseCommand (m +:+ " " +:+ tok) = {| method := m; params := ∅ |})
  ∧ (∀ raw : string,
       raw ≠ "" → isNaN (VStr raw) = false →
       coerce raw = VNum (Literal.StringToNumber raw))
  ∧ (∀ raw : string,
       raw ≠ "" → Literal.all_digits raw = true →
       coerce raw = VNum (Num.of_decimal false (Literal.digits_value 10 0 raw) 0)).
Proof.
  split; [by vm_compute|].
  split; [apply parse_part_bare|].
  split; [|split; [apply coerce_numeric | apply coerce_digits]].
  intros m tok Hm Hm' Ht Ht' Heq.
  rewrite parseCommand_two_words by done.
  by rewrite parse_part_bare.
Qed.

Lemma parseCommand_apply_effect_blur_radius_witness :
  parse_part ∅ "blur" = ∅
  ∧ parseCommand ("apply-effect" +:+ " " +:+ "blur")
    = {| method := "apply-effect"; params := ∅ |}
  ∧ coerce "5" = VNum (Literal.StringToNumber "5")
  ∧ coerce "800" = VNum (Num.of_decimal false 800 0).
Proof.
  destruct parseCommand_apply_effect_blur_radius as (_ & Hbare & Hcmd & Hnum & Hdigits).
  split; [apply Hbare; reflexivity|].
  split; [apply Hcmd; first [reflexivity | discriminate]|].
  split; [apply Hnum; [discriminate | reflexivity]|].
  apply (Hdigits "800"); [discriminate | reflexivity].
Defined.

(** C10, as the source has it.  A token with more than one [=] is the
    text [key=raw=rest] with no [=] in [key] and [raw].  It is never
    rejected: the split gives [key] and [raw] as its first two pieces, and
    the pieces of [rest] after them are not looked at.  What the turn of the
    loop stores depends on the key: nothing when the key is empty (the
    token starts with [=]) and nothing when the key is [__proto__], whose
    setter ignores the value; for any other key, [params[key]] becomes the
    coerced [raw], over whatever the parameters held.  This holds on any
    parameters collected so far, for the token appended to any command that
    is not blank, and for the token at any place among the parts of a
    command. *)
Theorem parseCommand_extra_equals (key raw rest : string) :
  Str.contains_char "=" key = false →
  Str.contains_char "=" raw = false →
  let token := key +:+ "=" +:+ raw +:+ "=" +:+ rest in
  let stored := λ acc : obj,
    if bool_decide (key = "" ∨ key = "__proto__") then acc
    else <[key := coerce raw]> acc in
  Str.split_char "=" token = key :: raw :: Str.split_char "=" rest
  ∧ (∀ acc, parse_part acc token = stored acc)
  ∧ (∀ s sp,
       Str.is_space sp = true → Str.trim s ≠ "" → Str.has_space token = false →
       parseCommand (s +:+ String sp token)
       = {| method := method (parseCommand s);
            params := stored (params (parseCommand s)) |})
  ∧ (∀ s m before after,
       Str.split_ws (Str.trim s) = m :: (before ++ token :: after)%list →
       parseCommand s
       = {| method := m;
            params := foldl parse_part (stored (foldl parse_part ∅ before)) after |}).
Proof.
  intros Hk Hr token stored.
  pose proof (split_char_first_two key raw rest Hk Hr) as Hsplit. fold token in Hsplit.
  assert (∀ acc, parse_part acc token = stored acc) as Hpart.
  { intros acc. unfold parse_part. rewrite Hsplit. unfold stored, assign.
    cbn [truthy]. destruct (String.eqb_spec key "") as [->|Hne]; cbn [negb].
    { rewrite bool_decide_eq_true_2; [done|by left]. }
    destruct (String.eqb_spec key "__proto__") as [->|Hproto].
    { rewrite bool_decide_eq_true_2; [done|by right]. }
    rewrite bool_decide_eq_false_2; [done|]. by intros [?|?]. }
  split; [done|]. split; [done|]. split.
  - intros s sp Hsp Hs Htok. rewrite parseCommand_snoc; [by rewrite Hpart|done|done|done|].
    unfold token. destruct key; by rewrite append_cons.
  - intros s m before after Hparts. unfold parseCommand. rewrite Hparts. simpl.
    by rewrite foldl_app, <- Hpart.
Qed.

Lemma parseCommand_extra_equals_witness :
  let token := "width" +:+ "=" +:+ "800" +:+ "=" +:+ "600=x" in
  let stored := λ acc : obj,
    if bool_decide ("width" = "" ∨ "width" = "__proto__") then acc
    else <["width" := coerce "800"]> acc in
  Str.split_char "=" token = "width" :: "800" :: Str.split_char "=" "600=x"
  ∧ (∀ acc, parse_part acc token = stored acc)
  ∧ (∀ s sp,
       Str.is_space sp = true → Str.trim s ≠ "" → Str.has_space token = false →
       parseCommand (s +:+ String sp token)
       = {| method := method (parseCommand s);
            params := stored (params (parseCommand s)) |})
  ∧ (∀ s m before after,
       Str.split_ws (Str.trim s) = m :: (before ++ token :: after)%list →
       parseCommand s
       = {| method := m;
            params := foldl parse_part (stored (foldl parse_part ∅ before)) after |}).
Proof. apply (parseCommand_extra_equals "width" "800" "600=x"); reflexivity. Defined.

(** C10, as stated, fails on a token that starts with [=] and on one whose
    key is [__proto__].  Each has more than one [=]; in the first the text
    before the first [=] is empty and the token is skipped, in the second
    the key is [__proto__] and the assignment stores nothing. *)
Lemma parseCommand_extra_equals_counterexample :
  Str.split_char "=" "=a=b" = [""; "a"; "b"]
  ∧ parseCommand "flip =a=b" = {| method := "flip"; params := ∅ |}
  ∧ Str.split_char "=" "__proto__=1=2" = ["__proto__"; "1"; "2"]
  ∧ parseCommand "flip __proto__=1=2" = {| method := "flip"; params := ∅ |}.
Proof. repeat split; by vm_compute. Qed.

(** Such a token between two others, after a parameter and before one. *)
Lemma extra_equals_in_the_middle :
  Str.split_ws (Str.trim "crop x1=1 y1=2=3=4  x2=5")
  = "crop" :: (["x1=1"] ++ "y1=2=3=4" :: ["x2=5"])%list
  ∧ parseCommand "crop x1=1 y1=2=3=4  x2=5"
    = {| method := "crop";
         params := {[ "x1" := VInt 1; "y1" := VInt 2; "x2" := VInt 5 ]} |}.
Proof. split; by vm_compute. Qed.

(** ** The handlers *)
Section HandlerFacts.
Context {W : Type}.
Variable app : App.t W.

Import MiniPaintRexxHandler.

Lemma well_formed_done (out : string) : well_formed_return (done out).
Proof. left. by split. Qed.

Lemma well_formed_done_with (out : string) (res : value) :
  well_formed_return (done_with out res).
Proof. left. by split. Qed.

Lemma well_formed_failed (code : Z) (out : value) :
  truthy (VInt code) = true → well_formed_return (failed code out).
Proof. right. by split. Qed.

(** The [catch] block of a handler. *)
Lemma caught_behaves (code : Z) (error : exn) (w : W) :
  truthy (VInt code) = true →
  match caught code error w with
  | (Ret r, _) => well_formed_return r
  | (Throw e, _) => ∃ text, e = Error text
  end.
Proof.
  intros Hcode. unfold caught, bind, message_of, ret.
  destruct error; simpl; eauto using well_formed_failed.
Qed.

Lemma returns_well_ret (r : Envelope) :
  well_formed_return r → returns_well (W := W) (ret r).
Proof. intros H w. exact H. Qed.

Lemma returns_well_bind {A} (m : M W A) (k : A → M W Envelope) :
  (∀ a, returns_well (k a)) → returns_well (bind m k).
Proof.
  intros H w. unfold bind. destruct (m w) as [[a|e] w']; [apply H | exact I].
Qed.

Lemma try_catch_behaves (body : M W Envelope) (code : Z) :
  returns_well body → truthy (VInt code) = true →
  ∀ w, match try_catch body (caught code) w with
       | (Ret r, _) => well_formed_return r
       | (Throw e, _) => ∃ text, e = Error text
       end.
Proof.
  intros Hbody Hcode w. unfold try_catch. specialize (Hbody w).
  destruct (body w) as [[r|e] w']; [exact Hbody|].
  by apply caught_behaves.
Qed.

Ltac settle :=
  first
    [ apply well_formed_done
    | apply well_formed_done_with
    | apply well_formed_failed; reflexivity ].

Ltac by_cases :=
  apply try_catch_behaves; [|reflexivity];
  unfold layers_query;
  repeat first
    [ apply returns_well_ret; settle
    | apply returns_well_bind; intros
    | case_match ].

Lemma openImage_behaves : behaves (openImage app).
Proof. intros args. unfold openImage. by_cases. Qed.

Lemma resize_behaves : behaves (resize app).
Proof. intros args. unfold resize. by_cases. Qed.

Lemma rotate_behaves : behaves (rotate app).
Proof. intros args. unfold rotate. by_cases. Qed.

Lemma flip_behaves : behaves (flip app).
Proof. intros args. unfold flip. by_cases. Qed.

Lemma crop_behaves : behaves (crop app).
Proof. intros args. unfold crop. by_cases. Qed.

Lemma applyEffect_behaves : behaves (applyEffect app).
Proof. intros args. unfold applyEffect. by_cases. Qed.

Lemma addLayer_behaves : behaves (addLayer app).
Proof. intros args. unfold addLayer. by_cases. Qed.

Lemma deleteLayer_behaves : behaves (deleteLayer app).
Proof. intros args. unfold deleteLayer. by_cases. Qed.

Lemma mergeLayers_behaves : behaves (mergeLayers app).
Proof. intros args. unfold mergeLayers. by_cases. Qed.

Lemma setOpacity_behaves : behaves (setOpacity app).
Proof. intros args. unfold setOpacity. by_cases. Qed.

Lemma saveImage_behaves : behaves (saveImage app).
Proof. intros args. unfold saveImage. by_cases. Qed.

Lemma getCanvasSize_behaves : behaves (getCanvasSize app).
Proof. intros args. unfold getCanvasSize. by_cases. Qed.

Lemma getImageData_behaves : behaves (getImageData app).
Proof. intros args. unfold getImageData. by_cases. Qed.

Lemma getImageInfo_behaves : behaves (getImageInfo app).
Proof. intros args. unfold getImageInfo. by_cases. Qed.

Lemma listEffects_behaves : behaves (W := W) listEffects.
Proof. intros args. unfold listEffects. by_cases. Qed.

Lemma listLayers_behaves : behaves (listLayers app).
Proof. intros args. unfold listLayers. by_cases. Qed.

Lemma newImage_behaves : behaves (newImage app).
Proof. intros args. unfold newImage. by_cases. Qed.

Lemma undo_behaves : behaves (undo app).
Proof. intros args. unfold undo. by_cases. Qed.

Lemma redo_behaves : behaves (redo app).
Proof. intros args. unfold redo. by_cases. Qed.

End HandlerFacts.

(** ** The dispatch entry point *)
Section RunFacts.
Context {W : Type}.
Variable app : App.t W.

Import MiniPaintRexxHandler.

Lemma registered_behaves (method : string) (f : obj → M W Envelope) :
  handlers app !! method = Some f → behaves f.
Proof.
  intros H. apply elem_of_list_to_map_2 in H. unfold handler_table in H.
  repeat (apply elem_of_cons in H as [H|H];
          [ injection H as -> ->;
            eauto using openImage_behaves, resize_behaves, rotate_behaves,
              flip_behaves, crop_behaves, applyEffect_behaves, addLayer_behaves,
              deleteLayer_behaves, mergeLayers_behaves, setOpacity_behaves,
              saveImage_behaves, getCanvasSize_behaves, getImageData_behaves,
              getImageInfo_behaves, listEffects_behaves, listLayers_behaves,
              newImage_behaves, undo_behaves, redo_behaves | ]).
  by apply elem_of_nil in H.
Qed.

(** Every member [run] can find, other than [Object], behaves like a
    handler. *)
Lemma member_behaves (method : string) (handler : member) :
  method ≠ "constructor" →
  lookup_handler app method = Some handler →
  ∀ args w,
    match call handler args w with
    | (Ret r, _) => well_formed_return r
    | (Throw e, _) => ∃ text, e = Error text
    end.
Proof.
  intros Hne Hlook args w. unfold lookup_handler in Hlook.
  destruct (handlers app !! method) as [f|] eqn:Hf.
  - injection Hlook as <-. apply (registered_behaves _ _ Hf).
  - unfold Object_prototype in Hlook.
    destruct (String.eqb_spec method "constructor"); [done|].
    destruct (String.eqb method "toString").
    { injection Hlook as <-. left. by split. }
    destruct (String.eqb method "__proto__").
    { injection Hlook as <-. simpl. unfold throw. by eexists. }
    destruct (String.eqb method "toLocaleString").
    { injection Hlook as <-. simpl. unfold throw. by eexists. }
    case_match; [|done].
    injection Hlook as <-. simpl. unfold throw. by eexists.
Qed.

(** Whatever a member throws is an [Error], also for [Object]. *)
Lemma member_throws (method : string) (handler : member) (args : obj) (w w' : W) (e : exn) :
  lookup_handler app method = Some handler →
  call handler args w = (Throw e, w') →
  ∃ text, e = Error text.
Proof.
  intros Hlook Hcall.
  destruct (String.eqb_spec method "constructor") as [->|Hne].
  - unfold lookup_handler in Hlook.
    replace (handlers app !! "constructor") with (@None (obj → M W Envelope)) in Hlook
      by reflexivity.
    injection Hlook as <-. simpl in Hcall. discriminate Hcall.
  - pose proof (member_behaves _ _ Hne Hlook args w) as H.
    by rewrite Hcall in H.
Qed.

Lemma strict_eq_false (v : value) :
  strict_eq v (VBool false) = true ↔ v = VBool false.
Proof.
  unfold strict_eq. destruct v; by rewrite bool_decide_eq_true.
Qed.

Lemma truthy_not_zero (v : value) :
  truthy v = true → strict_eq v (VInt 0) = false.
Proof.
  destruct v as [| |b|n|s]; simpl; intros H; try done;
    try (by apply bool_decide_eq_false_2).
  change (Num.of_Z 0) with (S754_zero false).
  destruct n as [[]|[]| |[] ? ?]; simpl in *; done.
Qed.

Lemma or_else_present (v fallback : value) :
  truthy fallback = false → fallback ≠ VUndef →
  or_else v fallback = fallback ∨ truthy (or_else v fallback) = true.
Proof. intros. unfold or_else. destruct (truthy v) eqn:E; auto. Qed.

(** [success == (errorCode == 0)] after normalisation. *)
Lemma normalize_invariant (r : Envelope) :
  well_formed_return r →
  success (normalize r) = VBool (strict_eq (errorCode (normalize r)) (VInt 0)).
Proof.
  intros [[Hs He]|[Hs He]]; unfold normalize, or_else; simpl; rewrite He.
  - destruct (strict_eq (success r) (VBool false)) eqn:E; [|done].
    by apply strict_eq_false in E.
  - rewrite Hs. simpl. by rewrite truthy_not_zero.
Qed.

(** The four ways through [run]. *)
Lemma run_not_initialized (commandString : value) (params : obj) (w : W) :
  App.Layers app = None →
  run app commandString params w
  = (Ret (failed 1 (VStr "miniPaint not initialized")), w).
Proof. intros H. unfold run, try_catch. by rewrite H. Qed.

Lemma run_unknown (commandString : value) (params : obj) (w : W) :
  is_Some (App.Layers app) →
  lookup_handler app (method_and_args commandString params).1 = None →
  run app commandString params w
  = (Ret (failed 2 (VStr ("Unknown command: "
                          +:+ (method_and_args commandString params).1))), w).
Proof.
  intros Hinit Hlook. unfold run, try_catch.
  rewrite bool_decide_eq_true_2 by done. cbn [negb].
  destruct (method_and_args commandString params) as [method args].
  simpl in Hlook. by rewrite Hlook.
Qed.

Lemma run_returned (commandString : value) (params : obj) (w w' : W)
    (handler : member) (r : Envelope) :
  is_Some (App.Layers app) →
  lookup_handler app (method_and_args commandString params).1 = Some handler →
  call handler (method_and_args commandString params).2 w = (Ret r, w') →
  run app commandString params w = (Ret (normalize r), w').
Proof.
  intros Hinit Hlook Hcall. unfold run, try_catch.
  rewrite bool_decide_eq_true_2 by done. cbn [negb].
  destruct (method_and_args commandString params) as [method args].
  simpl in Hlook, Hcall. rewrite Hlook. unfold bind. by rewrite Hcall.
Qed.

Lemma run_threw (commandString : value) (params : obj) (w w' : W)
    (handler : member) (text : string) :
  is_Some (App.Layers app) →
  lookup_handler app (method_and_args commandString params).1 = Some handler →
  call handler (method_and_args commandString params).2 w = (Throw (Error text), w') →
  run app commandString params w
  = (Ret (failed 99 (VStr ("Error: " +:+ text))), w').
Proof.
  intros Hinit Hlook Hcall. unfold run, try_catch.
  rewrite bool_decide_eq_true_2 by done. cbn [negb].
  destruct (method_and_args commandString params) as [method args].
  simpl in Hlook, Hcall. rewrite Hlook. unfold bind. by rewrite Hcall.
Qed.

(** A string names the method and carries the arguments: the second
    argument of [run] is not looked at. *)
Lemma run_ignores_params (s : string) (params params' : obj) (w : W) :
  run app (VStr s) params w = run app (VStr s) params' w.
Proof. reflexivity. Qed.

End RunFacts.

Section RunClaims.
Import MiniPaintRexxHandler.

(** [run] always returns: no exception leaves it. *)
Lemma run_returns {W} (app : App.t W) (commandString : value) (params : obj) (w : W) :
  ∃ env w', run app commandString params w = (Ret env, w').
Proof.
  destruct (App.Layers app) as [layers|] eqn:Hinit;
    [|by rewrite run_not_initialized; eauto].
  assert (is_Some (App.Layers app)) as Hsome by (rewrite Hinit; eauto).
  destruct (lookup_handler app (method_and_args commandString params).1)
    as [handler|] eqn:Hlook; [|by rewrite run_unknown; eauto].
  destruct (call handler (method_and_args commandString params).2 w)
    as [[r|e] w'] eqn:Hcall.
  - erewrite run_returned; eauto.
  - destruct (member_throws app _ _ _ _ _ _ Hlook Hcall) as [text ->].
    erewrite run_threw; eauto.
Qed.

End RunClaims.

(** C1.  The call [run("resize", {width: 800, height: 600})] on an editor
    that is initialised and supports resize: the string goes through
    [parseCommand], the parameter object is dropped, and the handler
    answers with its missing-parameter error. *)
Theorem run_resize_with_params_object :
  MiniPaintRexxHandler.run Sample.editor (VStr "resize") Sample.size_800x600 ()
  = (Ret {| success := VBool false;
            errorCode := VInt 20;
            output := VStr "width and height parameters required";
            result := VStr "" |}, ()).
Proof. by vm_compute. Qed.

(** The same request as one command string reaches the editor. *)
Lemma run_resize_command_string :
  MiniPaintRexxHandler.run Sample.editor (VStr "resize width=800 height=600") ∅ ()
  = (Ret {| success := VBool true;
            errorCode := VInt 0;
            output := VStr "Resized to 800x600";
            result := VStr "" |}, ()).
Proof. by vm_compute. Qed.

(** C5, as the source has it.  For every command whose method is not the
    inherited name [constructor], [run] returns an envelope with
    [success == (errorCode === 0)] and with [output] present, the empty
    string if there is none.  The [result] field is present, the empty
    string if the handler gave no payload, exactly when a handler was called
    and returned; the envelopes of the not-initialised, unknown-command and
    uncaught-failure branches have no [result] field. *)
Theorem run_envelope_invariant {W} (app : App.t W)
    (commandString : value) (params : obj) (w : W) :
  (MiniPaintRexxHandler.method_and_args commandString params).1 ≠ "constructor" →
  ∃ env w',
    MiniPaintRexxHandler.run app commandString params w = (Ret env, w')
    ∧ success env = VBool (strict_eq (errorCode env) (VInt 0))
    ∧ (output env = VStr "" ∨ truthy (output env) = true)
    ∧ match MiniPaintRexxHandler.handler_outcome app commandString params w with
      | Some (Ret returned, _) =>
          result env = or_else (result returned) (VStr "")
          ∧ (result env = VStr "" ∨ truthy (result env) = true)
      | _ => result env = VUndef
      end.
Proof.
  intros Hne. unfold MiniPaintRexxHandler.handler_outcome.
  destruct (App.Layers app) as [layers|] eqn:Hinit.
  2: { rewrite run_not_initialized by done.
       eexists _, _. split; [reflexivity|]. repeat split; by auto. }
  assert (is_Some (App.Layers app)) as Hsome by (rewrite Hinit; eauto).
  destruct (MiniPaintRexxHandler.method_and_args commandString params)
    as [method args] eqn:Hma.
  assert (method = (MiniPaintRexxHandler.method_and_args commandString params).1) as Hm
    by (by rewrite Hma).
  assert (args = (MiniPaintRexxHandler.method_and_args commandString params).2) as Ha
    by (by rewrite Hma).
  simpl in Hne.
  destruct (MiniPaintRexxHandler.lookup_handler app method) as [handler|] eqn:Hlook; simpl.
  2: { rewrite run_unknown by (by rewrite <- ?Hm).
       eexists _, _. split; [reflexivity|]. repeat split; by auto. }
  pose proof (member_behaves app method handler Hne Hlook args w) as Hb.
  destruct (MiniPaintRexxHandler.call handler args w) as [[r|e] w'] eqn:Hcall.
  - erewrite run_returned by (rewrite <- ?Hm, <- ?Ha; eauto).
    eexists _, _. split; [reflexivity|].
    split; [by apply normalize_invariant|].
    split; [by apply or_else_present|].
    split; [reflexivity|]. by apply or_else_present.
  - destruct Hb as [text ->].
    erewrite run_threw by (rewrite <- ?Hm, <- ?Ha; eauto).
    eexists _, _. split; [reflexivity|]. repeat split; by auto.
Qed.

Lemma run_envelope_invariant_witness :
  ∃ env w',
    MiniPaintRexxHandler.run Sample.editor (VStr "get-canvas-size") ∅ () = (Ret env, w')
    ∧ success env = VBool (strict_eq (errorCode env) (VInt 0))
    ∧ (output env = VStr "" ∨ truthy (output env) = true)
    ∧ match MiniPaintRexxHandler.handler_outcome Sample.editor (VStr "get-canvas-size") ∅ () with
      | Some (Ret returned, _) =>
          result env = or_else (result returned) (VStr "")
          ∧ (result env = VStr "" ∨ truthy (result env) = true)
      | _ => result env = VUndef
      end.
Proof.
  apply (run_envelope_invariant Sample.editor (VStr "get-canvas-size") ∅ ()).
  discriminate.
Defined.

(** C5, as stated, fails on the three branches it names: the envelope has
    no [result] field there, where the claim has the empty string.  It also
    fails on the inherited name [constructor]: the handler found is
    [Object], which hands back the parsed parameters, so that an [errorCode]
    parameter comes back next to [success: true]. *)
Lemma run_envelope_invariant_counterexample :
  MiniPaintRexxHandler.run Sample.not_initialized (VStr "undo") ∅ ()
  = (Ret {| success := VBool false; errorCode := VInt 1;
            output := VStr "miniPaint not initialized"; result := VUndef |}, ())
  ∧ MiniPaintRexxHandler.run Sample.editor (VStr "paint") ∅ ()
    = (Ret {| success := VBool false; errorCode := VInt 2;
              output := VStr "Unknown command: paint"; result := VUndef |}, ())
  ∧ MiniPaintRexxHandler.run Sample.failing_editor (VStr "resize width=800 height=600") ∅ ()
    = (Ret {| success := VBool false; errorCode := VInt 99;
              output := VStr "Error: Cannot read properties of null (reading 'message')";
              result := VUndef |}, ())
  ∧ VUndef ≠ VStr ""
  ∧ MiniPaintRexxHandler.run Sample.editor (VStr "constructor errorCode=5") ∅ ()
    = (Ret {| success := VBool true; errorCode := VInt 5;
              output := VStr ""; result := VStr "" |}, ())
  ∧ strict_eq (VInt 5) (VInt 0) = false.
Proof. repeat split; by vm_compute. Qed.

(** C6.  [run] never lets an exception out, and when the handler it called
    raised a failure the envelope has [success: false], [errorCode: 99] and
    the output [Error: ] followed by the message of the failure. *)
Theorem run_catches_handler_failure {W} (app : App.t W)
    (commandString : value) (params : obj) (w : W) :
  (∃ env w', MiniPaintRexxHandler.run app commandString params w = (Ret env, w'))
  ∧ ∀ e w',
      MiniPaintRexxHandler.handler_outcome app commandString params w = Some (Throw e, w') →
      ∃ text,
        read_message e = Ret (VStr text)
        ∧ MiniPaintRexxHandler.run app commandString params w
          = (Ret {| success := VBool false; errorCode := VInt 99;
                    output := VStr ("Error: " +:+ text); result := VUndef |}, w').
Proof.
  split; [apply run_returns|].
  intros e w'. unfold MiniPaintRexxHandler.handler_outcome.
  destruct (App.Layers app) as [layers|] eqn:Hinit; [|done].
  assert (is_Some (App.Layers app)) as Hsome by (rewrite Hinit; eauto).
  destruct (MiniPaintRexxHandler.method_and_args commandString params)
    as [method args] eqn:Hma.
  destruct (MiniPaintRexxHandler.lookup_handler app method) as [handler|] eqn:Hlook;
    [|done].
  simpl. intros [= Hcall].
  destruct (member_throws app _ _ _ _ _ _ Hlook Hcall) as [text ->].
  exists text. split; [reflexivity|].
  apply (run_threw app _ _ _ _ handler); rewrite ?Hma; done.
Qed.

Lemma run_catches_handler_failure_witness :
  ∃ text,
    read_message TypeError_message_of_null = Ret (VStr text)
    ∧ MiniPaintRexxHandler.run Sample.failing_editor
        (VStr "resize width=800 height=600") ∅ ()
      = (Ret {| success := VBool false; errorCode := VInt 99;
                output := VStr ("Error: " +:+ text); result := VUndef |}, ()).
Proof.
  apply (run_catches_handler_failure Sample.failing_editor
           (VStr "resize width=800 height=600") ∅ ()).
  reflexivity.
Defined.

(** ** Required parameters *)
Section Required.
Context {W : Type}.
Variable app : App.t W.

Import MiniPaintRexxHandler.

Lemma read_missing (args : obj) (key : string) :
  args !! key = None → read args key = VUndef.
Proof. intros H. unfold read. by rewrite H. Qed.

Ltac missing :=
  let H := fresh in
  let Hk := fresh in
  intros Hk H; apply read_missing in H;
  unfold try_catch, ret;
  repeat (apply elem_of_cons in Hk as [->|Hk];
          [ rewrite ?H; simpl; rewrite ?orb_true_r; reflexivity | ]);
  by apply elem_of_nil in Hk.

Lemma openImage_missing (args : obj) (w : W) (key : string) :
  key ∈ ["file"] → args !! key = None →
  openImage app args w = (Ret (failed 10 (VStr "file parameter required")), w).
Proof. unfold openImage. missing. Qed.

Lemma resize_missing (args : obj) (w : W) (key : string) :
  key ∈ ["width"; "height"] → args !! key = None →
  resize app args w
  = (Ret (failed 20 (VStr "width and height parameters required")), w).
Proof. unfold resize. missing. Qed.

Lemma rotate_missing (args : obj) (w : W) (key : string) :
  key ∈ ["angle"] → args !! key = None →
  rotate app args w = (Ret (failed 30 (VStr "angle parameter required")), w).
Proof. unfold rotate. missing. Qed.

Lemma flip_missing (args : obj) (w : W) (key : string) :
  key ∈ ["direction"] → args !! key = None →
  flip app args w = (Ret (failed 40 (VStr flip_usage)), w).
Proof. unfold flip. missing. Qed.

Lemma crop_missing (args : obj) (w : W) (key : string) :
  key ∈ ["x1"; "y1"; "x2"; "y2"] → args !! key = None →
  crop app args w = (Ret (failed 50 (VStr "x1, y1, x2, y2 parameters required")), w).
Proof. unfold crop. missing. Qed.

Lemma applyEffect_missing (args : obj) (w : W) (key : string) :
  key ∈ ["name"] → args !! key = None →
  applyEffect app args w = (Ret (failed 60 (VStr "name parameter required")), w).
Proof. unfold applyEffect. missing. Qed.

Lemma deleteLayer_missing (args : obj) (w : W) (key : string) :
  key ∈ ["id"] → args !! key = None →
  deleteLayer app args w = (Ret (failed 80 (VStr "id parameter required")), w).
Proof. unfold deleteLayer. missing. Qed.

Lemma setOpacity_missing (args : obj) (w : W) (key : string) :
  key ∈ ["layer"; "opacity"] → args !! key = None →
  setOpacity app args w
  = (Ret (failed 100 (VStr "layer and opacity parameters required")), w).
Proof. unfold setOpacity. missing. Qed.

Lemma saveImage_missing (args : obj) (w : W) (key : string) :
  key ∈ ["output"] → args !! key = None →
  saveImage app args w = (Ret (failed 110 (VStr "output parameter required")), w).
Proof. unfold saveImage. missing. Qed.

(** [newImage] has defaults instead: without a width or a height it
    still calls the editor. *)
Lemma newImage_defaults (args : obj) (w w' : W) (f : value → value → M W ()) :
  image_action app App.newImage = Some f →
  (∀ width height, ∃ w', f width height w = (Ret (), w')) →
  ∃ text w', newImage app args w = (Ret (done text), w').
Proof.
  intros Hf Hcall. unfold newImage, try_catch, bind, ret. rewrite Hf.
  match goal with |- context [f ?a ?b w] => destruct (Hcall a b) as [w1 ->] end.
  eauto.
Qed.

End Required.

Section MethodAndArgs.
Import MiniPaintRexxHandler.

Lemma method_and_args_string (s : string) (any : obj) (cmd : Command) :
  cmd = parseCommand s →
  method_and_args (VStr s) any = (method cmd, params cmd).
Proof. intros ->. unfold method_and_args. by destruct (parseCommand s). Qed.

(** [text || ''] is [text]. *)
Lemma or_else_string (text : string) : or_else (VStr text) (VStr "") = VStr text.
Proof.
  unfold or_else. simpl. by destruct (String.eqb_spec text "") as [->|].
Qed.

End MethodAndArgs.

(** C8, as the source has it.  On an initialised editor, a command for one
    of the methods that test parameters (open-image, resize, rotate, flip,
    crop, apply-effect, delete-layer, set-opacity, save-image) that lacks one
    of the tested parameters returns [success: false] with the first code of
    the method's decade.  [new-image] tests none: a missing width or height
    is replaced by its default, and the command succeeds when the editor's
    [newImage] does. *)
Theorem missing_required_parameter {W} (app : App.t W) (s : string) (any : obj) (w : W) :
  is_Some (App.Layers app) →
  (∀ keys code key,
     (method (parseCommand s), (keys, code)) ∈ MiniPaintRexxHandler.required_parameters →
     key ∈ keys →
     params (parseCommand s) !! key = None →
     ∃ text,
       MiniPaintRexxHandler.run app (VStr s) any w
       = (Ret {| success := VBool false; errorCode := VInt code;
                 output := VStr text; result := VStr "" |}, w))
  ∧ (method (parseCommand s) = "new-image" →
     ∀ f,
       MiniPaintRexxHandler.image_action app App.newImage = Some f →
       (∀ width height, ∃ w', f width height w = (Ret (), w')) →
       ∃ text w',
         MiniPaintRexxHandler.run app (VStr s) any w
         = (Ret {| success := VBool true; errorCode := VInt 0;
                   output := VStr text; result := VStr "" |}, w')).
Proof.
  intros Hinit. remember (parseCommand s) as cmd eqn:Hcmd. split.
  - intros keys code key Hm Hk Hmiss.
    unfold MiniPaintRexxHandler.required_parameters in Hm.
    repeat (apply elem_of_cons in Hm as [Hm|Hm];
            [ injection Hm as Hmethod -> ->;
              eexists;
              etrans;
              [ eapply run_returned;
                [ done
                | rewrite (method_and_args_string s any cmd Hcmd); cbn [fst snd]; rewrite Hmethod; reflexivity
                | rewrite (method_and_args_string s any cmd Hcmd); cbn [fst snd];
                  first [ apply (openImage_missing app _ _ key); done
                        | apply (resize_missing app _ _ key); done
                        | apply (rotate_missing app _ _ key); done
                        | apply (flip_missing app _ _ key); done
                        | apply (crop_missing app _ _ key); done
                        | apply (applyEffect_missing app _ _ key); done
                        | apply (deleteLayer_missing app _ _ key); done
                        | apply (setOpacity_missing app _ _ key); done
                        | apply (saveImage_missing app _ _ key); done ] ]
              | reflexivity ]
            | ]).
    by apply elem_of_nil in Hm.
  - intros Hmethod f Hf Hcall.
    destruct (newImage_defaults app (params cmd) w w f Hf Hcall)
      as (text & w' & Hnew).
    exists text, w'.
    rewrite (run_returned app (VStr s) any w w'
               (MiniPaintRexxHandler.Function (MiniPaintRexxHandler.newImage app))
               (MiniPaintRexxHandler.done text)).
    + unfold MiniPaintRexxHandler.normalize, MiniPaintRexxHandler.done. simpl.
      by rewrite or_else_string.
    + done.
    + rewrite (method_and_args_string s any cmd Hcmd). cbn [fst snd]. rewrite Hmethod. reflexivity.
    + rewrite (method_and_args_string s any cmd Hcmd). cbn [fst snd]. exact Hnew.
Qed.

Lemma missing_required_parameter_witness :
  (∃ text,
     MiniPaintRexxHandler.run Sample.editor (VStr "resize width=800") ∅ ()
     = (Ret {| success := VBool false; errorCode := VInt 20;
               output := VStr text; result := VStr "" |}, ()))
  ∧ (∃ text w',
       MiniPaintRexxHandler.run Sample.editor (VStr "new-image height=600") ∅ ()
       = (Ret {| success := VBool true; errorCode := VInt 0;
                 output := VStr text; result := VStr "" |}, w')).
Proof.
  split.
  - apply (proj1 (missing_required_parameter Sample.editor "resize width=800" ∅ ()
                    (ex_intro _ Sample.layers eq_refl))
             ["width"; "height"] 20 "height").
    + apply (bool_decide_unpack _). by vm_compute.
    + apply (bool_decide_unpack _). by vm_compute.
    + by vm_compute.
  - apply (proj2 (missing_required_parameter Sample.editor "new-image height=600" ∅ ()
                    (ex_intro _ Sample.layers eq_refl))
             eq_refl (λ _ _, ret ()) eq_refl).
    intros. by exists ().
Defined.

(** C8, as stated, fails on the method it names: [new-image] without width
    and height succeeds with the defaults. *)
Lemma missing_required_parameter_counterexample :
  MiniPaintRexxHandler.run Sample.editor (VStr "new-image") ∅ ()
  = (Ret {| success := VBool true; errorCode := VInt 0;
            output := VStr "Created new image: 800x600"; result := VStr "" |}, ()).
Proof. by vm_compute. Qed.

(** ** The execute-rexx meta-command *)




(** ** The director bridge *)
Section DirectorInvariant.
Import ControlBus.

Lemma init_consistent (clock : Z) : consistent (init clock).
Proof.
  split; simpl; try done.
  - constructor.
  - intros id H. by apply elem_of_nil in H.
Qed.

Lemma increment_fresh (n : Z) : n < 2 ^ 53 → increment n = n + 1.
Proof. intros H. unfold increment. by rewrite (proj2 (Z.ltb_lt _ _) H). Qed.

(** A window that fits in 31 bits is the delay of its timer. *)
Lemma delay_in_range (ms : Z) : 0 ≤ ms < 2 ^ 31 → delay ms = ms.
Proof. intros H. unfold delay. rewrite Z.mod_small by lia. lia. Qed.

Lemma sendRPC_consistent (method : value) (params : obj) (d : Director) :
  consistent d → requestId d < 2 ^ 53 →
  consistent (sendRPC method params d).1.
Proof.
  intros [H0 Hp Ht Hinj Hnd Hk] Hlt. unfold sendRPC.
  rewrite (increment_fresh _ Hlt). split; simpl.
  - lia.
  - intros id e [[<- <-]|[Hne He]]%lookup_insert_Some.
    + simpl. split; [lia|]. split.
      * eexists. rewrite lookup_insert_eq. done.
      * split.
        -- rewrite lookup_app_r by done. by rewrite Nat.sub_diag.
        -- intros Hin. apply Hk in Hin. lia.
    + destruct (Hp id e He) as (Hrange & (t & Htm & Hid & Hpr) & Hpend & Hres).
      split; [lia|]. split.
      * exists t. split; [|done].
        rewrite lookup_insert_ne; [done|].
        apply Ht in Htm as [Hlt' _]. lia.
      * split; [|done].
        rewrite lookup_app_l; [done|]. by apply lookup_lt_Some in Hpend.
  - intros tid t [[<- <-]|[Hne Htm]]%lookup_insert_Some; simpl.
    + split; [lia|]. eexists. rewrite lookup_insert_eq. done.
    + destruct (Ht tid t Htm) as (Hlt' & e & He & Htid).
      split; [lia|]. exists e. split; [|done].
      rewrite lookup_insert_ne; [done|].
      apply Hp in He as [? _]. lia.
  - intros id id' e e' [[<- <-]|[Hne He]]%lookup_insert_Some
                        [[<- <-]|[Hne' He']]%lookup_insert_Some; simpl; try done.
    + intros Heq. apply Hp in He' as (_ & _ & Hpend & _).
      apply lookup_lt_Some in Hpend. lia.
    + intros Heq. apply Hp in He as (_ & _ & Hpend & _).
      apply lookup_lt_Some in Hpend. lia.
    + eauto.
  - done.
  - intros id Hin. apply Hk in Hin. lia.
Qed.

Lemma settle_other (p q : nat) (s : promise payload) (ps : list (promise payload)) :
  p ≠ q → settle p s ps !! q = ps !! q.
Proof.
  intros Hne. unfold settle. destruct (ps !! p) as [[]|]; try done.
  by rewrite list_lookup_insert_ne.
Qed.

Lemma settle_pending (p : nat) (s : promise payload) (ps : list (promise payload)) :
  ps !! p = Some Pending → settle p s ps !! p = Some s.
Proof.
  intros H. unfold settle. rewrite H.
  apply list_lookup_insert_eq. by apply lookup_lt_Some in H.
Qed.

(** A pending request is resolved, by its response or by its timer: the
    entry [id] and the timer [tid] go, the promise [p] is settled. *)
Lemma resolve_consistent (d : Director) (id tid : Z) (e : PendingRequest)
    (s : promise payload) :
  consistent d →
  pendingRequests d !! id = Some e → timeoutId e = tid →
  consistent
    {| requestId := requestId d;
       pendingRequests := delete id (pendingRequests d);
       timeout := timeout d; now := now d;
       timers := delete tid (timers d);
       nextTimeoutId := nextTimeoutId d;
       promises := settle (promiseId e) s (promises d);
       posted := posted d;
       resolutions := resolutions d ++ [(id, s)] |}.
Proof.
  intros [H0 Hp Ht Hinj Hnd Hk] He <-.
  destruct (Hp id e He) as (Hrange & (t & Htm & Hid & Hpr) & Hpend & Hres).
  split; simpl.
  - done.
  - intros id' e' [Hne He']%lookup_delete_Some.
    destruct (Hp id' e' He') as (Hrange' & (t' & Htm' & Hid' & Hpr') & Hpend' & Hres').
    split; [done|]. split.
    + exists t'. split; [|done]. rewrite lookup_delete_ne; [done|].
      intros Heq. rewrite Heq, Htm' in Htm. congruence.
    + split.
      * rewrite settle_other; [done|]. intros Heq. apply Hne. by eapply Hinj.
      * rewrite fmap_app. simpl. rewrite elem_of_app, list_elem_of_singleton.
        intros [?|?]; [done|congruence].
  - intros tid' t' [Hne Htm']%lookup_delete_Some.
    destruct (Ht tid' t' Htm') as (Hlt & e' & He' & Htid).
    split; [done|]. exists e'. split; [|done].
    rewrite lookup_delete_ne; [done|].
    intros Heq. rewrite <- Heq, He in He'. congruence.
  - intros i i' x x' [_ Hx]%lookup_delete_Some [_ Hx']%lookup_delete_Some. eauto.
  - rewrite fmap_app. simpl. apply NoDup_app. split; [done|]. split.
    + intros x Hx ->%list_elem_of_singleton. done.
    + apply NoDup_singleton.
  - intros x. rewrite fmap_app. simpl. rewrite elem_of_app, list_elem_of_singleton.
    intros [?| ->]; eauto.
Qed.

Lemma on_message_consistent (data : message) (d : Director) :
  consistent d → consistent (on_message data d).
Proof.
  intros H. destruct data as [| [id|] ok res err |]; simpl; try done.
  destruct (pendingRequests d !! id) as [e|] eqn:He; [|done].
  by apply resolve_consistent.
Qed.

Lemma fire_consistent (tid : Z) (d : Director) :
  consistent d → consistent (fire tid d).
Proof.
  intros H. unfold fire.
  destruct (timers d !! tid) as [t|] eqn:Htm; [|done].
  destruct (deadline t <=? now d); [|done].
  destruct (timers_sound d H tid t Htm) as (_ & e & He & Htid).
  destruct (pending_sound d H _ e He) as (_ & (t' & Htm' & _ & Hpr) & _).
  rewrite Htid, Htm in Htm'. injection Htm' as <-. rewrite Hpr.
  by apply resolve_consistent.
Qed.

Lemma step_consistent (d : Director) (e : event) :
  consistent d → requestId d < 2 ^ 53 → consistent (step d e).
Proof.
  intros H Hlt. destruct e; simpl.
  - by apply sendRPC_consistent.
  - by apply on_message_consistent.
  - by apply fire_consistent.
  - by destruct H.
  - by destruct H.
Qed.

(** The counter moves by at most one per event. *)
Lemma step_requestId (d : Director) (e : event) :
  requestId d ≤ requestId (step d e) ≤ requestId d + 1.
Proof.
  destruct e as [m p|data|tid|ms|ms]; simpl; try lia.
  - unfold increment. destruct (requestId d <? 2 ^ 53); lia.
  - destruct data as [| [id|] ok res err |]; simpl; try lia.
    destruct (pendingRequests d !! id); simpl; lia.
  - unfold fire. destruct (timers d !! tid) as [t|]; [|lia].
    destruct (deadline t <=? now d); simpl; lia.
Qed.

Lemma steps_consistent (es : list event) (d : Director) :
  consistent d → requestId d + Z.of_nat (length es) ≤ 2 ^ 53 →
  consistent (steps d es)
  ∧ requestId d ≤ requestId (steps d es) ≤ requestId d + Z.of_nat (length es).
Proof.
  revert d. induction es as [|e es IH]; intros d H Hlen; simpl in *.
  - split; [done|lia].
  - pose proof (step_requestId d e) as Hstep.
    destruct (IH (step d e)) as [Hc Hr].
    + apply step_consistent; [done|lia].
    + lia.
    + split; [done|lia].
Qed.

End DirectorInvariant.

Section DirectorClaims.
Import ControlBus.

(** A message that is no response to a pending request changes nothing. *)
Lemma on_message_unmatched (data : message) (d : Director) :
  match data with
  | RpcResponse (Some id) _ _ _ => pendingRequests d !! id = None
  | _ => True
  end →
  on_message data d = d.
Proof.
  destruct data as [| [id|] ok res err |]; simpl; try done.
  by intros ->.
Qed.

(** An event that does not settle a pending request leaves its entry, its
    timer and its promise as they are. *)
Lemma step_keeps_pending (d : Director) (e : event) (id : Z) (entry : PendingRequest) :
  consistent d → requestId d < 2 ^ 53 →
  pendingRequests d !! id = Some entry →
  settles id (timeoutId entry) e = false →
  pendingRequests (step d e) !! id = Some entry
  ∧ timers (step d e) !! timeoutId entry = timers d !! timeoutId entry.
Proof.
  intros Hc Hlt He Hs.
  destruct (pending_sound d Hc id entry He) as (Hrange & (t & Htm & Hid & Hpr) & Hpend & _).
  destruct e as [m p|data|tid|ms|ms]; simpl in *; try done.
  - rewrite (increment_fresh _ Hlt). split.
    + rewrite lookup_insert_ne; [done|lia].
    + rewrite lookup_insert_ne; [done|].
      apply (timers_sound d Hc) in Htm as [? _]. lia.
  - destruct data as [| [id'|] ok res err |]; simpl; try done.
    apply Z.eqb_neq in Hs.
    destruct (pendingRequests d !! id') as [e'|] eqn:He'; [|done]. simpl.
    destruct (pending_sound d Hc id' e' He') as (_ & (t' & Htm' & Hid' & _) & _).
    split.
    + by rewrite lookup_delete_ne.
    + rewrite lookup_delete_ne; [done|].
      intros Heq. rewrite Heq, Htm in Htm'. congruence.
  - apply Z.eqb_neq in Hs. unfold fire.
    destruct (timers d !! tid) as [t'|] eqn:Htm'; [|done].
    destruct (deadline t' <=? now d); [|done]. simpl.
    destruct (timers_sound d Hc tid t' Htm') as (_ & e' & He' & Htid).
    split.
    + rewrite lookup_delete_ne; [done|].
      intros Heq. rewrite Heq, He in He'. congruence.
    + by rewrite lookup_delete_ne.
Qed.

Lemma steps_keep_pending (es : list event) (d : Director) (id : Z) (entry : PendingRequest) :
  consistent d → requestId d + Z.of_nat (length es) ≤ 2 ^ 53 →
  pendingRequests d !! id = Some entry →
  Forall (λ e, settles id (timeoutId entry) e = false) es →
  pendingRequests (steps d es) !! id = Some entry
  ∧ timers (steps d es) !! timeoutId entry = timers d !! timeoutId entry.
Proof.
  revert d. induction es as [|e es IH]; intros d Hc Hlen He Hall; simpl in *; [done|].
  apply Forall_cons in Hall as [Hs Hall].
  pose proof (step_requestId d e) as Hstep.
  destruct (step_keeps_pending d e id entry) as [He' Htm']; [done|lia|done|done|].
  destruct (IH (step d e)) as [He'' Htm'']; try done.
  - apply step_consistent; [done|lia].
  - lia.
  - split; [done|congruence].
Qed.

Lemma filter_absent (id : Z) (l : list (Z * promise payload)) :
  id ∉ l.*1 → filter (λ r, r.1 = id) l = [].
Proof.
  induction l as [|[i s] l IH]; simpl; [done|].
  intros [Hne Hnotin]%not_elem_of_cons.
  rewrite filter_cons_False by (simpl; congruence). by apply IH.
Qed.

Lemma count_at_most_one (id : Z) (l : list (Z * promise payload)) :
  NoDup l.*1 → (length (filter (λ r, r.1 = id) l) ≤ 1)%nat.
Proof.
  induction l as [|[i s] l IH]; simpl; [lia|].
  intros [Hnotin Hnd]%NoDup_cons.
  destruct (decide (i = id)) as [->|Hne].
  - rewrite filter_cons_True by done. rewrite filter_absent by done. simpl. lia.
  - rewrite filter_cons_False by (simpl; congruence). by apply IH.
Qed.

End DirectorClaims.

(** C2.  In every state the director reaches: [resolve] or [reject] has
    been called at most once for any request id; a response that matches a
    pending entry removes the entry and settles its promise, and so does the
    run of the entry's timer once it is due; a response whose id has no
    pending entry leaves the whole state of the director as it is, pending
    table and promises included.  The counter is exact for fewer than [2^53]
    requests, which bounds the number of events. *)
Theorem at_most_one_resolution (clock : Z) (es : list ControlBus.event) :
  Z.of_nat (length es) ≤ 2 ^ 53 →
  let d := ControlBus.steps (ControlBus.init clock) es in
  (∀ id, (length (filter (λ r, r.1 = id) (ControlBus.resolutions d)) ≤ 1)%nat)
  ∧ (∀ id entry ok res err,
       ControlBus.pendingRequests d !! id = Some entry →
       let d' := ControlBus.on_message (ControlBus.RpcResponse (Some id) ok res err) d in
       ControlBus.pendingRequests d' !! id = None
       ∧ ControlBus.promises d !! ControlBus.promiseId entry = Some Pending
       ∧ ControlBus.promises d' !! ControlBus.promiseId entry
         = Some (if truthy ok then Fulfilled res
                 else Rejected (Error (ToString (or_else err (VStr "Unknown error"))))))
  ∧ (∀ tid t,
       ControlBus.timers d !! tid = Some t →
       ControlBus.deadline t ≤ ControlBus.now d →
       is_Some (ControlBus.pendingRequests d !! ControlBus.timer_id t)
       ∧ ControlBus.pendingRequests (ControlBus.fire tid d) !! ControlBus.timer_id t = None)
  ∧ (∀ id ok res err,
       match id with
       | Some k => ControlBus.pendingRequests d !! k = None
       | None => True
       end →
       ControlBus.on_message (ControlBus.RpcResponse id ok res err) d = d).
Proof.
  intros Hlen d.
  destruct (steps_consistent es (ControlBus.init clock) (init_consistent clock)) as [Hc _];
    [simpl; lia|]. fold d in Hc.
  split; [|split; [|split]].
  - intros id. apply count_at_most_one, (ControlBus.resolved_once d Hc).
  - intros id entry ok res err He d'.
    destruct (ControlBus.pending_sound d Hc id entry He) as (_ & _ & Hpend & _).
    unfold d'. simpl. rewrite He. simpl.
    split; [apply lookup_delete_eq|]. split; [done|].
    by apply settle_pending.
  - intros tid t Htm Hdue.
    destruct (ControlBus.timers_sound d Hc tid t Htm) as (_ & e & He & _).
    split; [by rewrite He|].
    unfold ControlBus.fire. rewrite Htm.
    rewrite (proj2 (Z.leb_le _ _) Hdue). simpl. apply lookup_delete_eq.
  - intros id ok res err H. by apply on_message_unmatched.
Qed.

Lemma at_most_one_resolution_witness :
  let d := ControlBus.steps (ControlBus.init 0)
             [ControlBus.Send (VStr "undo") ∅;
              ControlBus.Elapse 30000;
              ControlBus.Fire 1;
              ControlBus.Message
                (ControlBus.RpcResponse (Some 1) (VBool true)
                   (ControlBus.Primitive VUndef) VUndef)] in
  (∀ id, (length (filter (λ r, r.1 = id) (ControlBus.resolutions d)) ≤ 1)%nat)
  ∧ ControlBus.resolutions d
    = [(1, Rejected (Error "RPC request 1 (undo) timed out after 30000ms"))].
Proof.
  split.
  - apply (at_most_one_resolution 0
             [ControlBus.Send (VStr "undo") ∅;
              ControlBus.Elapse 30000;
              ControlBus.Fire 1;
              ControlBus.Message
                (ControlBus.RpcResponse (Some 1) (VBool true)
                   (ControlBus.Primitive VUndef) VUndef)]).
    simpl. lia.
  - by vm_compute.
Defined.

(** C4, as the source has it.  The bridge starts with a timeout of 30000
    ms.  Take a request sent in any state the director has reached, while
    the window is [timeout] and the clock shows [now], and any events after
    it that contain neither a response bearing its id nor the run of its
    timer.  [setTimeout] reads the window as a signed 32-bit integer and
    counts a negative one as zero, so the timer is due at [now + timeout]
    for the windows from 0 to [2^31 - 1] ms, the default among them.  Until
    its callback runs the entry is still in the pending table and the
    promise is still pending; the callback cannot run before the timer is
    due; and when it runs from then on it removes the entry and rejects the
    promise with the error [RPC request <id> (<method>) timed out after
    <timeout>ms], where the timeout printed is the one configured when the
    callback runs. *)
Theorem sendRPC_times_out (clock : Z) (before after : list ControlBus.event)
    (method : value) (params : obj) :
  Z.of_nat (length before) + 1 + Z.of_nat (length after) ≤ 2 ^ 53 →
  let d := ControlBus.steps (ControlBus.init clock) before in
  let id := ControlBus.requestId d + 1 in
  let tid := ControlBus.nextTimeoutId d in
  let due :=
    ControlBus.now d + Z.max 0 ((ControlBus.timeout d + 2 ^ 31) mod 2 ^ 32 - 2 ^ 31) in
  let sent := ControlBus.sendRPC method params d in
  let d' := ControlBus.steps sent.1 after in
  Forall (λ e, ControlBus.settles id tid e = false) after →
  ControlBus.timeout (ControlBus.init clock) = 30000
  ∧ (0 ≤ ControlBus.timeout d < 2 ^ 31 →
     due = ControlBus.now d + ControlBus.timeout d)
  ∧ ControlBus.pendingRequests d' !! id
    = Some {| ControlBus.timeoutId := tid; ControlBus.promiseId := sent.2 |}
  ∧ ControlBus.promises d' !! sent.2 = Some Pending
  ∧ (ControlBus.now d' < due → ControlBus.fire tid d' = d')
  ∧ (due ≤ ControlBus.now d' →
     ControlBus.pendingRequests (ControlBus.fire tid d') !! id = None
     ∧ ControlBus.promises (ControlBus.fire tid d') !! sent.2
       = Some (Rejected
                 (Error ("RPC request " +:+ ToString (VInt id)
                         +:+ " (" +:+ ToString method
                         +:+ ") timed out after "
                         +:+ ToString (VInt (ControlBus.timeout d')) +:+ "ms")))).
Proof.
  intros Hlen d id tid due sent d' Hquiet.
  destruct (steps_consistent before (ControlBus.init clock) (init_consistent clock))
    as [Hc Hr]; [simpl in *; lia|]. fold d in Hc, Hr. simpl in Hr.
  assert (ControlBus.requestId d < 2 ^ 53) as Hlt by lia.
  pose proof (sendRPC_consistent method params d Hc Hlt) as Hc1. fold sent in Hc1.
  set (entry := {| ControlBus.timeoutId := tid; ControlBus.promiseId := sent.2 |}).
  assert (ControlBus.pendingRequests sent.1 !! id = Some entry) as He1.
  { unfold sent, ControlBus.sendRPC. simpl.
    rewrite (increment_fresh _ Hlt). apply lookup_insert_eq. }
  assert (ControlBus.requestId sent.1 = id) as Hid1.
  { unfold sent, ControlBus.sendRPC. simpl. by rewrite (increment_fresh _ Hlt). }
  destruct (steps_consistent after sent.1 Hc1) as [Hc' _]; [lia|]. fold d' in Hc'.
  destruct (steps_keep_pending after sent.1 id entry Hc1) as [He' Htm']; [lia|done|done|].
  fold d' in He', Htm'.
  assert (ControlBus.timers d' !! tid
          = Some {| ControlBus.deadline := due; ControlBus.timer_id := id;
                    ControlBus.timer_method := method;
                    ControlBus.timer_promise := sent.2 |}) as Htimer.
  { simpl in Htm'. rewrite Htm'. unfold sent, ControlBus.sendRPC. simpl.
    rewrite (increment_fresh _ Hlt). apply lookup_insert_eq. }
  destruct (ControlBus.pending_sound d' Hc' id entry He') as (_ & _ & Hpend & _).
  split; [reflexivity|].
  split; [intros Hwindow; unfold due; rewrite Z.mod_small by lia; lia|].
  split; [done|]. split; [done|]. split.
  - intros Hearly. unfold ControlBus.fire. rewrite Htimer. simpl.
    by rewrite (proj2 (Z.leb_gt _ _) Hearly).
  - intros Hdue. unfold ControlBus.fire. rewrite Htimer. simpl.
    rewrite (proj2 (Z.leb_le _ _) Hdue). simpl.
    split; [apply lookup_delete_eq|]. by apply settle_pending.
Qed.

Lemma sendRPC_times_out_witness :
  let d' := ControlBus.steps (ControlBus.sendRPC (VStr "resize") Sample.size_800x600
                                (ControlBus.init 0)).1
              [ControlBus.Elapse 30000] in
  ControlBus.timeout (ControlBus.init 0) = 30000
  ∧ (0 ≤ 30000 < 2 ^ 31 → 30000 = 0 + 30000)
  ∧ ControlBus.pendingRequests d' !! 1
    = Some {| ControlBus.timeoutId := 1; ControlBus.promiseId := 0 |}
  ∧ ControlBus.promises d' !! 0%nat = Some Pending
  ∧ (ControlBus.now d' < 30000 → ControlBus.fire 1 d' = d')
  ∧ (30000 ≤ ControlBus.now d' →
     ControlBus.pendingRequests (ControlBus.fire 1 d') !! 1 = None
     ∧ ControlBus.promises (ControlBus.fire 1 d') !! 0%nat
       = Some (Rejected
                 (Error ("RPC request " +:+ ToString (VInt 1)
                         +:+ " (" +:+ ToString (VStr "resize")
                         +:+ ") timed out after "
                         +:+ ToString (VInt (ControlBus.timeout d')) +:+ "ms")))).
Proof.
  apply (sendRPC_times_out 0 [] [ControlBus.Elapse 30000]
           (VStr "resize") Sample.size_800x600).
  - simpl. lia.
  - repeat constructor.
Defined.

(** C4, as stated, fails for a window that [setTimeout] cannot hold: with
    the timeout set to [2^31] ms the timer is due at once, and its callback
    rejects the promise and removes the entry while the clock still shows
    the moment of the call. *)
Lemma sendRPC_times_out_counterexample :
  let d := ControlBus.steps (ControlBus.init 0) [ControlBus.Configure (2 ^ 31)] in
  let sent := ControlBus.sendRPC (VStr "undo") ∅ d in
  ControlBus.timeout d = 2147483648
  ∧ ControlBus.now (ControlBus.fire 1 sent.1) = 0
  ∧ ControlBus.promises (ControlBus.fire 1 sent.1) !! sent.2
    = Some (Rejected (Error "RPC request 1 (undo) timed out after 2147483648ms"))
  ∧ ControlBus.pendingRequests (ControlBus.fire 1 sent.1) !! 1 = None.
Proof. repeat split; by vm_compute. Qed.

(** The text of that rejection. *)
Lemma timeout_message_text :
  ControlBus.timeout_message 1 (VStr "resize") 30000
  = "RPC request 1 (resize) timed out after 30000ms".
Proof. by vm_compute. Qed.

(** C3.  A request for a command that runs on the worker and fails, over a
    port that takes the worker's message: the
    worker answers with [success: false] next to the envelope, the director
    takes that for a failure of the call and rejects the promise with
    [Unknown error], and the address handler reports code 99.  The envelope
    of the command, with its own error code, does not reach the caller. *)
Theorem failed_command_is_rejected :
  let envelope := {| success := VBool false; errorCode := VInt 40;
                     output := VStr MiniPaintRexxHandler.flip_usage;
                     result := VStr "" |} in
  let call := ControlBus.address_request (VStr "flip direction=diagonal") ∅ in
  let sent := ControlBus.sendRPC call.1 call.2 (ControlBus.init 0) in
  let response :=
    ControlBus.RpcResponse (Some 1) (VBool false) (ControlBus.Reply envelope) VUndef in
  let d := ControlBus.on_message response sent.1 in
  ControlBus.posted sent.1
  = [ControlBus.RpcRequest (Some 1) (VStr "flip") {[ "direction" := VStr "diagonal" ]}]
  ∧ ControlBus.worker_on_message Sample.editor ControlBus.open_port
      (ControlBus.RpcRequest (Some 1) (VStr "flip") {[ "direction" := VStr "diagonal" ]}) ()
    = (Ret (Some response), ())
  ∧ ControlBus.promises d !! sent.2 = Some (Rejected (Error "Unknown error"))
  ∧ ControlBus.address_reply (Rejected (Error "Unknown error"))
    = Fulfilled {| success := VBool false; errorCode := VInt 99;
                   output := VStr "RPC Error: Unknown error"; result := VUndef |}.
Proof. repeat split; by vm_compute. Qed.

(** The same for any command and any port that takes the worker's message:
    whenever the dispatcher returns an envelope with [success: false], the
    promise of the request is rejected. *)
Lemma failed_envelope_is_rejected {W} (app : App.t W) (w : W)
    (postMessage : ControlBus.message → outcome unit)
    (d : ControlBus.Director) (id : Z) (entry : ControlBus.PendingRequest)
    (method : value) (params : obj) (envelope : Envelope) (w' : W) :
  MiniPaintRexxHandler.run app method params w = (Ret envelope, w') →
  success envelope = VBool false →
  postMessage (ControlBus.RpcResponse (Some id) (VBool false)
                 (ControlBus.Reply envelope) VUndef) = Ret () →
  ControlBus.pendingRequests d !! id = Some entry →
  ControlBus.promises d !! ControlBus.promiseId entry = Some Pending →
  let response :=
    ControlBus.RpcResponse (Some id) (VBool false) (ControlBus.Reply envelope) VUndef in
  ControlBus.worker_on_message app postMessage
    (ControlBus.RpcRequest (Some id) method params) w
  = (Ret (Some response), w')
  ∧ ControlBus.promises (ControlBus.on_message response d) !! ControlBus.promiseId entry
    = Some (Rejected (Error "Unknown error")).
Proof.
  intros Hrun Hfail Hpost He Hpend response. split.
  - unfold ControlBus.worker_on_message, ControlBus.executeCommand, ControlBus.post,
      try_catch, bind.
    rewrite Hrun, Hfail, Hpost. reflexivity.
  - simpl. rewrite He. simpl. by apply settle_pending.
Qed.

(** * Further properties of the code *)

(** ** The parser on whole commands *)

(** X1.  White space in front of a command and after it (text that trims
    to nothing) changes neither its parse nor what [run] answers. *)
Theorem parseCommand_padding (pre s post : string) :
  Str.trim pre = "" → Str.trim post = "" →
  parseCommand (pre +:+ s +:+ post) = parseCommand s
  ∧ ∀ {W} (app : App.t W) (params params' : obj) (w : W),
      MiniPaintRexxHandler.run app (VStr (pre +:+ s +:+ post)) params w
      = MiniPaintRexxHandler.run app (VStr s) params' w.
Proof.
  intros Hpre Hpost.
  assert (parseCommand (pre +:+ s +:+ post) = parseCommand s) as Heq.
  { unfold parseCommand. by rewrite trim_pad. }
  split; [done|]. intros W app params params' w.
  unfold MiniPaintRexxHandler.run, MiniPaintRexxHandler.method_and_args.
  by rewrite Heq.
Qed.

Lemma parseCommand_padding_witness :
  parseCommand ("  " +:+ "rotate angle=90" +:+ " ") = parseCommand "rotate angle=90"
  ∧ ∀ {W} (app : App.t W) (params params' : obj) (w : W),
      MiniPaintRexxHandler.run app (VStr ("  " +:+ "rotate angle=90" +:+ " ")) params w
      = MiniPaintRexxHandler.run app (VStr "rotate angle=90") params' w.
Proof. apply (parseCommand_padding "  " "rotate angle=90" " "); reflexivity. Defined.

(** X2.  The shape of a parse.  The method holds no white space, and it is
    empty exactly when the command is blank.  Every parameter has a key that
    is not empty, holds neither white space nor [=] and is not [__proto__],
    and a value that is a boolean, a number other than NaN, or a string. *)
Theorem parseCommand_shape (s : string) :
  Str.has_space (method (parseCommand s)) = false
  ∧ (method (parseCommand s) = "" ↔ Str.trim s = "")
  ∧ ∀ key v,
      params (parseCommand s) !! key = Some v →
      is_token key ∧ Str.contains_char "=" key = false ∧ key ≠ "__proto__"
      ∧ match v with
        | VBool _ | VStr _ => True
        | VNum x => Num.is_nan x = false
        | _ => False
        end.
Proof.
  unfold parseCommand.
  destruct (command_tokens s) as [[Hblank ->]|[Hne Htokens]].
  - simpl. repeat split; done.
  - pose proof (split_ws_go_nonempty (Str.trim s) "" false) as Hl.
    unfold Str.split_ws in *.
    destruct (Str.split_ws_go "" false (Str.trim s)) as [|m toks]; [done|].
    apply Forall_cons in Htokens as [[Hm Hms] Htoks]. simpl.
    split; [done|]. split; [by split|].
    assert (∀ acc : obj,
              (∀ key v, acc !! key = Some v →
                 is_token key ∧ Str.contains_char "=" key = false ∧ key ≠ "__proto__"
                 ∧ ∃ raw, v = coerce raw) →
              ∀ key v, foldl parse_part acc toks !! key = Some v →
                 is_token key ∧ Str.contains_char "=" key = false ∧ key ≠ "__proto__"
                 ∧ ∃ raw, v = coerce raw) as Hfold.
    { clear Hl Hm Hms. induction toks as [|tok toks IH]; intros acc Hacc; [done|].
      apply Forall_cons in Htoks as [[_ Htok] Htoks]. simpl.
      apply IH; [done|]. intros key v [H|H]%parse_part_lookup; auto. }
    intros key v H.
    destruct (Hfold ∅ ltac:(intros ? ? E; by rewrite lookup_empty in E) key v H)
      as (Hkey & Heq & Hproto & raw & ->).
    repeat split; try done; try apply Hkey. apply coerce_shape.
Qed.

(** X3.  A token appended to a command that is not blank, after one
    white-space character: the method stays, and the parameters are those
    of the command extended by one turn of the loop on the token.  The
    command may itself end in white space. *)
Theorem parseCommand_append_token (s tok : string) (sp : ascii) :
  Str.is_space sp = true →
  Str.trim s ≠ "" → is_token tok →
  parseCommand (s +:+ String sp tok)
  = {| method := method (parseCommand s);
       params := parse_part (params (parseCommand s)) tok |}.
Proof. intros Hsp Hs [Hne Ht]. by apply parseCommand_snoc. Qed.

Lemma parseCommand_append_token_witness :
  parseCommand ("crop x1=0  " +:+ String " " "y1=5")
  = {| method := method (parseCommand "crop x1=0  ");
       params := parse_part (params (parseCommand "crop x1=0  ")) "y1=5" |}.
Proof.
  apply (parseCommand_append_token "crop x1=0  " "y1=5" " ");
    [reflexivity | by vm_compute | by split].
Defined.

(** X4.  The last occurrence of a key wins, except for the key
    [__proto__], which is never stored: after a command that is not blank,
    a token [key=raw] sets [key] to the coerced [raw], whatever the command
    held for it, and leaves every other parameter as it was; when the key
    is [__proto__] the parameters stay as they were altogether. *)
Theorem parseCommand_last_wins (s key raw : string) :
  Str.trim s ≠ "" →
  is_token key → Str.contains_char "=" key = false →
  Str.has_space raw = false → Str.contains_char "=" raw = false →
  let cmd := parseCommand (s +:+ " " +:+ key +:+ "=" +:+ raw) in
  method cmd = method (parseCommand s)
  ∧ (key ≠ "__proto__" → params cmd !! key = Some (coerce raw))
  ∧ (key = "__proto__" → params cmd = params (parseCommand s))
  ∧ ∀ other, other ≠ key → params cmd !! other = params (parseCommand s) !! other.
Proof.
  intros Hs [Hne Hk] Hkeq Hr Hreq cmd. unfold cmd.
  rewrite append_cons, append_nil_l.
  rewrite parseCommand_snoc; [|done|done| |].
  - simpl.
    rewrite (parse_part_first_two _ key raw None) by done.
    unfold assign. destruct (String.eqb_spec key "__proto__") as [Hproto|Hproto].
    + done.
    + split; [done|]. split; [intros _; apply lookup_insert_eq|]. split; [done|].
      intros other Hother. by rewrite lookup_insert_ne.
  - unfold Str.has_space in *. rewrite !existsb_append. by rewrite Hk, Hr.
  - destruct key; [done|]. by rewrite append_cons.
Qed.

Lemma parseCommand_last_wins_witness :
  let cmd := parseCommand ("resize width=1 height=2" +:+ " " +:+ "width" +:+ "=" +:+ "800") in
  method cmd = method (parseCommand "resize width=1 height=2")
  ∧ ("width" ≠ "__proto__" → params cmd !! "width" = Some (coerce "800"))
  ∧ ("width" = "__proto__" → params cmd = params (parseCommand "resize width=1 height=2"))
  ∧ ∀ other, other ≠ "width" →
      params cmd !! other = params (parseCommand "resize width=1 height=2") !! other.
Proof.
  apply (parseCommand_last_wins "resize width=1 height=2" "width" "800");
    first [by vm_compute | by split | discriminate].
Defined.

(** The two cases of X4 on one command. *)
Lemma last_wins_and_proto :
  params (parseCommand "resize width=1 height=2 width=800")
  = {[ "width" := VInt 800; "height" := VInt 2 ]}
  ∧ params (parseCommand "resize width=1 __proto__=5") = {[ "width" := VInt 1 ]}.
Proof. split; by vm_compute. Qed.

(** X5.  A blank command (empty, or white space only) parses to the empty
    method without parameters, and an initialised editor answers it with
    the unknown-command error 2 and is not touched. *)
Theorem run_blank_command {W} (app : App.t W) (s : string) (params : obj) (w : W) :
  Str.trim s = "" →
  parseCommand s = {| method := ""; params := ∅ |}
  ∧ (is_Some (App.Layers app) →
     MiniPaintRexxHandler.run app (VStr s) params w
     = (Ret {| success := VBool false; errorCode := VInt 2;
               output := VStr "Unknown command: "; result := VUndef |}, w)).
Proof.
  intros Hs.
  assert (parseCommand s = {| method := ""; params := ∅ |}) as Hparse.
  { unfold parseCommand. by rewrite Hs. }
  split; [done|]. intros Hinit.
  rewrite run_unknown; [|done|].
  - by rewrite (method_and_args_string s params _ (eq_sym Hparse)).
  - by rewrite (method_and_args_string s params _ (eq_sym Hparse)).
Qed.

Lemma run_blank_command_witness :
  parseCommand "   " = {| method := ""; params := ∅ |}
  ∧ (is_Some (App.Layers Sample.editor) →
     MiniPaintRexxHandler.run Sample.editor (VStr "   ") ∅ ()
     = (Ret {| success := VBool false; errorCode := VInt 2;
               output := VStr "Unknown command: "; result := VUndef |}, ())).
Proof. apply (run_blank_command Sample.editor "   " ∅ ()). reflexivity. Defined.

(** ** Error codes by command *)
Section DecadeFacts.
Context {W : Type}.
Variable app : App.t W.

Import MiniPaintRexxHandler.

Lemma within_done (base : Z) (out : string) : within_decade base (done out).
Proof. by left. Qed.

Lemma within_done_with (base : Z) (out : string) (res : value) :
  within_decade base (done_with out res).
Proof. by left. Qed.

Lemma within_failed (base code : Z) (out : value) :
  base ≤ code ≤ base + 9 → truthy (VInt code) = true →
  within_decade base (failed code out).
Proof. intros Hrange Hcode. right. exists code. by repeat split; try lia. Qed.

Lemma returns_within_ret (base : Z) (r : Envelope) :
  within_decade base r → returns_within (W := W) base (ret r).
Proof. intros H w. exact H. Qed.

Lemma returns_within_bind {A} (base : Z) (m : M W A) (k : A → M W Envelope) :
  (∀ a, returns_within base (k a)) → returns_within base (bind m k).
Proof.
  intros H w. unfold bind. destruct (m w) as [[a|e] w']; [apply H | exact I].
Qed.

Lemma try_catch_within (base code : Z) (body : M W Envelope) :
  returns_within base body →
  base ≤ code ≤ base + 9 → truthy (VInt code) = true →
  returns_within base (try_catch body (caught code)).
Proof.
  intros Hbody Hrange Hcode w. unfold try_catch. specialize (Hbody w).
  destruct (body w) as [[r|e] w']; [exact Hbody|].
  unfold caught, bind, message_of, ret.
  destruct (read_message e); [|done]. by apply within_failed.
Qed.

Ltac in_decade :=
  first
    [ apply within_done
    | apply within_done_with
    | apply within_failed; [lia | reflexivity] ].

Ltac by_decade :=
  apply try_catch_within; [|lia|reflexivity];
  unfold layers_query;
  repeat first
    [ apply returns_within_ret; in_decade
    | apply returns_within_bind; intros
    | case_match ].

Lemma openImage_within (args : obj) : returns_within 10 (openImage app args).
Proof. unfold openImage. by_decade. Qed.

Lemma resize_within (args : obj) : returns_within 20 (resize app args).
Proof. unfold resize. by_decade. Qed.

Lemma rotate_within (args : obj) : returns_within 30 (rotate app args).
Proof. unfold rotate. by_decade. Qed.

Lemma flip_within (args : obj) : returns_within 40 (flip app args).
Proof. unfold flip. by_decade. Qed.

Lemma crop_within (args : obj) : returns_within 50 (crop app args).
Proof. unfold crop. by_decade. Qed.

Lemma applyEffect_within (args : obj) : returns_within 60 (applyEffect app args).
Proof. unfold applyEffect. by_decade. Qed.

Lemma addLayer_within (args : obj) : returns_within 70 (addLayer app args).
Proof. unfold addLayer. by_decade. Qed.

Lemma deleteLayer_within (args : obj) : returns_within 80 (deleteLayer app args).
Proof. unfold deleteLayer. by_decade. Qed.

Lemma mergeLayers_within (args : obj) : returns_within 90 (mergeLayers app args).
Proof. unfold mergeLayers. by_decade. Qed.

Lemma setOpacity_within (args : obj) : returns_within 100 (setOpacity app args).
Proof. unfold setOpacity. by_decade. Qed.

Lemma saveImage_within (args : obj) : returns_within 110 (saveImage app args).
Proof. unfold saveImage. by_decade. Qed.

Lemma getCanvasSize_within (args : obj) : returns_within 120 (getCanvasSize app args).
Proof. unfold getCanvasSize. by_decade. Qed.

Lemma getImageData_within (args : obj) : returns_within 130 (getImageData app args).
Proof. unfold getImageData. by_decade. Qed.

Lemma getImageInfo_within (args : obj) : returns_within 140 (getImageInfo app args).
Proof. unfold getImageInfo. by_decade. Qed.

Lemma listEffects_within (args : obj) : returns_within (W := W) 150 (listEffects args).
Proof. unfold listEffects. by_decade. Qed.

Lemma listLayers_within (args : obj) : returns_within 160 (listLayers app args).
Proof. unfold listLayers. by_decade. Qed.

Lemma newImage_within (args : obj) : returns_within 170 (newImage app args).
Proof. unfold newImage. by_decade. Qed.

Lemma undo_within (args : obj) : returns_within 180 (undo app args).
Proof. unfold undo. by_decade. Qed.

Lemma redo_within (args : obj) : returns_within 190 (redo app args).
Proof. unfold redo. by_decade. Qed.

(** The handler registered under each name of the table, with its
    decade. *)
Lemma decade_handler (method : string) (base : Z) :
  (method, base) ∈ error_decades →
  ∃ f, lookup_handler app method = Some (Function f)
       ∧ ∀ args, returns_within base (f args).
Proof.
  intros H. unfold error_decades in H.
  repeat (apply elem_of_cons in H as [H|H];
          [ injection H as -> ->; eexists; split; [reflexivity|];
            eauto using openImage_within, resize_within, rotate_within,
              flip_within, crop_within, applyEffect_within, addLayer_within,
              deleteLayer_within, mergeLayers_within, setOpacity_within,
              saveImage_within, getCanvasSize_within, getImageData_within,
              getImageInfo_within, listEffects_within, listLayers_within,
              newImage_within, undo_within, redo_within | ]).
  by apply elem_of_nil in H.
Qed.

(** What [run] makes of an envelope within a decade. *)
Lemma normalize_within (base : Z) (r : Envelope) :
  within_decade base r →
  (success (normalize r) = VBool true ∧ errorCode (normalize r) = VInt 0)
  ∨ (success (normalize r) = VBool false
     ∧ ∃ code, errorCode (normalize r) = VInt code ∧ base ≤ code ≤ base + 9).
Proof.
  intros [[Hs He]|(code & Hrange & Hs & He & Hcode)]; unfold normalize; simpl;
    rewrite Hs, He.
  - by left.
  - right. split; [done|]. exists code. unfold or_else. by rewrite Hcode.
Qed.

End DecadeFacts.

(** X6.  The error code tells the command.  On an initialised editor, a
    command whose method is one of the nineteen registered names is
    answered with success and code 0, or with a failure whose code lies in
    the ten codes of that command, or with the code 99 of the dispatcher
    when the handler itself raised a failure. *)
Theorem run_error_code_decade {W} (app : App.t W)
    (commandString : value) (params : obj) (w : W) (base : Z) :
  is_Some (App.Layers app) →
  ((MiniPaintRexxHandler.method_and_args commandString params).1, base)
    ∈ MiniPaintRexxHandler.error_decades →
  ∃ env w',
    MiniPaintRexxHandler.run app commandString params w = (Ret env, w')
    ∧ ((success env = VBool true ∧ errorCode env = VInt 0)
       ∨ (success env = VBool false
          ∧ ∃ code, errorCode env = VInt code ∧ (base ≤ code ≤ base + 9 ∨ code = 99))).
Proof.
  intros Hinit Hreg.
  destruct (decade_handler app _ _ Hreg) as (f & Hlook & Hf).
  destruct (f (MiniPaintRexxHandler.method_and_args commandString params).2 w)
    as [[r|e] w'] eqn:Hcall.
  - exists (MiniPaintRexxHandler.normalize r), w'.
    split; [by apply (run_returned app _ _ _ _ (MiniPaintRexxHandler.Function f))|].
    pose proof (Hf (MiniPaintRexxHandler.method_and_args commandString params).2 w) as Hr.
    rewrite Hcall in Hr.
    destruct (normalize_within base r Hr) as [?|[? (code & ? & ?)]]; [by left|].
    right. split; [done|]. exists code. auto.
  - destruct (member_throws app _ _ _ w w' e Hlook Hcall) as [text ->].
    eexists _, w'.
    split; [by apply (run_threw app _ _ _ _ (MiniPaintRexxHandler.Function f))|].
    right. split; [done|]. exists 99. auto.
Qed.

Lemma run_error_code_decade_witness :
  ∃ env w',
    MiniPaintRexxHandler.run Sample.editor (VStr "set-opacity layer=1 opacity=2") ∅ ()
    = (Ret env, w')
    ∧ ((success env = VBool true ∧ errorCode env = VInt 0)
       ∨ (success env = VBool false
          ∧ ∃ code, errorCode env = VInt code ∧ (100 ≤ code ≤ 100 + 9 ∨ code = 99))).
Proof.
  apply (run_error_code_decade Sample.editor (VStr "set-opacity layer=1 opacity=2") ∅ () 100).
  - by eexists.
  - apply (bool_decide_unpack _). by vm_compute.
Defined.

(** ** Validation in the handlers *)
Section ValidationFacts.
Import MiniPaintRexxHandler.

Lemma strict_eq_undefined (v : value) : strict_eq v VUndef = bool_decide (v = VUndef).
Proof. by destruct v. Qed.

(** The test [!direction || !['horizontal', 'vertical'].includes(direction)]. *)
Lemma direction_test (v : value) :
  negb (truthy v) || negb (includes_str directions v) = false
  ↔ v ∈ [VStr "horizontal"; VStr "vertical"].
Proof.
  rewrite orb_false_iff, !negb_false_iff. split.
  - intros [_ H]. destruct v as [| | | |s]; try done. simpl in H.
    apply bool_decide_eq_true in H. unfold directions in H.
    apply elem_of_cons in H as [->|H]; [by left|].
    apply list_elem_of_singleton in H as ->. right. by left.
  - intros H. apply elem_of_cons in H as [->|H]; [done|].
    by apply list_elem_of_singleton in H as ->.
Qed.

(** A comparison with NaN on either side is false. *)
Lemma ltb_nan_l (y : Num.number) : Num.ltb Num.NaN y = false.
Proof. by destruct y. Qed.

Lemma ltb_nan_r (x : Num.number) : Num.ltb x Num.NaN = false.
Proof. by destruct x. Qed.

Lemma is_nan_eq (x : Num.number) : Num.is_nan x = true → x = Num.NaN.
Proof. by destruct x. Qed.

End ValidationFacts.

(** X7.  [flip] accepts two directions and no other value.  It answers
    with its error 40 and leaves the editor alone exactly when the direction
    is neither the string [horizontal] nor the string [vertical] (a missing
    direction included); for these two strings the editor's [flip], when it
    returns, has been called with the direction and the answer is a success
    naming it. *)
Theorem flip_accepts_two_directions {W} (app : App.t W) (params : obj) (w : W) :
  let direction := read params "direction" in
  ((∃ text w', MiniPaintRexxHandler.flip app params w
               = (Ret (MiniPaintRexxHandler.failed 40 text), w'))
   ↔ direction ∉ [VStr "horizontal"; VStr "vertical"])
  ∧ (direction ∉ [VStr "horizontal"; VStr "vertical"] →
     MiniPaintRexxHandler.flip app params w
     = (Ret (MiniPaintRexxHandler.failed 40 (VStr MiniPaintRexxHandler.flip_usage)), w))
  ∧ (direction ∈ [VStr "horizontal"; VStr "vertical"] →
     ∀ f w',
       MiniPaintRexxHandler.image_action app App.flip = Some f →
       f direction w = (Ret (), w') →
       MiniPaintRexxHandler.flip app params w
       = (Ret (MiniPaintRexxHandler.done ("Flipped " +:+ ToString direction)), w')).
Proof.
  intros direction.
  assert (direction ∉ [VStr "horizontal"; VStr "vertical"] →
          MiniPaintRexxHandler.flip app params w
          = (Ret (MiniPaintRexxHandler.failed 40 (VStr MiniPaintRexxHandler.flip_usage)), w))
    as Hbad.
  { intros Hnot. unfold MiniPaintRexxHandler.flip, try_catch. fold direction.
    destruct (negb (truthy direction)
              || negb (includes_str MiniPaintRexxHandler.directions direction)) eqn:E;
      [done|]. by apply direction_test in E. }
  split; [|split; [exact Hbad|]].
  - split; [|by eauto].
    intros (text & w' & Hflip) Hin.
    apply direction_test in Hin as Htest.
    unfold MiniPaintRexxHandler.flip, try_catch in Hflip. fold direction in Hflip.
    rewrite Htest in Hflip.
    destruct (MiniPaintRexxHandler.image_action app App.flip) as [f|].
    + unfold bind, ret in Hflip. destruct (f direction w) as [[[]|e] w1].
      * by injection Hflip.
      * unfold MiniPaintRexxHandler.caught, bind, message_of, ret in Hflip.
        destruct (read_message e); [|done].
        injection Hflip as Hcode _ _. by vm_compute in Hcode.
    + unfold ret in Hflip. injection Hflip as Hcode _ _. by vm_compute in Hcode.
  - intros Hin f w' Hf Hcall. apply direction_test in Hin as Htest.
    unfold MiniPaintRexxHandler.flip, try_catch. fold direction.
    rewrite Htest, Hf. unfold bind. by rewrite Hcall.
Qed.

(** X8.  An opacity that is not a number passes the range check of
    [setOpacity]: when [layer] and [opacity] are both given and the opacity
    converts to NaN (a text such as [half], or NaN itself), neither
    comparison holds, the editor's [setOpacity] is called with the value as
    it is, and the answer is a success. *)
Theorem setOpacity_not_a_number {W} (app : App.t W) (params : obj) (w w' : W)
    (f : value → value → M W ()) :
  let layer := read params "layer" in
  let opacity := read params "opacity" in
  layer ≠ VUndef → opacity ≠ VUndef → isNaN opacity = true →
  (layers ← App.Layers app; App.setOpacity layers) = Some f →
  f layer opacity w = (Ret (), w') →
  MiniPaintRexxHandler.setOpacity app params w
  = (Ret (MiniPaintRexxHandler.done
            ("Set layer " +:+ ToString layer +:+ " opacity to " +:+ ToString opacity)), w').
Proof.
  intros layer opacity Hlayer Hopacity Hnan Hf Hcall.
  unfold MiniPaintRexxHandler.setOpacity, try_catch. fold layer opacity.
  rewrite !strict_eq_undefined.
  rewrite !bool_decide_eq_false_2 by done. cbn [orb].
  unfold lt_num, gt_num. unfold isNaN in Hnan. apply is_nan_eq in Hnan. rewrite Hnan.
  rewrite ltb_nan_l, ltb_nan_r. cbn [orb].
  rewrite Hf. unfold bind. by rewrite Hcall.
Qed.

Lemma setOpacity_not_a_number_witness :
  let params : obj := {[ "layer" := VInt 1; "opacity" := VStr "half" ]} in
  MiniPaintRexxHandler.setOpacity Sample.editor params ()
  = (Ret (MiniPaintRexxHandler.done
            ("Set layer " +:+ ToString (read params "layer")
             +:+ " opacity to " +:+ ToString (read params "opacity"))), ()).
Proof.
  intros params.
  apply (setOpacity_not_a_number Sample.editor params () () (λ _ _, ret ()));
    first [reflexivity | by vm_compute].
Defined.

(** ** The worker bridge *)

(** X9.  What the worker's listener does with a request.  The command
    always returns an envelope, so the listener first posts one response
    that bears the id of the request and carries the envelope, with the
    envelope's [success] as its own and no [error] text; when the port
    takes it, that is the answer.  The [catch] is entered only when that
    post throws: the listener then posts [success: false] with the message
    of what the post threw, under the same id, and it fails itself when
    that second post throws too or the thrown value has no [message] to
    read.  Either way the command has run once.  Any other message is
    ignored. *)
Theorem worker_always_answers {W} (app : App.t W)
    (postMessage : ControlBus.message → outcome unit)
    (id : option Z) (method : value) (params : obj) (w : W) :
  (∃ env w',
     MiniPaintRexxHandler.run app method params w = (Ret env, w')
     ∧ let first :=
         ControlBus.RpcResponse id (success env) (ControlBus.Reply env) VUndef in
       ControlBus.worker_on_message app postMessage
         (ControlBus.RpcRequest id method params) w
       = match postMessage first with
         | Ret _ => (Ret (Some first), w')
         | Throw error =>
             match read_message error with
             | Ret msg =>
                 let second :=
                   ControlBus.RpcResponse id (VBool false)
                     (ControlBus.Primitive VUndef) msg in
                 match postMessage second with
                 | Ret _ => (Ret (Some second), w')
                 | Throw failure => (Throw failure, w')
                 end
             | Throw failure => (Throw failure, w')
             end
         end)
  ∧ (∀ answer w',
       ControlBus.worker_on_message app postMessage
         (ControlBus.RpcRequest id method params) w = (Ret (Some answer), w') →
       postMessage answer = Ret ()
       ∧ ∃ ok result error, answer = ControlBus.RpcResponse id ok result error)
  ∧ (∀ data,
       (∀ i m p, data ≠ ControlBus.RpcRequest i m p) →
       ControlBus.worker_on_message app postMessage data w = (Ret None, w)).
Proof.
  destruct (run_returns app method params w) as (env & w' & Hrun).
  assert (ControlBus.worker_on_message app postMessage
            (ControlBus.RpcRequest id method params) w
          = match postMessage (ControlBus.RpcResponse id (success env)
                                 (ControlBus.Reply env) VUndef) with
            | Ret _ => (Ret (Some (ControlBus.RpcResponse id (success env)
                                     (ControlBus.Reply env) VUndef)), w')
            | Throw error =>
                match read_message error with
                | Ret msg =>
                    match postMessage (ControlBus.RpcResponse id (VBool false)
                                         (ControlBus.Primitive VUndef) msg) with
                    | Ret _ => (Ret (Some (ControlBus.RpcResponse id (VBool false)
                                             (ControlBus.Primitive VUndef) msg)), w')
                    | Throw failure => (Throw failure, w')
                    end
                | Throw failure => (Throw failure, w')
                end
            end) as Hlistener.
  { unfold ControlBus.worker_on_message, ControlBus.executeCommand, ControlBus.post,
      try_catch, bind, message_of.
    rewrite Hrun.
    destruct (postMessage _) as [[]|error]; [done|].
    destruct (read_message error) as [msg|failure]; [|done].
    by destruct (postMessage _) as [[]|failure]. }
  split; [|split].
  - by exists env, w'.
  - intros answer w'' Hanswer. rewrite Hlistener in Hanswer.
    destruct (postMessage _) as [[]|error] eqn:Hfirst.
    { injection Hanswer as <- _. split; [done|]. by eauto. }
    destruct (read_message error) as [msg|failure]; [|done].
    destruct (postMessage (ControlBus.RpcResponse id (VBool false) _ msg))
      as [[]|failure] eqn:Hsecond; [|done].
    injection Hanswer as <- _. split; [done|]. by eauto.
  - intros [i m p| |] Hother; [|done..]. by destruct (Hother i m p).
Qed.

(** ** The director bridge: counting *)
Section DirectorCounting.
Import ControlBus.

Lemma on_message_frame (data : message) (d : Director) :
  requestId (on_message data d) = requestId d
  ∧ posted (on_message data d) = posted d.
Proof.
  destruct data as [| [id|] ok res err |]; simpl; try done.
  by destruct (pendingRequests d !! id).
Qed.

Lemma fire_frame (tid : Z) (d : Director) :
  requestId (fire tid d) = requestId d ∧ posted (fire tid d) = posted d.
Proof.
  unfold fire. destruct (timers d !! tid) as [t|]; [|done].
  by destruct (deadline t <=? now d).
Qed.

(** The requests posted so far bear the ids 1, 2, ... in order. *)
Lemma step_posted (d : Director) (e : event) :
  requestId d < 2 ^ 53 →
  Z.of_nat (length (posted d)) = requestId d →
  (∀ i msg, posted d !! i = Some msg →
     ∃ m p, msg = RpcRequest (Some (Z.of_nat i + 1)) m p) →
  Z.of_nat (length (posted (step d e))) = requestId (step d e)
  ∧ ∀ i msg, posted (step d e) !! i = Some msg →
      ∃ m p, msg = RpcRequest (Some (Z.of_nat i + 1)) m p.
Proof.
  intros Hlt Hlen Hids. destruct e as [m p|data|tid|ms|ms]; simpl.
  - rewrite (increment_fresh _ Hlt). split.
    + rewrite length_app. simpl. lia.
    + intros i msg [[_ H]|[-> <-]]%lookup_snoc_Some; [by eauto|].
      rewrite Hlen. by eauto.
  - destruct (on_message_frame data d) as [-> ->]. done.
  - destruct (fire_frame tid d) as [-> ->]. done.
  - done.
  - done.
Qed.

Lemma steps_posted (es : list event) (d : Director) :
  requestId d + Z.of_nat (length es) ≤ 2 ^ 53 →
  Z.of_nat (length (posted d)) = requestId d →
  (∀ i msg, posted d !! i = Some msg →
     ∃ m p, msg = RpcRequest (Some (Z.of_nat i + 1)) m p) →
  Z.of_nat (length (posted (steps d es))) = requestId (steps d es)
  ∧ ∀ i msg, posted (steps d es) !! i = Some msg →
      ∃ m p, msg = RpcRequest (Some (Z.of_nat i + 1)) m p.
Proof.
  revert d. induction es as [|e es IH]; intros d Hbound Hlen Hids; simpl in *; [done|].
  pose proof (step_requestId d e) as Hstep.
  destruct (step_posted d e) as [Hlen' Hids']; [lia|done|done|].
  apply IH; [lia|done|done].
Qed.

(** Every request is pending or resolved, and every pending request has
    its timer. *)
Lemma step_counts (d : Director) (e : event) :
  consistent d → requestId d < 2 ^ 53 →
  size (timers d) = size (pendingRequests d) →
  Z.of_nat (size (pendingRequests d)) + Z.of_nat (length (resolutions d)) = requestId d →
  size (timers (step d e)) = size (pendingRequests (step d e))
  ∧ Z.of_nat (size (pendingRequests (step d e)))
    + Z.of_nat (length (resolutions (step d e))) = requestId (step d e).
Proof.
  intros Hc Hlt Hsize Hsum.
  assert (∀ id tid s,
            is_Some (pendingRequests d !! id) → is_Some (timers d !! tid) →
            size (delete tid (timers d)) = size (delete id (pendingRequests d))
            ∧ Z.of_nat (size (delete id (pendingRequests d)))
              + Z.of_nat (length (resolutions d ++ [(id, s)])) = requestId d)
    as Hresolve.
  { intros id tid s Hid Htid.
    rewrite !map_size_delete_Some by done.
    apply map_size_ne_0_lookup_2 in Hid. rewrite length_app. simpl. lia. }
  destruct e as [m p|data|tid|ms|ms]; simpl; try done.
  - rewrite (increment_fresh _ Hlt).
    rewrite !map_size_insert_None; [lia| |].
    + destruct (pendingRequests d !! (requestId d + 1)) as [x|] eqn:E; [|done].
      apply (pending_sound d Hc) in E as [? _]. lia.
    + destruct (timers d !! nextTimeoutId d) as [x|] eqn:E; [|done].
      apply (timers_sound d Hc) in E as [? _]. lia.
  - destruct data as [| [id|] ok res err |]; simpl; try done.
    destruct (pendingRequests d !! id) as [x|] eqn:E; [|done]. simpl.
    destruct (pending_sound d Hc id x E) as (_ & (t & Ht & _) & _).
    apply Hresolve; by eauto.
  - unfold fire. destruct (timers d !! tid) as [t|] eqn:E; [|done].
    destruct (deadline t <=? now d); [|done]. simpl.
    destruct (timers_sound d Hc tid t E) as (_ & x & Hx & _).
    apply Hresolve; by eauto.
Qed.

Lemma steps_counts (es : list event) (d : Director) :
  consistent d → requestId d + Z.of_nat (length es) ≤ 2 ^ 53 →
  size (timers d) = size (pendingRequests d) →
  Z.of_nat (size (pendingRequests d)) + Z.of_nat (length (resolutions d)) = requestId d →
  size (timers (steps d es)) = size (pendingRequests (steps d es))
  ∧ Z.of_nat (size (pendingRequests (steps d es)))
    + Z.of_nat (length (resolutions (steps d es))) = requestId (steps d es).
Proof.
  revert d. induction es as [|e es IH]; intros d Hc Hbound Hsize Hsum; simpl in *; [done|].
  pose proof (step_requestId d e) as Hstep.
  destruct (step_counts d e) as [Hsize' Hsum']; [done|lia|done|done|].
  apply IH; [apply step_consistent; [done|lia] | lia | done | done].
Qed.

(** What a settled promise holds. *)
Lemma settle_lookup_inv (p q : nat) (s x : promise payload) (ps : list (promise payload)) :
  settle p s ps !! q = Some x → ps !! q = Some x ∨ x = s.
Proof.
  unfold settle. destruct (ps !! p) as [[]|]; auto.
  intros [[_ [<- _]]|[_ H]]%list_lookup_insert_Some; auto.
Qed.

(** The director rejects with [Error] objects only. *)
Lemma step_rejections (d : Director) (e : event) :
  (∀ p r, promises d !! p = Some (Rejected r) → ∃ text, r = Error text) →
  ∀ p r, promises (step d e) !! p = Some (Rejected r) → ∃ text, r = Error text.
Proof.
  intros H. destruct e as [m ps|data|tid|ms|ms]; simpl; try done.
  - intros p r [[_ Hp]|[_ Hp]]%lookup_snoc_Some; [by eauto|done].
  - destruct data as [| [id|] ok res err |]; simpl; try done.
    destruct (pendingRequests d !! id) as [x|]; [|done]. simpl.
    intros p r [Hp|Hp]%settle_lookup_inv; [by eauto|].
    destruct (truthy ok); [done|]. injection Hp as ->. by eexists.
  - unfold fire. destruct (timers d !! tid) as [t|]; [|done].
    destruct (deadline t <=? now d); [|done]. simpl.
    intros p r [Hp|Hp]%settle_lookup_inv; [by eauto|].
    injection Hp as ->. by eexists.
Qed.

Lemma steps_rejections (es : list event) (d : Director) :
  (∀ p r, promises d !! p = Some (Rejected r) → ∃ text, r = Error text) →
  ∀ p r, promises (steps d es) !! p = Some (Rejected r) → ∃ text, r = Error text.
Proof.
  revert d. induction es as [|e es IH]; intros d H; simpl; [done|].
  apply IH. by apply step_rejections.
Qed.

(** A request that has just been sent, and its response. *)
Lemma sendRPC_then_response (method : value) (params : obj) (d : Director)
    (ok : value) (res : payload) (err : value) :
  let sent := sendRPC method params d in
  let response := RpcResponse (Some (increment (requestId d))) ok res err in
  promises (on_message response sent.1) !! sent.2
  = Some (if truthy ok then Fulfilled res
          else Rejected (Error (ToString (or_else err (VStr "Unknown error"))))).
Proof.
  intros sent response. unfold sent, response, sendRPC. simpl.
  rewrite lookup_insert_eq. simpl. apply settle_pending.
  rewrite lookup_app_r by done. by rewrite Nat.sub_diag.
Qed.

End DirectorCounting.

(** X10.  The requests the director has posted bear the ids 1, 2, 3, ...
    in the order of the calls, and their number is the counter
    [requestId]: no id is skipped and none is used twice (for fewer than
    [2^53] events). *)
Theorem request_ids_run_from_one (clock : Z) (es : list ControlBus.event) :
  Z.of_nat (length es) ≤ 2 ^ 53 →
  let d := ControlBus.steps (ControlBus.init clock) es in
  Z.of_nat (length (ControlBus.posted d)) = ControlBus.requestId d
  ∧ ∀ i msg,
      ControlBus.posted d !! i = Some msg →
      ∃ method params,
        msg = ControlBus.RpcRequest (Some (Z.of_nat i + 1)) method params.
Proof.
  intros Hlen d. apply steps_posted; simpl; [lia|done|done].
Qed.

Lemma request_ids_run_from_one_witness :
  let d := ControlBus.steps (ControlBus.init 0)
             [ControlBus.Send (VStr "undo") ∅; ControlBus.Elapse 5;
              ControlBus.Send (VStr "redo") ∅] in
  Z.of_nat (length (ControlBus.posted d)) = ControlBus.requestId d
  ∧ ∀ i msg,
      ControlBus.posted d !! i = Some msg →
      ∃ method params,
        msg = ControlBus.RpcRequest (Some (Z.of_nat i + 1)) method params.
Proof.
  apply (request_ids_run_from_one 0
           [ControlBus.Send (VStr "undo") ∅; ControlBus.Elapse 5;
            ControlBus.Send (VStr "redo") ∅]).
  simpl. lia.
Defined.

(** X11.  Nothing is lost and nothing leaks.  In every state the director
    reaches (within [2^53] events), the armed timers are as many as the
    pending requests, and the pending requests together with the calls of
    [resolve] and [reject] made so far are as many as the requests sent:
    every request is either pending or has been resolved. *)
Theorem requests_pending_or_resolved (clock : Z) (es : list ControlBus.event) :
  Z.of_nat (length es) ≤ 2 ^ 53 →
  let d := ControlBus.steps (ControlBus.init clock) es in
  size (ControlBus.timers d) = size (ControlBus.pendingRequests d)
  ∧ Z.of_nat (size (ControlBus.pendingRequests d))
    + Z.of_nat (length (ControlBus.resolutions d))
    = ControlBus.requestId d.
Proof.
  intros Hlen d. apply steps_counts; simpl; [apply init_consistent|lia|done|done].
Qed.

Lemma requests_pending_or_resolved_witness :
  let d := ControlBus.steps (ControlBus.init 0)
             [ControlBus.Send (VStr "undo") ∅; ControlBus.Send (VStr "redo") ∅;
              ControlBus.Message
                (ControlBus.RpcResponse (Some 2) (VBool true)
                   (ControlBus.Primitive VUndef) VUndef)] in
  size (ControlBus.timers d) = size (ControlBus.pendingRequests d)
  ∧ Z.of_nat (size (ControlBus.pendingRequests d))
    + Z.of_nat (length (ControlBus.resolutions d))
    = ControlBus.requestId d.
Proof.
  apply (requests_pending_or_resolved 0
           [ControlBus.Send (VStr "undo") ∅; ControlBus.Send (VStr "redo") ∅;
            ControlBus.Message
              (ControlBus.RpcResponse (Some 2) (VBool true)
                 (ControlBus.Primitive VUndef) VUndef)]).
  simpl. lia.
Defined.

(** X12.  The function made by [createAddressHandler] never rejects.
    Whatever the promise of [sendRPC] has become in a state the director
    reaches, the reply is pending or an envelope; a rejection, which the
    director only ever makes with an [Error], comes back as
    [success: false], code 99 and the text [RPC Error: ] followed by the
    message. *)
Theorem address_handler_never_rejects (clock : Z) (es : list ControlBus.event)
    (p : nat) (s : promise ControlBus.payload) :
  ControlBus.promises (ControlBus.steps (ControlBus.init clock) es) !! p = Some s →
  (∀ e, ControlBus.address_reply s ≠ Rejected e)
  ∧ (∀ e, s = Rejected e →
       ∃ text,
         e = Error text
         ∧ ControlBus.address_reply s
           = Fulfilled {| success := VBool false; errorCode := VInt 99;
                          output := VStr ("RPC Error: " +:+ text);
                          result := VUndef |}).
Proof.
  intros Hs.
  assert (∀ e, s = Rejected e → ∃ text, e = Error text) as Herr.
  { intros e ->. apply (steps_rejections es (ControlBus.init clock)) in Hs; [done|].
    intros q r H. by simpl in H. }
  split.
  - intros e. destruct s as [|[v|received]|r]; [done|by destruct v|done|].
    destruct (Herr r eq_refl) as [text ->]. done.
  - intros e ->. destruct (Herr e eq_refl) as [text ->]. by exists text.
Qed.

Lemma address_handler_never_rejects_witness :
  let s := Rejected (Error "RPC request 1 (undo) timed out after 30000ms") in
  (∀ e, ControlBus.address_reply s ≠ Rejected e)
  ∧ (∀ e, s = Rejected e →
       ∃ text,
         e = Error text
         ∧ ControlBus.address_reply s
           = Fulfilled {| success := VBool false; errorCode := VInt 99;
                          output := VStr ("RPC Error: " +:+ text);
                          result := VUndef |}).
Proof.
  apply (address_handler_never_rejects 0
           [ControlBus.Send (VStr "undo") ∅; ControlBus.Elapse 30000; ControlBus.Fire 1]
           0%nat).
  by vm_compute.
Defined.

(** ** Across the bus *)
Section AcrossTheBus.
Context {W : Type}.
Variable app : App.t W.

Import MiniPaintRexxHandler.

Lemma or_else_idem (a b : value) : or_else (or_else a b) b = or_else a b.
Proof.
  unfold or_else. destruct (truthy a) eqn:E; [by rewrite E|]. by destruct (truthy b).
Qed.

(** An envelope of [run] that reports success was built from what a
    handler returned. *)
Lemma run_success_normalized (commandString : value) (params : obj) (w w' : W)
    (env : Envelope) :
  run app commandString params w = (Ret env, w') →
  success env = VBool true →
  ∃ r, env = normalize r.
Proof.
  intros Hrun Hok.
  destruct (App.Layers app) as [layers|] eqn:Hinit.
  2: { rewrite run_not_initialized in Hrun by done. by injection Hrun as <- _. }
  assert (is_Some (App.Layers app)) as Hsome by (rewrite Hinit; eauto).
  destruct (lookup_handler app (method_and_args commandString params).1)
    as [handler|] eqn:Hlook.
  2: { rewrite run_unknown in Hrun by done. by injection Hrun as <- _. }
  destruct (call handler (method_and_args commandString params).2 w)
    as [[r|e] w1] eqn:Hcall.
  - rewrite (run_returned app _ _ _ _ _ _ Hsome Hlook Hcall) in Hrun.
    injection Hrun as <- _. by exists r.
  - destruct (member_throws app _ _ _ _ _ _ Hlook Hcall) as [text ->].
    rewrite (run_threw app _ _ _ _ _ _ Hsome Hlook Hcall) in Hrun.
    by injection Hrun as <- _.
Qed.

(** A method without white space parses to itself, without parameters. *)
Lemma parseCommand_bare (m : string) :
  Str.has_space m = false → parseCommand m = {| method := m; params := ∅ |}.
Proof.
  intros Hm. unfold parseCommand, Str.trim.
  rewrite trimStart_plain, trimEnd_plain by done.
  destruct m as [|c m]; [done|].
  unfold Str.split_ws. by rewrite split_ws_go_plain.
Qed.

Lemma method_has_no_space (s : string) : Str.has_space (method (parseCommand s)) = false.
Proof.
  unfold parseCommand.
  destruct (command_tokens s) as [[_ ->]|[_ Htokens]]; [done|].
  destruct (Str.split_ws (Str.trim s)) as [|m toks]; [done|].
  apply Forall_cons in Htokens as [[_ Hm] _]. done.
Qed.

(** The commands that test parameters, sent as a bare method: [run] does
    not look at the parameter object next to it. *)
Lemma run_bare_method (m : string) (keys : list string) (code : Z)
    (params : obj) (w : W) :
  is_Some (App.Layers app) →
  (m, (keys, code)) ∈ required_parameters →
  ∃ text,
    run app (VStr m) params w
    = (Ret {| success := VBool false; errorCode := VInt code;
              output := VStr text; result := VStr "" |}, w).
Proof.
  intros Hinit Hin. unfold required_parameters in Hin.
  repeat (apply elem_of_cons in Hin as [Hin|Hin];
          [ injection Hin as -> -> ->;
            eexists;
            etrans;
            [ eapply run_returned;
              [ done
              | reflexivity
              | first [ apply (openImage_missing app _ _ "file")
                      | apply (resize_missing app _ _ "width")
                      | apply (rotate_missing app _ _ "angle")
                      | apply (flip_missing app _ _ "direction")
                      | apply (crop_missing app _ _ "x1")
                      | apply (applyEffect_missing app _ _ "name")
                      | apply (deleteLayer_missing app _ _ "id")
                      | apply (setOpacity_missing app _ _ "layer")
                      | apply (saveImage_missing app _ _ "output") ];
                [ by left | reflexivity ] ]
            | reflexivity ]
          | ]).
  by apply elem_of_nil in Hin.
Qed.

End AcrossTheBus.

(** X13.  A command that succeeds crosses the bus unchanged.  When [run]
    on the worker returns an envelope with [success: true] and the port
    takes the worker's response, that response fulfils the promise of the
    request with that envelope, and the function made by
    [createAddressHandler] returns the very same four fields to the
    script. *)
Theorem successful_command_crosses_bus {W} (app : App.t W) (w w' : W)
    (postMessage : ControlBus.message → outcome unit)
    (d : ControlBus.Director) (id : Z) (entry : ControlBus.PendingRequest)
    (method : value) (params : obj) (env : Envelope) :
  MiniPaintRexxHandler.run app method params w = (Ret env, w') →
  success env = VBool true →
  postMessage (ControlBus.RpcResponse (Some id) (success env) (ControlBus.Reply env) VUndef)
  = Ret () →
  ControlBus.pendingRequests d !! id = Some entry →
  ControlBus.promises d !! ControlBus.promiseId entry = Some Pending →
  ∃ response,
    ControlBus.worker_on_message app postMessage
      (ControlBus.RpcRequest (Some id) method params) w
    = (Ret (Some response), w')
    ∧ ControlBus.promises (ControlBus.on_message response d) !! ControlBus.promiseId entry
      = Some (Fulfilled (ControlBus.Reply env))
    ∧ ControlBus.address_reply (Fulfilled (ControlBus.Reply env)) = Fulfilled env.
Proof.
  intros Hrun Hok Hpost He Hpend. eexists. split; [|split].
  - unfold ControlBus.worker_on_message, ControlBus.executeCommand, ControlBus.post,
      try_catch, bind.
    rewrite Hrun, Hpost. reflexivity.
  - simpl. rewrite He, Hok. simpl. by apply settle_pending.
  - destruct (run_success_normalized app _ _ _ _ _ Hrun Hok) as [r ->].
    unfold ControlBus.address_reply, MiniPaintRexxHandler.normalize. simpl.
    by rewrite !or_else_idem.
Qed.

Lemma successful_command_crosses_bus_witness :
  let d := (ControlBus.sendRPC (VStr "undo") ∅ (ControlBus.init 0)).1 in
  let env := {| success := VBool true; errorCode := VInt 0;
                output := VStr "Undo performed"; result := VStr "" |} in
  ∃ response,
    ControlBus.worker_on_message Sample.editor ControlBus.open_port
      (ControlBus.RpcRequest (Some 1) (VStr "undo") ∅) ()
    = (Ret (Some response), ())
    ∧ ControlBus.promises (ControlBus.on_message response d) !! 0%nat
      = Some (Fulfilled (ControlBus.Reply env))
    ∧ ControlBus.address_reply (Fulfilled (ControlBus.Reply env)) = Fulfilled env.
Proof.
  intros d env.
  apply (successful_command_crosses_bus Sample.editor () () ControlBus.open_port d 1
           {| ControlBus.timeoutId := 1; ControlBus.promiseId := 0 |}
           (VStr "undo") ∅ env); by vm_compute.
Defined.

(** X14.  The convenience methods that carry arguments ([openImage],
    [resize], [rotate], [flip], [crop], [applyEffect]) post the method
    name next to a parameter object, and [run] on the worker parses the
    name alone.  Whatever the arguments, an initialised editor is not
    touched, the worker answers (over a port that takes its messages) with
    the missing-parameter code of the command, and the director rejects the
    promise of the call with [Unknown error]. *)
Theorem convenience_calls_lose_arguments {W} (app : App.t W) (w : W)
    (postMessage : ControlBus.message → outcome unit)
    (d : ControlBus.Director)
    (file width height angle direction x1 y1 x2 y2 name : value) (effectParams : obj)
    (call : ControlBus.Director → ControlBus.Director * nat) :
  is_Some (App.Layers app) →
  (∀ msg, postMessage msg = Ret ()) →
  call ∈ [ControlBus.openImage file; ControlBus.resize width height;
          ControlBus.rotate angle; ControlBus.flip direction;
          ControlBus.crop x1 y1 x2 y2; ControlBus.applyEffect name effectParams] →
  let sent := call d in
  ∃ request code text,
    last (ControlBus.posted sent.1) = Some request
    ∧ code ∈ [10; 20; 30; 40; 50; 60]
    ∧ let response :=
        ControlBus.RpcResponse (Some (ControlBus.increment (ControlBus.requestId d)))
          (VBool false)
          (ControlBus.Reply {| success := VBool false; errorCode := VInt code;
                               output := VStr text; result := VStr "" |})
          VUndef in
      ControlBus.worker_on_message app postMessage request w = (Ret (Some response), w)
      ∧ ControlBus.promises (ControlBus.on_message response sent.1) !! sent.2
        = Some (Rejected (Error "Unknown error")).
Proof.
  intros Hinit Hport Hcall sent.
  assert (∀ m keys code params,
            (m, (keys, code)) ∈ MiniPaintRexxHandler.required_parameters →
            code ∈ [10; 20; 30; 40; 50; 60] →
            call = ControlBus.sendRPC (VStr m) params →
            ∃ request code text,
              last (ControlBus.posted sent.1) = Some request
              ∧ code ∈ [10; 20; 30; 40; 50; 60]
              ∧ let response :=
                  ControlBus.RpcResponse
                    (Some (ControlBus.increment (ControlBus.requestId d)))
                    (VBool false)
                    (ControlBus.Reply {| success := VBool false; errorCode := VInt code;
                                         output := VStr text; result := VStr "" |})
                    VUndef in
                ControlBus.worker_on_message app postMessage request w
                = (Ret (Some response), w)
                ∧ ControlBus.promises (ControlBus.on_message response sent.1) !! sent.2
                  = Some (Rejected (Error "Unknown error"))) as Hsend.
  { intros m keys code params Hreq Hcode ->.
    destruct (run_bare_method app m keys code params w Hinit Hreq) as [text Hrun].
    exists (ControlBus.RpcRequest (Some (ControlBus.increment (ControlBus.requestId d)))
              (VStr m) params), code, text.
    split; [apply last_snoc|]. split; [done|]. split.
    - unfold ControlBus.worker_on_message, ControlBus.executeCommand, ControlBus.post,
        try_catch, bind.
      by rewrite Hrun, Hport.
    - apply (sendRPC_then_response (VStr m) params d (VBool false)). }
  unfold ControlBus.openImage, ControlBus.resize, ControlBus.rotate, ControlBus.flip,
    ControlBus.crop, ControlBus.applyEffect in Hcall.
  repeat (apply elem_of_cons in Hcall as [Hcall|Hcall];
          [ eapply Hsend; [| |exact Hcall];
            [ solve [repeat first [apply list_elem_of_here | apply list_elem_of_further]]
            | apply (bool_decide_unpack _); by vm_compute ]
          | ]).
  by apply elem_of_nil in Hcall.
Qed.

Lemma convenience_calls_lose_arguments_witness :
  let sent := ControlBus.resize (VInt 800) (VInt 600) (ControlBus.init 0) in
  ∃ request code text,
    last (ControlBus.posted sent.1) = Some request
    ∧ code ∈ [10; 20; 30; 40; 50; 60]
    ∧ let response :=
        ControlBus.RpcResponse
          (Some (ControlBus.increment (ControlBus.requestId (ControlBus.init 0))))
          (VBool false)
          (ControlBus.Reply {| success := VBool false; errorCode := VInt code;
                               output := VStr text; result := VStr "" |})
          VUndef in
      ControlBus.worker_on_message Sample.editor ControlBus.open_port request ()
      = (Ret (Some response), ())
      ∧ ControlBus.promises (ControlBus.on_message response sent.1) !! sent.2
        = Some (Rejected (Error "Unknown error")).
Proof.
  apply (convenience_calls_lose_arguments Sample.editor () ControlBus.open_port
           (ControlBus.init 0)
           VUndef (VInt 800) (VInt 600) VUndef VUndef VUndef VUndef VUndef VUndef VUndef ∅
           (ControlBus.resize (VInt 800) (VInt 600))).
  - by eexists.
  - done.
  - right. left.
Defined.

(** X15.  A command string handed to the function made by
    [createAddressHandler]: when it holds a space it is split as
    [parseCommand] splits it, and the method that is sent holds no white
    space, so that [run] on the worker, which parses the method again,
    calls the handler with an empty parameter object. *)
Theorem address_handler_parameters_stop_at_worker (s : string) (given : obj) :
  Str.contains_char " " s = true →
  let call := ControlBus.address_request (VStr s) given in
  call = (VStr (method (parseCommand s)), params (parseCommand s))
  ∧ MiniPaintRexxHandler.method_and_args call.1 call.2 = (method (parseCommand s), ∅).
Proof.
  intros Hspace call.
  assert (call = (VStr (method (parseCommand s)), params (parseCommand s))) as Hcall.
  { unfold call, ControlBus.address_request. by rewrite Hspace. }
  split; [done|]. rewrite Hcall. cbn [fst snd].
  unfold MiniPaintRexxHandler.method_and_args.
  by rewrite parseCommand_bare by apply method_has_no_space.
Qed.

Lemma address_handler_parameters_stop_at_worker_witness :
  let call := ControlBus.address_request (VStr "resize width=800 height=600") ∅ in
  call = (VStr (method (parseCommand "resize width=800 height=600")),
          params (parseCommand "resize width=800 height=600"))
  ∧ MiniPaintRexxHandler.method_and_args call.1 call.2
    = (method (parseCommand "resize width=800 height=600"), ∅).
Proof.
  apply (address_handler_parameters_stop_at_worker "resize width=800 height=600" ∅).
  reflexivity.
Defined.

(** ** The embedded script *)
Section ScriptFacts.

Lemma prefix_app (p b : string) : String.prefix p (p +:+ b) = true.
Proof.
  induction p as [|c p IH].
  - rewrite append_nil_l. by destruct b.
  - rewrite append_cons. cbn [String.prefix]. by destruct (ascii_dec c c).
Qed.

Lemma includes_prefix (p s : string) : String.prefix p s = true → Str.includes p s = true.
Proof. intros H. destruct s; unfold Str.includes; by rewrite H. Qed.

Lemma includes_app (p a b : string) : Str.includes p (a +:+ p +:+ b) = true.
Proof.
  induction a as [|c a IH].
  - rewrite append_nil_l. apply includes_prefix, prefix_app.
  - rewrite append_cons. simpl. rewrite IH. by rewrite orb_true_r.
Qed.

Lemma span_unquoted_body (body rest : string) :
  Str.contains_char JSON.dquote body = false →
  ExecuteRexx.span_unquoted (body +:+ ExecuteRexx.dquote +:+ rest)
  = (body, ExecuteRexx.dquote +:+ rest).
Proof.
  induction body as [|c body IH]; intros H.
  - rewrite append_nil_l. unfold ExecuteRexx.dquote. by rewrite append_cons.
  - unfold Str.contains_char in *. cbn [Str.existsb] in H.
    apply orb_false_iff in H as [Hc Hbody].
    rewrite append_cons. simpl. rewrite Hc. by rewrite IH.
Qed.

Lemma match_here_other (c : ascii) (r : string) :
  Ascii.eqb c "s" = false → ExecuteRexx.match_here (String c r) = None.
Proof.
  intros H. unfold ExecuteRexx.match_here, Str.startsWith. cbv zeta.
  change ("script=" +:+ ExecuteRexx.dquote)
    with (String "s" ("cript=" +:+ ExecuteRexx.dquote)).
  cbn [String.prefix]. destruct (ascii_dec "s" c) as [<-|]; [|done].
  by rewrite Ascii.eqb_refl in H.
Qed.

Lemma match_script_skip (prefix s : string) :
  Str.contains_char "s" prefix = false →
  ExecuteRexx.match_script (prefix +:+ s) = ExecuteRexx.match_script s.
Proof.
  induction prefix as [|c prefix IH]; intros H; [done|].
  unfold Str.contains_char in *. cbn [Str.existsb] in H.
  apply orb_false_iff in H as [Hc Hprefix].
  rewrite append_cons. cbn [ExecuteRexx.match_script].
  rewrite match_here_other by done. by apply IH.
Qed.

Lemma match_here_script (body rest : string) :
  body ≠ "" → Str.contains_char JSON.dquote body = false →
  ExecuteRexx.match_here
    ("script=" +:+ ExecuteRexx.dquote +:+ body +:+ ExecuteRexx.dquote +:+ rest)
  = Some body.
Proof.
  intros Hne Hbody. unfold ExecuteRexx.match_here.
  replace ("script=" +:+ ExecuteRexx.dquote +:+ body +:+ ExecuteRexx.dquote +:+ rest)
    with (("script=" +:+ ExecuteRexx.dquote)
          +:+ body +:+ ExecuteRexx.dquote +:+ rest)
    by (by rewrite append_assoc).
  unfold Str.startsWith. rewrite prefix_app.
  change (Str.drop (String.length ("script=" +:+ ExecuteRexx.dquote))
            (("script=" +:+ ExecuteRexx.dquote)
             +:+ body +:+ ExecuteRexx.dquote +:+ rest))
    with (body +:+ ExecuteRexx.dquote +:+ rest).
  rewrite span_unquoted_body by done.
  destruct body; [done|]. unfold ExecuteRexx.dquote. by rewrite append_cons.
Qed.

Lemma match_script_here (s body : string) :
  ExecuteRexx.match_here s = Some body → ExecuteRexx.match_script s = Some body.
Proof. intros H. destruct s; cbn [ExecuteRexx.match_script]; by rewrite H. Qed.

End ScriptFacts.

(** X16.  The script of an [execute-rexx] command written into the command
    string: after any text without the letter [s], the first
    [script=<quote>body<quote>] with a body that is not empty and holds no
    double quote gives that body, whatever follows the closing quote, when
    the parameter object holds no script. *)
Theorem extract_script_from_command (prefix body rest : string) (params : obj) :
  Str.contains_char "s" prefix = false →
  body ≠ "" → Str.contains_char JSON.dquote body = false →
  truthy (read params "script") = false →
  ExecuteRexx.extract_script
    (prefix +:+ "script=" +:+ ExecuteRexx.dquote +:+ body +:+ ExecuteRexx.dquote +:+ rest)
    params
  = VStr body.
Proof.
  intros Hprefix Hne Hbody Hparam. unfold ExecuteRexx.extract_script.
  assert (truthy (or_else (read params "script") (VStr "")) = false) as ->.
  { unfold or_else. by rewrite Hparam. }
  cbn [negb andb].
  rewrite includes_app.
  rewrite match_script_skip by done.
  by rewrite (match_script_here _ body) by (by apply match_here_script).
Qed.

Lemma extract_script_from_command_witness :
  ExecuteRexx.extract_script
    ("execute-rexx " +:+ "script=" +:+ ExecuteRexx.dquote +:+ "SAY 1"
     +:+ ExecuteRexx.dquote +:+ " stopOnError=true")
    ∅
  = VStr "SAY 1".
Proof.
  apply (extract_script_from_command "execute-rexx " "SAY 1" " stopOnError=true" ∅);
    first [reflexivity | discriminate].
Defined.

Section ExecutorFacts.
Context {W : Type}.
Variable app : App.t W.

Import ExecuteRexx.

(** The loop over the commands never throws. *)
Lemma execute_returns (options : obj) (commands : list command) (l : Locals) (w : W) :
  ∃ l' w', execute app options commands l w = (Ret l', w').
Proof.
  revert l w. induction commands as [|[v|c ps|x v|] rest IH]; intros l w;
    cbn [execute].
  - by eexists _, _.
  - apply IH.
  - unfold bind at 1. unfold send, bind.
    destruct (run_returns app c (default ∅ ps) w) as (response & w1 & ->).
    unfold ret. cbv beta iota zeta.
    destruct (truthy (errorCode response)); [|apply IH].
    destruct (truthy (read options "stopOnError")); [by eexists _, _|apply IH].
  - apply IH.
  - apply IH.
Qed.

(** A return code that is not zero stays so to the end of the script. *)
Lemma execute_keeps_failure (options : obj) (commands : list command)
    (l l' : Locals) (w w' : W) :
  truthy (l_returnCode l) = true →
  execute app options commands l w = (Ret l', w') →
  truthy (l_returnCode l') = true.
Proof.
  revert l w. induction commands as [|[v|c ps|x v|] rest IH]; intros l w Hrc;
    cbn [execute].
  - by intros [= <- _].
  - by apply IH.
  - unfold bind at 1. unfold send, bind.
    destruct (run_returns app c (default ∅ ps) w) as (response & w1 & ->).
    unfold ret. cbv beta iota zeta.
    destruct (truthy (errorCode response)) eqn:Hcode.
    + destruct (truthy (read options "stopOnError")).
      * by intros [= <- _].
      * by apply IH.
    + by apply IH.
  - by apply IH.
  - by apply IH.
Qed.

(** A script of SAY commands only adds its lines to the output. *)
Lemma execute_say (options : obj) (vs : list value) (l : Locals) (w : W) :
  execute app options (SAY <$> vs) l w
  = (Ret {| l_output :=
              l_output l
              +:+ foldr (λ v rest, ToString (or_else v (VStr ""))
                                   +:+ String (ascii_of_N 10) "" +:+ rest) "" vs;
            l_result := l_result l; l_returnCode := l_returnCode l;
            l_variables := l_variables l |}, w).
Proof.
  revert l. induction vs as [|v vs IH]; intros l.
  - cbn [fmap list_fmap execute foldr]. rewrite append_nil_r. by destruct l.
  - cbn [fmap list_fmap execute foldr]. rewrite IH. unfold say.
    cbn [l_output l_result l_returnCode l_variables]. by rewrite !append_assoc.
Qed.

End ExecutorFacts.

(** X17.  An error is not forgotten.  Once the return code of a script is
    not zero (an ADDRESS command was answered with an error code), no later
    command brings it back to zero: whatever commands follow, with or
    without [stopOnError], the script ends with that kind of return code and
    reports [success: false]. *)
Theorem script_keeps_failure {W} (app : App.t W) (options : obj)
    (commands : list ExecuteRexx.command) (l l' : ExecuteRexx.Locals) (w w' : W) :
  truthy (ExecuteRexx.l_returnCode l) = true →
  ExecuteRexx.execute app options commands l w = (Ret l', w') →
  truthy (ExecuteRexx.returnCode (ExecuteRexx.finish l')) = true
  ∧ ExecuteRexx.script_success (ExecuteRexx.finish l') = VBool false.
Proof.
  intros Hrc Hexec.
  pose proof (execute_keeps_failure app options commands l l' w w' Hrc Hexec) as Hrc'.
  split; [done|]. unfold ExecuteRexx.finish. simpl. by rewrite truthy_not_zero.
Qed.

Lemma script_keeps_failure_witness :
  let failed_once :=
    {| ExecuteRexx.l_output := ""; ExecuteRexx.l_result := VStr "";
       ExecuteRexx.l_returnCode := VInt 20; ExecuteRexx.l_variables := None |} in
  let l' :=
    {| ExecuteRexx.l_output := ""; ExecuteRexx.l_result := VStr "Undo performed";
       ExecuteRexx.l_returnCode := VInt 20; ExecuteRexx.l_variables := None |} in
  truthy (ExecuteRexx.returnCode (ExecuteRexx.finish l')) = true
  ∧ ExecuteRexx.script_success (ExecuteRexx.finish l') = VBool false.
Proof.
  intros failed_once l'.
  apply (script_keeps_failure Sample.editor ∅
           [ExecuteRexx.ADDRESS (VStr "undo") None] failed_once l' () ());
    by vm_compute.
Defined.

(** X18.  A script that the parser reads as SAY commands only leaves the
    editor alone and resolves with [success: true], return code 0, an empty
    result, and as output the lines said, each followed by a line feed, the
    whole trimmed. *)
Theorem say_only_script {W} (app : App.t W) (engine : ExecuteRexx.RexxJS)
    (script : value) (options : obj) (vs : list value) (w : W) :
  ExecuteRexx.parse engine script = Ret (ExecuteRexx.SAY <$> vs) →
  ExecuteRexx.executeRexxScript app (Some engine) script options w
  = (Fulfilled
       {| ExecuteRexx.script_success := VBool true;
          ExecuteRexx.script_output :=
            VStr (Str.trim
                    (foldr (λ v rest, ToString (or_else v (VStr ""))
                                      +:+ String (ascii_of_N 10) "" +:+ rest) "" vs));
          ExecuteRexx.script_result := VStr "";
          ExecuteRexx.returnCode := VInt 0;
          ExecuteRexx.variables :=
            Some (default ∅ (ExecuteRexx.initial_variables engine)) |}, w).
Proof.
  intros Hparse. unfold ExecuteRexx.executeRexxScript. rewrite Hparse.
  rewrite execute_say. reflexivity.
Qed.

Lemma say_only_script_witness :
  ExecuteRexx.executeRexxScript Sample.editor (Some ExecuteRexx.saying_engine)
    (VStr "hello") ∅ ()
  = (Fulfilled
       {| ExecuteRexx.script_success := VBool true;
          ExecuteRexx.script_output :=
            VStr (Str.trim
                    (foldr (λ v rest, ToString (or_else v (VStr ""))
                                      +:+ String (ascii_of_N 10) "" +:+ rest) ""
                       [VStr "hello"]));
          ExecuteRexx.script_result := VStr "";
          ExecuteRexx.returnCode := VInt 0;
          ExecuteRexx.variables :=
            Some (default ∅ (ExecuteRexx.initial_variables ExecuteRexx.saying_engine)) |},
     ()).
Proof.
  apply (say_only_script Sample.editor ExecuteRexx.saying_engine (VStr "hello") ∅
           [VStr "hello"] ()).
  reflexivity.
Defined.

(** X19.  The handler installed by [setupRexxScriptExecution] always
    resolves with an envelope.  Whatever the command, the parameters, the
    engine (loaded or not) and what its parser does, the promise is neither
    rejected nor left pending; for [execute-rexx] the executor itself
    always resolves, so the branch with code 299 is never taken. *)
Theorem installed_handler_always_resolves {W} (app : App.t W)
    (rexx : option ExecuteRexx.RexxJS) (commandString : string) (params : obj) (w : W) :
  (∀ script options,
     ∃ r w', ExecuteRexx.executeRexxScript app rexx script options w = (Fulfilled r, w'))
  ∧ ∃ env w',
      ExecuteRexx.ADDRESS_MINIPAINT_HANDLER app rexx commandString params w
      = (Fulfilled env, w').
Proof.
  assert (∀ script options,
            ∃ r w', ExecuteRexx.executeRexxScript app rexx script options w
                    = (Fulfilled r, w')) as Hexec.
  { intros script options. unfold ExecuteRexx.executeRexxScript.
    destruct rexx as [engine|]; [|by eexists _, _].
    destruct (ExecuteRexx.parse engine script) as [commands|e].
    - match goal with |- context [ExecuteRexx.execute app ?o ?c ?l w] =>
        destruct (execute_returns app o c l w) as (l' & w' & ->) end.
      by eexists _, _.
    - destruct e; simpl; by eexists _, _. }
  split; [exact Hexec|].
  unfold ExecuteRexx.ADDRESS_MINIPAINT_HANDLER.
  destruct (Str.startsWith "execute-rexx" commandString).
  - destruct (negb (truthy (ExecuteRexx.extract_script commandString params)));
      [by eexists _, _|].
    destruct (Hexec (ExecuteRexx.extract_script commandString params) params)
      as (r & w' & ->).
    by eexists _, _.
  - destruct (run_returns app (VStr commandString) params w) as (env & w' & ->).
    by eexists _, _.
Qed.

(** ** Unknown commands *)
Section UnknownFacts.
Context {W : Type}.
Variable app : App.t W.

Import MiniPaintRexxHandler.

(** The names [this.handlers[method]] finds nothing under. *)
Lemma lookup_handler_None (m : string) :
  lookup_handler app m = None ↔ m ∉ ((handler_table app).*1 ++ inherited_names)%list.
Proof.
  unfold lookup_handler, handlers. rewrite not_elem_of_app. split.
  - destruct (list_to_map (handler_table app) !! m) as [f|] eqn:Hf; [done|].
    apply not_elem_of_list_to_map in Hf. intros Hproto. split; [done|].
    unfold Object_prototype in Hproto.
    destruct (String.eqb_spec m "constructor") as [|H1]; [done|].
    destruct (String.eqb_spec m "toString") as [|H2]; [done|].
    destruct (String.eqb_spec m "__proto__") as [|H3]; [done|].
    destruct (String.eqb_spec m "toLocaleString") as [|H4]; [done|].
    case_bool_decide as H5; [done|].
    unfold inherited_names. intros Hin. apply H5.
    repeat (apply elem_of_cons in Hin as [->|Hin];
            [ first [ done
                    | solve [repeat first [apply list_elem_of_here
                                          | apply list_elem_of_further]] ]
            | ]).
    by apply elem_of_nil in Hin.
  - intros [Hreg Hin]. apply not_elem_of_list_to_map in Hreg. rewrite Hreg.
    unfold inherited_names in Hin. unfold Object_prototype.
    destruct (String.eqb_spec m "constructor") as [->|H1].
    { destruct Hin. by left. }
    destruct (String.eqb_spec m "toString") as [->|H2].
    { destruct Hin. right. by left. }
    destruct (String.eqb_spec m "__proto__") as [->|H3].
    { destruct Hin. right. right. by left. }
    destruct (String.eqb_spec m "toLocaleString") as [->|H4].
    { destruct Hin. by do 6 right; left. }
    case_bool_decide as H5; [|done].
    destruct Hin.
    repeat (apply elem_of_cons in H5 as [->|H5];
            [ solve [repeat first [apply list_elem_of_here | apply list_elem_of_further]]
            | ]).
    by apply elem_of_nil in H5.
Qed.

Lemma or_else_not_undefined (v : value) : or_else v (VStr "") ≠ VUndef.
Proof. unfold or_else. destruct (truthy v) eqn:E; [|done]. by destruct v. Qed.

End UnknownFacts.

(** X20.  The unknown-command error is answered exactly for the names that
    are neither registered nor defined on [Object.prototype], which the
    registry object inherits from.  On an initialised editor, [run] returns
    code 2 with the text [Unknown command: ] and the method, without
    touching the editor, if and only if the method is none of the nineteen
    commands and none of the twelve inherited names. *)
Theorem unknown_command_exactly {W} (app : App.t W)
    (commandString : value) (params : obj) (w : W) :
  is_Some (App.Layers app) →
  let method := (MiniPaintRexxHandler.method_and_args commandString params).1 in
  MiniPaintRexxHandler.run app commandString params w
  = (Ret {| success := VBool false; errorCode := VInt 2;
            output := VStr ("Unknown command: " +:+ method); result := VUndef |}, w)
  ↔ method ∉ ((MiniPaintRexxHandler.handler_table app).*1
              ++ MiniPaintRexxHandler.inherited_names)%list.
Proof.
  intros Hinit method. rewrite <- lookup_handler_None. split.
  - intros Hrun.
    destruct (MiniPaintRexxHandler.lookup_handler app method) as [handler|] eqn:Hlook;
      [|done].
    destruct (MiniPaintRexxHandler.call handler
                (MiniPaintRexxHandler.method_and_args commandString params).2 w)
      as [[r|e] w1] eqn:Hcall.
    + rewrite (run_returned app _ _ _ _ _ _ Hinit Hlook Hcall) in Hrun.
      injection Hrun as _ _ _ Hresult _. by apply or_else_not_undefined in Hresult.
    + destruct (member_throws app _ _ _ _ _ _ Hlook Hcall) as [text ->].
      rewrite (run_threw app _ _ _ _ _ _ Hinit Hlook Hcall) in Hrun.
      injection Hrun as Hcode _ _. by vm_compute in Hcode.
  - intros Hlook. by apply run_unknown.
Qed.

Lemma unknown_command_exactly_witness :
  let method := (MiniPaintRexxHandler.method_and_args (VStr "paint it") ∅).1 in
  MiniPaintRexxHandler.run Sample.editor (VStr "paint it") ∅ ()
  = (Ret {| success := VBool false; errorCode := VInt 2;
            output := VStr ("Unknown command: " +:+ method); result := VUndef |}, ())
  ↔ method ∉ ((MiniPaintRexxHandler.handler_table Sample.editor).*1
              ++ MiniPaintRexxHandler.inherited_names)%list.
Proof.
  apply (unknown_command_exactly Sample.editor (VStr "paint it") ∅ ()). by eexists.
Defined.

(** ** Values that count as missing *)
Section MissingFacts.
Context {W : Type}.
Variable app : App.t W.

Import MiniPaintRexxHandler.

(** What the [catch] of a handler returns has the code of the [catch]. *)
Lemma caught_code (code : Z) (e : exn) (w w' : W) (r : Envelope) :
  caught code e w = (Ret r, w') → errorCode r = VInt code.
Proof.
  unfold caught, bind, message_of, ret. destruct (read_message e); [|done].
  by intros [= <- _].
Qed.

End MissingFacts.

(** X21.  Zero is a missing size for [resize] and a valid angle for
    [rotate].  [resize] answers with its error 20 exactly when the width or
    the height is falsy, so a width of 0 counts as missing; [rotate] answers
    with its error 30 exactly when the angle is [undefined], so that an
    angle of 0 reaches the editor. *)
Theorem resize_and_rotate_missing_values {W} (app : App.t W) (params : obj) (w : W) :
  ((∃ text w', MiniPaintRexxHandler.resize app params w
               = (Ret (MiniPaintRexxHandler.failed 20 text), w'))
   ↔ truthy (read params "width") = false ∨ truthy (read params "height") = false)
  ∧ ((∃ text w', MiniPaintRexxHandler.rotate app params w
                 = (Ret (MiniPaintRexxHandler.failed 30 text), w'))
     ↔ read params "angle" = VUndef).
Proof.
  split; split.
  - intros (text & w' & Hresize).
    destruct (truthy (read params "width")) eqn:Hw; [|by left].
    destruct (truthy (read params "height")) eqn:Hh; [|by right].
    unfold MiniPaintRexxHandler.resize, try_catch in Hresize.
    rewrite Hw, Hh in Hresize. cbn [negb orb] in Hresize.
    destruct (MiniPaintRexxHandler.image_action app App.resize) as [f|].
    + unfold bind, ret in Hresize.
      destruct (f (read params "width") (read params "height") w) as [[[]|e] w1].
      * by injection Hresize.
      * apply caught_code in Hresize. simpl in Hresize. by vm_compute in Hresize.
    + unfold ret in Hresize. injection Hresize as Hcode _ _. by vm_compute in Hcode.
  - intros Hfalsy. eexists _, w.
    unfold MiniPaintRexxHandler.resize, try_catch.
    destruct Hfalsy as [-> | ->]; cbn [negb orb]; rewrite ?orb_true_r; reflexivity.
  - intros (text & w' & Hrotate).
    destruct (decide (read params "angle" = VUndef)) as [|Hangle]; [done|].
    unfold MiniPaintRexxHandler.rotate, try_catch in Hrotate.
    rewrite strict_eq_undefined, bool_decide_eq_false_2 in Hrotate by done.
    destruct (MiniPaintRexxHandler.image_action app App.rotate) as [f|].
    + unfold bind, ret in Hrotate.
      destruct (f (read params "angle") w) as [[[]|e] w1].
      * by injection Hrotate.
      * apply caught_code in Hrotate. simpl in Hrotate. by vm_compute in Hrotate.
    + unfold ret in Hrotate. injection Hrotate as Hcode _ _. by vm_compute in Hcode.
  - intros Hangle. eexists _, w.
    unfold MiniPaintRexxHandler.rotate, try_catch. rewrite Hangle. reflexivity.
Qed.

(** X22.  What [add-layer] reports.  On an initialised editor whose
    [addLayer] is available and returns, the layer is created under the
    given name, or under [Layer] when no name is given (an empty name is
    kept), and the result of the command is the [id] of the layer the editor
    handed back, except that an [id] that is falsy, such as 0, and a
    missing layer both come out as the empty string. *)
Theorem add_layer_reports_id {W} (app : App.t W) (s : string) (any : obj) (w w' : W)
    (f : value → M W (option (App.Layer))) (layer : option App.Layer) :
  is_Some (App.Layers app) →
  method (parseCommand s) = "add-layer" →
  (layers ← App.Layers app; App.addLayer layers) = Some f →
  let given := read (params (parseCommand s)) "name" in
  let name := if bool_decide (given = VUndef) then VStr "Layer" else given in
  f name w = (Ret layer, w') →
  MiniPaintRexxHandler.run app (VStr s) any w
  = (Ret {| success := VBool true; errorCode := VInt 0;
            output := VStr ("Added layer: " +:+ ToString name);
            result := match layer with
                      | Some l => or_else (App.id l) (VStr "")
                      | None => VStr ""
                      end |}, w').
Proof.
  intros Hinit Hmethod Hf given name Hcall.
  remember (parseCommand s) as cmd eqn:Hcmd.
  rewrite (run_returned app (VStr s) any w w'
             (MiniPaintRexxHandler.Function (MiniPaintRexxHandler.addLayer app))
             (MiniPaintRexxHandler.done_with ("Added layer: " +:+ ToString name)
                (match layer with Some l => App.id l | None => VStr "" end))).
  - unfold MiniPaintRexxHandler.normalize, MiniPaintRexxHandler.done_with. simpl.
    rewrite or_else_string. by destruct layer.
  - done.
  - rewrite (method_and_args_string s any cmd Hcmd). cbn [fst snd].
    rewrite Hmethod. reflexivity.
  - rewrite (method_and_args_string s any cmd Hcmd). cbn [fst snd].
    unfold MiniPaintRexxHandler.call, MiniPaintRexxHandler.addLayer, try_catch.
    rewrite Hf. rewrite strict_eq_undefined. fold given. fold name.
    unfold bind. by rewrite Hcall.
Qed.

Lemma add_layer_reports_id_witness :
  let zero : App.Layer := {| App.id := VInt 0; App.name := VStr "Layer";
                             App.opacity := VInt 1 |} in
  let app : App.t unit :=
    {| App.Layers :=
         Some {| App.addLayer := Some (λ _, ret (Some zero));
                 App.deleteLayer := None; App.mergeLayers := None;
                 App.setOpacity := None; App.getLayerList := None;
                 App.getLayerCount := None; App.getCurrentLayer := None |};
       App.FileOpen := None; App.Actions := None; App.FileSave := None;
       App.State := None |} in
  MiniPaintRexxHandler.run app (VStr "add-layer") ∅ ()
  = (Ret {| success := VBool true; errorCode := VInt 0;
            output := VStr "Added layer: Layer"; result := VStr "" |}, ()).
Proof.
  intros zero app.
  apply (add_layer_reports_id app "add-layer" ∅ () () (λ _, ret (Some zero)) (Some zero));
    first [reflexivity | by eexists].
Defined.
